(** * Verification of the neuromancer problem graph and sequence datasets

    Shallow embedding of
      - [src/neuromancer/problem.py]  (class [Problem]),
      - [src/scratch/loops.py]        (class [Objective]),
      - [src/neuromancer/dataset.py]  (windowed sequence dataset, split),
      - [src/deepmpc/dataset.py]      (numpy batching, unbatching, split).

    Python dictionaries keyed by strings are finite maps ([gmap string _])
    where only lookups matter and association lists where the iteration
    order of the dictionary decides the result.  A raised exception is
    [None] in the [option] monad. *)

From Stdlib Require Import Floats.
From stdpp Require Import gmap strings list fin_maps.

Set Default Proof Using "Type".

Open Scope string_scope.
Open Scope list_scope.
Open Scope nat_scope.

(** ** The problem graph executor: [src/neuromancer/problem.py] *)

Module Problem.

Section problem.

(** [T] stands for [torch.Tensor] (and the Python floats that weights and
    the running loss are).  Only three operations on it are used by the
    code: the float literal [0.0], [+] (in [loss += ...]) and [*] (in
    [self.weight * self.loss(...)]).  No algebraic law is assumed of them. *)
Context {T : Type}.
Variable tadd : T → T → T.
Variable tmul : T → T → T.
Variable tzero : T.
(** [str(t)] of a tensor, as an f-string formats it. *)
Variable tensor_str : T → string.

(** A value held by a dictionary: a tensor, or a string such as the one the
    reserved ["name"] entry carries. *)
Inductive value :=
| VStr (s : string)
| VTensor (t : T).

(** What calling a component or a loss term returns: problem.py accepts a
    bare tensor or a dictionary ([isinstance(output_dict, torch.Tensor)]). *)
Inductive output :=
| OutTensor (t : T)
| OutDict (d : gmap string value).

(** A component as problem.py uses it: its [name] and the call.  The call
    may raise ([None]): the estimators of src/neuromancer/estimators.py
    check their input keys and shapes with assertions and [ValueError]. *)
Record Component := {
  comp_name : string;
  comp_call : gmap string value → option output;
}.

(** A loss term as problem.py uses it: its [name] and the call, which may
    raise.  The class itself ([neuromancer.constraint.Loss]) is imported by
    problem.py from a module that is not among the sources, so a term is
    any named callable here. *)
Record Loss := {
  name : string;
  loss_call : gmap string value → option output;
}.

(** [Objective] of src/scratch/loops.py: variable names, a loss callable
    and a weight.  It has no name.  The callable may raise (wrong number of
    arguments, shapes that do not match). *)
Record Objective := {
  variable_names : list string;
  loss : list value → option T;
  weight : T;
}.

(** [Objective.__call__]:
    the weight times the loss callable applied to the values
    [variables[k]] for [k] in [variable_names], in that order;
    [variables[k]] raises [KeyError] on a missing key. *)
Definition Objective_call (o : Objective) (variables : gmap string value)
  : option T :=
  args ← mapM (λ k, variables !! k) (variable_names o);
  x ← loss o args;
  Some (tmul (weight o) x).

(** Modelled from the spec: the constructor of [neuromancer.constraint.Loss],
    the class of the terms of a [Problem], whose source is missing.  The
    spec has a term "constructed from (ordered list of required keys, a
    reducer function taking that many positional tensor arguments and
    returning a scalar, weight, name); evaluated by key-lookup against the
    flowing dictionary", and [MSELoss] in problem.py passes these four to
    it.  The evaluation is the one of [Objective.__call__]; the weighted
    scalar is returned bare, and [calculate_loss] files it under the name. *)
Definition Loss_init (variable_names : list string)
    (loss : list value → option T) (weight : T) (name : string) : Loss :=
  {| name := name;
     loss_call := λ d,
       OutTensor <$> Objective_call
         {| variable_names := variable_names; loss := loss;
            weight := weight |} d |}.

Record Problem := {
  objectives : list Loss;
  constraints : list Loss;
  components : list Component;
}.

(** [Problem._check_unique_names]: the assertion
    [len(set(names)) == len(objectives) + len(constraints)]. *)
Definition _check_unique_names (P : Problem) : bool :=
  let names := (name <$> objectives P) ++ (name <$> constraints P) in
  bool_decide (size (list_to_set names : gset string)
               = length (objectives P) + length (constraints P)).

(** [Problem.__init__]: stores the three lists, then asserts unique names. *)
Definition Problem_init (objs cons : list Loss) (comps : list Component)
  : option Problem :=
  let P := {| objectives := objs; constraints := cons; components := comps |} in
  if _check_unique_names P then Some P else None.

(** [Problem._check_name_collision_dicts]; [true] when the assertion
    [set(output) - set(input) == set(output)] holds. *)
Definition _check_name_collision_dicts
    (input_dict output_dict : gmap string value) : bool :=
  bool_decide (dom output_dict ∖ dom input_dict = dom output_dict).

(** [if isinstance(output_dict, torch.Tensor): output_dict = {name: output_dict}] *)
Definition as_dict (nm : string) (out : output) : gmap string value :=
  match out with
  | OutTensor t => {[ nm := VTensor t ]}
  | OutDict d => d
  end.

(** [{**input_dict, **output_dict}]: the entries of [output_dict] win. *)
Definition merge (input_dict output_dict : gmap string value)
  : gmap string value :=
  output_dict ∪ input_dict.

(** [Problem.step]. *)
Fixpoint step_loop (comps : list Component) (input_dict : gmap string value)
  : option (gmap string value) :=
  match comps with
  | [] => Some input_dict
  | component :: rest =>
      out ← comp_call component input_dict;
      let output_dict := as_dict (comp_name component) out in
      if _check_name_collision_dicts input_dict output_dict
      then step_loop rest (merge input_dict output_dict)
      else None
  end.

Definition step (P : Problem) (input_dict : gmap string value)
  : option (gmap string value) :=
  step_loop (components P) input_dict.

(** One [for] loop of [Problem.calculate_loss], threading the dictionary
    and the running [loss].  [loss += output_dict[name]] raises [KeyError]
    when the term's dictionary lacks its own name and [TypeError] when the
    entry is not a number. *)
Fixpoint loss_loop (terms : list Loss) (input_dict : gmap string value)
    (acc : T) : option (gmap string value * T) :=
  match terms with
  | [] => Some (input_dict, acc)
  | objective :: rest =>
      out ← loss_call objective input_dict;
      let output_dict := as_dict (name objective) out in
      if _check_name_collision_dicts input_dict output_dict then
        match output_dict !! name objective with
        | Some (VTensor x) =>
            loss_loop rest (merge input_dict output_dict) (tadd acc x)
        | _ => None
        end
      else None
  end.

(** [Problem.calculate_loss]. *)
Definition calculate_loss (P : Problem) (input_dict : gmap string value)
  : option (gmap string value) :=
  '(d1, l1) ← loss_loop (objectives P) input_dict tzero;
  '(d2, l2) ← loss_loop (constraints P) d1 l1;
  Some (<["loss" := VTensor l2]> d2).

(** [str(v)] for the f-string of [forward]. *)
Definition value_str (v : value) : string :=
  match v with
  | VStr s => s
  | VTensor t => tensor_str t
  end.

(** The key [f'{data["name"]}_{k}']. *)
Definition prefixed (nm : value) (k : string) : string :=
  value_str nm +:+ "_" +:+ k.

(** [Problem.forward]. *)
Definition forward (P : Problem) (data : gmap string value)
  : option (gmap string value) :=
  output_dict ← step P data;
  output_dict ← calculate_loss P output_dict;
  nm ← data !! "name";
  Some (kmap (M1 := gmap string) (M2 := gmap string) (prefixed nm) output_dict).

(** *** Specification-side definitions

    They are written with the operations of finite maps only, and use none
    of the definitions above but the calls of components and terms. *)

(** The dictionary [d] with the output dictionaries [outs] merged in. *)
Definition merged (d : gmap string value) (outs : list (gmap string value))
  : gmap string value :=
  d ∪ ⋃ outs.

(** The result [r] of a call yields the output dictionary [o] for the
    callable named [nm]: the call returned [o], or it returned a bare
    tensor, which goes under the callable's own name. *)
Definition yields (r : option output) (nm : string) (o : gmap string value)
  : Prop :=
  r = Some (OutDict o) ∨ ∃ t, r = Some (OutTensor t) ∧ o = {[ nm := VTensor t ]}.

(** Two dictionaries collide when they share a key. *)
Definition collide (o d : gmap string value) : Prop :=
  ∃ k, k ∈ dom o ∧ k ∈ dom d.

(** The callables [xs] (components, or loss terms) ran in declared order
    with the output dictionaries [outs]: the one at position [i] was called
    on the input dictionary [d] with the outputs of all the callables
    before it merged in, and it yielded [outs[i]], none of whose keys was
    in that dictionary. *)
Definition ran {X : Type} (nm : X → string)
    (call : X → gmap string value → option output)
    (xs : list X) (d : gmap string value) (outs : list (gmap string value))
  : Prop :=
  length outs = length xs
  ∧ ∀ i x, xs !! i = Some x →
      ∃ o, outs !! i = Some o
           ∧ yields (call x (merged d (take i outs))) (nm x) o
           ∧ ¬ collide o (merged d (take i outs)).

(** The callable [x] stops the run on the dictionary [d]: it raises, or it
    yields a dictionary that shares a key with [d]. *)
Definition stops {X : Type} (nm : X → string)
    (call : X → gmap string value → option output)
    (x : X) (d : gmap string value) : Prop :=
  call x d = None ∨ ∃ o, yields (call x d) (nm x) o ∧ collide o d.

(** The named scalar of a term: the tensor that the term's output
    dictionary holds under the term's name. *)
Definition named_scalar (t : Loss) (o : gmap string value) (v : T) : Prop :=
  o !! name t = Some (VTensor v).

(** The running total: [0.0], then [+=] for each value in order. *)
Definition total (vs : list T) : T := foldl tadd tzero vs.

End problem.

End Problem.


(** ** Python and array helpers shared by the two dataset modules *)

Module Py.

Section py.
Context {X : Type}.

(** A slice bound [i] of a sequence of length [len], as Python clamps it:
    a negative bound counts from the end and stops at [0], a bound past the
    end stops at [len]. *)
Definition bound (len : nat) (i : Z) : nat :=
  if (i <? 0)%Z then Z.to_nat (Z.of_nat len + i) else Z.to_nat i `min` len.

(** [l[start:stop]] with step 1; [None] is an omitted bound. *)
Definition slice (start stop : option Z) (l : list X) : list X :=
  let a := from_option (bound (length l)) 0 start in
  let b := from_option (bound (length l)) (length l) stop in
  take (b - a) (drop a l).

(** [np.split(ary, sections)] along axis 0 for an integer [sections]:
    [sections] pieces of equal length; an exception when [sections] is [0]
    or does not divide the length. *)
Definition np_split (ary : list X) (sections : nat) : option (list (list X)) :=
  if decide (sections = 0) then None
  else if decide (length ary `mod` sections = 0) then
    let each := length ary `div` sections in
    Some ((λ i, take each (drop (i * each) ary)) <$> seq 0 sections)
  else None.

(** [l[i]] for an integer [i]: negative indices count from the end,
    [IndexError] out of range. *)
Definition index (l : list X) (i : Z) : option X :=
  if (i <? 0)%Z
  then (if (Z.of_nat (length l) + i <? 0)%Z then None
        else l !! Z.to_nat (Z.of_nat (length l) + i))
  else l !! Z.to_nat i.

(** Column [j] of a matrix given as the list of its rows. *)
Definition column (j : nat) (m : list (list X)) : list X :=
  omap (λ row, row !! j) m.

(** Swapping the two leading axes of an array whose second axis has
    length [c]: entry [j][i] of the result is entry [i][j] of [m]. *)
Definition transpose (c : nat) (m : list (list X)) : list (list X) :=
  (λ j, column j m) <$> seq 0 c.

(** A dictionary display or comprehension [{k: v for ...}] read off the list
    of its items: a later item replaces an earlier one with the same key. *)
Definition dict_of (items : list (string * X)) : gmap string X :=
  foldl (λ m kv, <[kv.1 := kv.2]> m) ∅ items.

End py.

(** A 2-D array of shape [(length rows, ncols)]. *)
Record array (E : Type) := Array {
  ncols : nat;
  rows : list (list E);
}.
Arguments Array {E} _ _.
Arguments ncols {E} _.
Arguments rows {E} _.

(** [shape[0]]. *)
Definition nrows {E} (x : array E) : nat := length (rows x).

(** Every row has [ncols] entries: what makes the record an array. *)
Definition well_shaped {E} (x : array E) : Prop :=
  Forall (λ r, length r = ncols x) (rows x).

(** A 3-D array of shape [(length items, dim1, dim2)]. *)
Record array3 (E : Type) := Array3 {
  dim1 : nat;
  dim2 : nat;
  items : list (list (list E));
}.
Arguments Array3 {E} _ _ _.
Arguments dim1 {E} _.
Arguments dim2 {E} _.
Arguments items {E} _.

(** The bounds [(a, b)] that [l[start:stop]] selects in a sequence of
    length [len]. *)
Definition slice_bounds (len : nat) (start stop : option Z) : nat * nat :=
  (from_option (bound len) 0 start, from_option (bound len) len stop).

(** [min(xs)]: [ValueError] on an empty sequence. *)
Definition min_of (xs : list nat) : option nat :=
  match xs with
  | [] => None
  | x :: rest => Some (foldl Nat.min x rest)
  end.

(** The two kinds of Python object that [split_data] subscripts. *)
Inductive pyobj :=
| PySlice (start stop : Z)
| PyList (items : list Z).

(** [o[i]]: a list is indexed; [TypeError: 'slice' object is not
    subscriptable] for a slice object. *)
Definition getitem (o : pyobj) (i : Z) : option Z :=
  match o with
  | PySlice _ _ => None
  | PyList items => index items i
  end.

(** [int(x / 100)] for an integer [x]: true division, then truncation
    towards zero. *)
Definition int_div100 (x : Z) : Z := Z.quot x 100.

End Py.

(** ** The windowed sequence dataset: [src/neuromancer/dataset.py] *)

Module NmDataset.

Import Py.

Section dataset.

(** [A] is the element type of the numpy arrays handed in, [F] that of
    [torch.float] tensors, [to_float] the conversion
    [torch.tensor(v, dtype=torch.float)] applies to each element. *)
Context {A F : Type}.
Variable to_float : A → F.

(** [torch.tensor(v, dtype=torch.float)]. *)
Definition tensor_of (v : array A) : array F :=
  Array (ncols v) ((λ r : list A, to_float <$> r) <$> rows v).

(** [torch.cat(tensors, dim=1)]: the rows are joined side by side;
    [RuntimeError] for an empty list or tensors of different lengths. *)
Definition join_rows (n : nat) (tensors : list (array F)) : list (list F) :=
  foldr (λ t acc, zip_with app (rows t) acc) (replicate n []) tensors.

Definition cat1 (tensors : list (array F)) : option (array F) :=
  match tensors with
  | [] => None
  | t0 :: _ =>
      if forallb (λ t, Nat.eqb (nrows t) (nrows t0)) tensors
      then Some (Array (sum_list (ncols <$> tensors))
                   (join_rows (nrows t0) tensors))
      else None
  end.

(** [x.unfold(0, size, step)] on a 2-D tensor of shape [(L, D)]: the result
    has shape [((L - size) / step + 1, D, size)], window [j] holding rows
    [j*step .. j*step + size - 1] with the window axis last; [RuntimeError]
    when [size > L] or [step = 0]. *)
Definition unfold0 (x : array F) (size step : nat)
  : option (list (list (list F))) :=
  if decide (size ≤ nrows x ∧ 0 < step)%nat then
    Some ((λ j, Py.transpose (ncols x) (take size (drop (j * step) (rows x))))
            <$> seq 0 ((nrows x - size) / step + 1))
  else None.

(** [batch_tensor]. *)
Definition batch_tensor (x : array F) (steps : nat) (mh : bool)
  : option (list (list (list F))) :=
  unfold0 x steps (if mh then 1 else steps).

(** [t.permute(0, 2, 1)] on a 3-D tensor whose last axis has length [n2]. *)
Definition permute021 (n2 : nat) (t : list (list (list F)))
  : list (list (list F)) :=
  Py.transpose n2 <$> t.

(** An entry of [self.dims]: a shape tuple or an integer. *)
Inductive dim :=
| Shape (s : list nat)
| Int (n : nat).

(** The loop that fills [self._vslices]: variable [k] owns the columns
    [i .. i + v[1] - 1], [i] running over the widths in dictionary order. *)
Fixpoint vslices_loop (shapes : list (string * (nat * nat))) (i : nat)
    (acc : gmap string (nat * nat)) : gmap string (nat * nat) :=
  match shapes with
  | [] => acc
  | (k, v) :: rest => vslices_loop rest (i + v.2) (<[k := (i, i + v.2)]> acc)
  end.

(** [(k, v.shape)] for an item [(k, v)] of the data dictionary. *)
Definition shape_of (kv : string * array A) : string * (nat * nat) :=
  (kv.1, (nrows kv.2, ncols kv.2)).

Record SequenceDataset := {
  name : string;
  full_data : array F;
  dims : gmap string dim;
  variables : list string;
  _vslices : gmap string (nat * nat);
  nsteps : nat;
  nsim : nat;
  batched_data : list (list (list F));
}.

(** [SequenceDataset.__init__].  [data] is the dictionary in its iteration
    order. *)
Definition SequenceDataset_init (data : list (string * array A))
    (nsteps : nat) (moving_horizon : bool) (name : string)
  : option SequenceDataset :=
  full_data ← cat1 ((tensor_of ∘ snd) <$> data);
  let shapes := shape_of <$> data in
  let dims0 : gmap string dim :=
    Py.dict_of ((λ kv, (kv.1, Shape [kv.2.1; kv.2.2])) <$> shapes) in
  let variables := fst <$> data in
  let _vslices := vslices_loop shapes 0 ∅ in
  let nsim := nrows full_data in
  let dims :=
    <["nsteps" := Int nsteps]>
    (<["nsim" := Int nsim]>
    (Py.dict_of ((λ kv, (kv.1 +:+ "f", Shape [nsim; kv.2.2])) <$> shapes)
     ∪ (Py.dict_of ((λ kv, (kv.1 +:+ "p", Shape [nsim; kv.2.2])) <$> shapes)
     ∪ dims0))) in
  batched ← batch_tensor full_data nsteps moving_horizon;
  let batched := permute021 nsteps batched in
  Some {| name := name; full_data := full_data; dims := dims;
          variables := variables; _vslices := _vslices; nsteps := nsteps;
          nsim := nsim; batched_data := batched |}.

(** *** Specification-side definitions *)

(** The first column of the variable at position [p] of the data: the
    total width of the variables before it. *)
Definition offset (p : nat) (data : list (string * array A)) : nat :=
  sum_list ((λ kv, ncols kv.2) <$> take p data).

(** The stride of the windowing: [1] for moving-horizon batching, the
    horizon itself for chunked batching. *)
Definition stride (nsteps : nat) (moving_horizon : bool) : nat :=
  if moving_horizon then 1 else nsteps.

(** The rows [start .. start + nsteps - 1] of a variable, as floats: the
    window of that variable that begins at raw time [start]. *)
Definition window_at (v : array A) (nsteps start : nat) : list (list F) :=
  (λ r : list A, to_float <$> r) <$> take nsteps (drop start (rows v)).

(** [SequenceDataset.__len__]. *)
Definition SequenceDataset_len (self : SequenceDataset) : Z :=
  (Z.of_nat (length (batched_data self)) - 1)%Z.

(** [t[:, slice(a, b, 1)]] on a list of rows. *)
Definition cols (sl : nat * nat) (m : list (list F)) : list (list F) :=
  (λ r, take (sl.2 - sl.1) (drop sl.1 r)) <$> m.

(** One comprehension of [__getitem__]:
    [{k + suffix: self.batched_data[j, :, self._vslices[k]] for k in variables}];
    [IndexError] when [j] is out of range, [KeyError] for a variable with no
    slice. *)
Definition window_items (self : SequenceDataset) (suffix : string) (j : nat)
  : option (list (string * list (list F))) :=
  mapM (λ k,
          w ← batched_data self !! j;
          sl ← _vslices self !! k;
          Some (k +:+ suffix, cols sl w))
       (variables self).

(** [SequenceDataset.__getitem__] at a non-negative index [i]. *)
Definition SequenceDataset_getitem (self : SequenceDataset) (i : nat)
  : option (gmap string (list (list F))) :=
  past ← window_items self "p" i;
  future ← window_items self "f" (i + 1);
  Some (Py.dict_of future ∪ Py.dict_of past).

(** A value of the dictionary [get_full_sequence] returns. *)
Inductive entry :=
| ETensor (t : list (list (list F)))
| EStr (s : string).

(** [t.unsqueeze(1)] on a 2-D tensor. *)
Definition unsqueeze1 (m : list (list F)) : list (list (list F)) :=
  (λ r, [r]) <$> m.

(** [SequenceDataset.get_full_sequence]. *)
Definition get_full_sequence (self : SequenceDataset)
  : option (gmap string entry) :=
  past ← mapM (λ k, sl ← _vslices self !! k;
                 Some (k +:+ "p",
                       ETensor (unsqueeze1 (cols sl
                         (Py.slice None (Some (- Z.of_nat (nsteps self))%Z)
                                   (rows (full_data self)))))))
              (variables self);
  future ← mapM (λ k, sl ← _vslices self !! k;
                 Some (k +:+ "f",
                       ETensor (unsqueeze1 (cols sl
                         (Py.slice (Some (Z.of_nat (nsteps self))) None
                                   (rows (full_data self)))))))
              (variables self);
  Some (<["name" := EStr ("loop_" +:+ name self)]>
          (Py.dict_of future ∪ Py.dict_of past)).

(** [{k: v[offs] for k, v in data.items()}] for a slice object [offs]. *)
Definition take_rows (offs : Py.pyobj) (data : list (string * array A))
  : list (string * array A) :=
  match offs with
  | Py.PySlice a b =>
      (λ kv, (kv.1, Array (ncols kv.2)
                          (Py.slice (Some a) (Some b) (rows kv.2)))) <$> data
  | Py.PyList _ => data
  end.

(** [split_data]. *)
Definition split_data (data : list (string * array A))
    (split_ratio : option Py.pyobj)
  : option (list (string * array A) * list (string * array A)
            * list (string * array A)) :=
  nsim ← Py.min_of ((nrows ∘ snd) <$> data);
  let nsim := Z.of_nat nsim in
  offs ← match split_ratio with
         | None =>
             let split_len := (nsim `div` 3)%Z in
             Some (Py.PySlice 0 split_len,
                   Py.PySlice split_len (split_len * 2),
                   Py.PySlice (split_len * 2) nsim)
         | Some ratio =>
             r0 ← Py.getitem ratio 0;
             let train_offs := Py.PySlice 0 (Py.int_div100 r0 * nsim) in
             t1 ← Py.getitem train_offs 1;
             t1' ← Py.getitem train_offs 1;
             r1 ← Py.getitem ratio 1;
             let dev_offs := Py.PySlice t1 (t1' + Py.int_div100 r1 * nsim) in
             d1 ← Py.getitem dev_offs 1;
             Some (train_offs, dev_offs, Py.PySlice d1 nsim)
         end;
  let '(train_offs, dev_offs, test_offs) := offs in
  Some (take_rows train_offs data, take_rows dev_offs data,
        take_rows test_offs data).

(** The part of [get_sequence_dataloaders] that builds the open-loop
    dictionaries (the lines from [split_data] to the three calls of
    [get_full_sequence]), run on data that is already normalised:
    [SequenceDataset] is called with its default [moving_horizon=False]. *)
Definition open_loops (data : list (string * array A)) (nsteps : nat)
    (split_ratio : option pyobj)
  : option (gmap string entry * gmap string entry * gmap string entry) :=
  splits ← split_data data split_ratio;
  let '(train_data, dev_data, test_data) := splits in
  train_data ← SequenceDataset_init train_data nsteps false "train";
  dev_data ← SequenceDataset_init dev_data nsteps false "dev";
  test_data ← SequenceDataset_init test_data nsteps false "test";
  train_loop ← get_full_sequence train_data;
  dev_loop ← get_full_sequence dev_data;
  test_loop ← get_full_sequence test_data;
  Some (train_loop, dev_loop, test_loop).

(** [torch.cat] along axis 0 of the tensors three dictionaries hold under
    one key: the concatenation the reconstruction law speaks of. *)
Definition concat_entries (k : string) (a b c : gmap string entry)
  : option (list (list (list F))) :=
  match a !! k, b !! k, c !! k with
  | Some (ETensor x), Some (ETensor y), Some (ETensor z) => Some (x ++ y ++ z)
  | _, _, _ => None
  end.

End dataset.

End NmDataset.

(** ** The numpy batching of [src/deepmpc/dataset.py] *)

Module Deepmpc.

Import Py.

Section deepmpc.
Context {A : Type}.
(** The [==] of the element type, as numpy applies it elementwise; for
    floats it is the IEEE comparison, under which a NaN differs from
    itself. *)
Variable eqb : A → A → bool.

(** [batch_mh_data]: the windows [data[k:k+nsteps, :]] for [k] in
    [range(0, end_step)], stacked and transposed to
    [(nsteps, nsamples, dim)].  With no window [np.asarray([])] is 1-D and
    [transpose(1, 0, 2)] raises. *)
Definition batch_mh_data (data : array A) (nsteps : nat) : option (array3 A) :=
  let end_step := nrows data - nsteps in
  let windows :=
    (λ k, slice (Some (Z.of_nat k)) (Some (Z.of_nat (k + nsteps))) (rows data))
      <$> seq 0 end_step in
  match windows with
  | [] => None
  | _ => Some (Array3 (length windows) (ncols data) (transpose nsteps windows))
  end.

(** [unbatch_mh_data] on a numpy array: the first step of every sample,
    [data[0, k, :]], reshaped to [(-1, 1, dim)].  [IndexError] when there is
    no step, and the reshape raises when a known dimension is [0]. *)
Definition unbatch_mh_data (data : array3 A) : option (array3 A) :=
  match items data with
  | [] => None
  | first :: _ =>
      if decide (dim1 data = 0 ∨ dim2 data = 0) then None
      else Some (Array3 1 (dim2 data) ((λ r, [r]) <$> first))
  end.

(** [batch_data]: the leading [nsplits * nsteps] rows cut into [nsplits]
    chunks, stacked and transposed to [(nsteps, nsamples, dim)]. *)
Definition batch_data (data : array A) (nsteps : nat) : option (array3 A) :=
  if decide (nsteps = 0) then None
  else
    let nsplits := nrows data `div` nsteps in
    let leftover := nrows data `mod` nsteps in
    chunks ← np_split
      (slice None (Some (Z.of_nat (nrows data) - Z.of_nat leftover)%Z) (rows data))
      nsplits;
    Some (Array3 nsplits (ncols data) (transpose nsteps chunks)).

(** [unbatch_data] on a numpy array:
    [data.transpose(1, 0, 2).reshape(-1, 1, data.shape[-1])]. *)
Definition unbatch_data (data : array3 A) : option (array3 A) :=
  if decide (dim2 data = 0) then None
  else Some (Array3 1 (dim2 data)
               ((λ r, [r]) <$> concat (transpose (dim1 data) (items data)))).

(** [v[:, a:b, :]] on a 3-D array. *)
Definition slice1 (start stop : option Z) (v : array3 A) : array3 A :=
  let ab := slice_bounds (dim1 v) start stop in
  Array3 (ab.2 - ab.1) (dim2 v) (slice start stop <$> items v).

(** [Dataset.split_train_test_dev]: thirds along the sample axis, the
    third taken from the first entry of the dictionary. *)
Definition split_train_test_dev (data : list (string * array3 A))
  : option (list (string * array3 A) * list (string * array3 A)
            * list (string * array3 A)) :=
  v0 ← head (snd <$> data);
  let train_idx := Z.of_nat (dim1 v0 `div` 3) in
  let dev_idx := (train_idx * 2)%Z in
  Some ((λ kv, (kv.1, slice1 None (Some train_idx) kv.2)) <$> data,
        (λ kv, (kv.1, slice1 (Some train_idx) (Some dev_idx) kv.2)) <$> data,
        (λ kv, (kv.1, slice1 (Some dev_idx) None kv.2)) <$> data).

(** The batching that [make_nstep] selects by [self.batch_type]. *)
Definition batch (batch_type : string) (data : array A) (nsteps : nat)
  : option (array3 A) :=
  if decide (batch_type = "mh") then batch_mh_data data nsteps
  else batch_data data nsteps.

(** The loop of [Dataset.make_nstep] for one variable [(k, v)]: the past
    and future series [v[:-nsteps]] and [v[nsteps:]] and their batches. *)
Definition nstep_entries (batch_type : string) (nsteps : nat)
    (kv : string * array A)
  : option (list (string * array A) * list (string * array3 A)) :=
  let k := kv.1 in
  let v := kv.2 in
  let loop_p := Array (ncols v) (slice None (Some (- Z.of_nat nsteps)%Z) (rows v)) in
  let loop_f := Array (ncols v) (slice (Some (Z.of_nat nsteps)) None (rows v)) in
  bp ← batch batch_type loop_p nsteps;
  bf ← batch batch_type loop_f nsteps;
  Some ([(k +:+ "p", loop_p); (k +:+ "f", loop_f)],
        [(k +:+ "p", bp); (k +:+ "f", bf)]).

(** The raw time at which sample [i] of a batch begins: [i] for the moving
    horizon, [i * nsteps] for chunks. *)
Definition sample_start (batch_type : string) (nsteps i : nat) : nat :=
  if decide (batch_type = "mh") then i else i * nsteps.

(** The keys that [make_nstep] writes, in insertion order: name+"p" and
    name+"f" for every variable. *)
Definition loop_keys (names : list string) : list string :=
  concat ((λ k, [k +:+ "p"; k +:+ "f"]) <$> names).

(** [Dataset.make_nstep] without the plotting: the dictionaries
    [loop_data] and [nstep_data] in insertion order, and the three splits. *)
Definition make_nstep (data : list (string * array A)) (nsteps : nat)
    (batch_type : string)
  : option (list (string * array A) * list (string * array3 A)
            * (list (string * array3 A) * list (string * array3 A)
               * list (string * array3 A))) :=
  entries ← mapM (nstep_entries batch_type nsteps) data;
  let loop_data := concat (fst <$> entries) in
  let nstep_data := concat (snd <$> entries) in
  splits ← split_train_test_dev nstep_data;
  Some (loop_data, nstep_data, splits).

(** The unbatching that [make_loop] selects by [self.batch_type]. *)
Definition unbatch (batch_type : string) (data : array3 A)
  : option (array3 A) :=
  if decide (batch_type = "mh") then unbatch_mh_data data
  else unbatch_data data.

(** [Dataset.unbatch] and [Dataset.unbatch_mh] on a dictionary. *)
Definition unbatch_dict (batch_type : string) (data : list (string * array3 A))
  : option (list (string * array3 A)) :=
  mapM (λ kv, v ← unbatch batch_type kv.2; Some (kv.1, v)) data.

(** [np.concatenate([a, b, c]).squeeze(1)] on arrays of shape [(_, 1, dim)]:
    the shapes must agree off axis 0, and axis 1 must have length 1. *)
Definition concatenate_squeeze (a b c : array3 A) : option (array A) :=
  if decide (dim1 a = dim1 b ∧ dim1 b = dim1 c ∧ dim2 a = dim2 b
             ∧ dim2 b = dim2 c ∧ dim1 a = 1) then
    Some (Array (dim2 a) (concat (items a ++ items b ++ items c)))
  else None.

(** [np.array_equal(x, y)]: [False] when the shapes differ, else
    [(x == y).all()]. *)
Definition array_equal (x y : array A) : bool :=
  bool_decide (nrows x = nrows y ∧ ncols x = ncols y)
  && forallb (λ rr, forallb (λ ab, eqb ab.1 ab.2) (zip rr.1 rr.2))
       (zip (rows x) (rows y)).

(** The body of [Dataset.make_loop] for one key [k] of [train_data]: the
    concatenated reconstruction and the assertion that it equals
    [self.loop_data[k][:all_loop[k].shape[0]]]. *)
Definition loop_check (loop_data : gmap string (array A))
    (train_loop dev_loop test_loop : gmap string (array3 A)) (k : string)
  : option (string * array A) :=
  tr ← train_loop !! k;
  dv ← dev_loop !! k;
  te ← test_loop !! k;
  all_loop ← concatenate_squeeze tr dv te;
  orig ← loop_data !! k;
  if array_equal all_loop
       (Array (ncols orig)
              (slice None (Some (Z.of_nat (nrows all_loop))) (rows orig)))
  then Some (k, all_loop) else None.

(** [Dataset.make_loop] without the plotting and the final conversion to
    tensors: the three reconstructions, after the assertion passed for
    every key. *)
Definition make_loop (batch_type : string)
    (loop_data : list (string * array A))
    (train_data dev_data test_data : list (string * array3 A))
  : option (list (string * array3 A) * list (string * array3 A)
            * list (string * array3 A)) :=
  train_loop ← unbatch_dict batch_type train_data;
  dev_loop ← unbatch_dict batch_type dev_data;
  test_loop ← unbatch_dict batch_type test_data;
  _ ← mapM (loop_check (dict_of loop_data) (dict_of train_loop)
                       (dict_of dev_loop) (dict_of test_loop))
           (fst <$> train_data);
  Some (train_loop, dev_loop, test_loop).

(** *** Specification-side definitions *)

(** No element of the arrays of a dictionary differs from itself (for
    floats: no entry is a NaN). *)
Definition self_equal (data : list (string * array3 A)) : bool :=
  forallb (λ kv, forallb (forallb (forallb (λ x, eqb x x))) (items kv.2)) data.

End deepmpc.

End Deepmpc.

(** ** Min-max normalization of [src/deepmpc/dataset.py]

    The arrays are of numpy's default [float64]: binary64 floats with their
    rounding, infinities and NaN. *)

Module DeepmpcNorm.

Import Py.

(** The largest finite [float64]. *)
Definition float_max : float := 0x1.fffffffffffffp+1023%float.

(** [np.nan_to_num] with its default arguments, on one element: NaN becomes
    [0.0], an infinity the finite float of largest magnitude and same
    sign. *)
Definition nan_to_num (x : float) : float :=
  if PrimFloat.is_nan x then 0%float
  else if PrimFloat.is_infinity x
       then (if (x <? 0)%float then (- float_max)%float else float_max)
       else x.

(** One step of the reductions [min] and [max] of numpy: the smaller (the
    larger) of the two, and a NaN once one was met. *)
Definition np_minimum (a b : float) : float :=
  if (a <=? b)%float || PrimFloat.is_nan a then a else b.

Definition np_maximum (a b : float) : float :=
  if (b <=? a)%float || PrimFloat.is_nan a then a else b.

(** [M.min(axis=0)] and [M.max(axis=0)]: the reduction down every column;
    [ValueError] on an array without rows. *)
Definition reduce_axis0 (f : float → float → float) (M : array float)
  : option (list float) :=
  match rows M with
  | [] => None
  | r :: rest => Some (foldl (zip_with f) r rest)
  end.

(** [Dataset.normalize(M)], as [norm_data] calls it, with [Mmin] and [Mmax]
    inferred from the data: the normalized array and the two statistics.
    [reshape(1, -1)] raises on an array without columns. *)
Definition normalize (M : array float)
  : option (array float * list float * list float) :=
  Mmin ← reduce_axis0 np_minimum M;
  Mmax ← reduce_axis0 np_maximum M;
  if decide (ncols M = 0) then None
  else
    let M_norm :=
      (λ row : list float,
         zip_with (λ x mm, ((x - mm.1) / (mm.2 - mm.1))%float)
           row (zip Mmin Mmax)) <$> rows M in
    Some (Array (ncols M) ((λ row : list float, nan_to_num <$> row) <$> M_norm),
          Mmin, Mmax).

(** The length that numpy broadcasts two axes of lengths [a] and [b] to. *)
Definition bdim (a b : nat) : option nat :=
  if decide (a = b) then Some a
  else if decide (a = 1) then Some b
  else if decide (b = 1) then Some a
  else None.

(** An elementwise operation on two 1-D operands, broadcast. *)
Definition broadcast (f : float → float → float) (xs ys : list float)
  : option (list float) :=
  if decide (length xs = length ys) then Some (zip_with f xs ys)
  else match xs, ys with
       | [x], _ => Some (f x <$> ys)
       | _, [y] => Some ((λ x, f x y) <$> xs)
       | _, _ => None
       end.

(** [min_max_denorm(M, Mmin, Mmax)], the statistics being 1-D arrays (or
    scalars, which broadcast like arrays of one element). *)
Definition min_max_denorm (M : array float) (Mmin Mmax : list float)
  : option (array float) :=
  range ← broadcast PrimFloat.sub Mmax Mmin;
  c1 ← bdim (ncols M) (length range);
  c2 ← bdim c1 (length Mmin);
  scaled ← mapM (λ row : list float, broadcast PrimFloat.mul row range)
             (rows M);
  M_denorm ← mapM (λ row : list float, broadcast PrimFloat.add row Mmin)
               scaled;
  Some (Array c2 ((λ row : list float, nan_to_num <$> row) <$> M_denorm)).

(** *** Specification-side definitions *)

(** Every entry of the array is finite: neither a NaN nor an infinity. *)
Definition all_finite (M : array float) : bool :=
  forallb (forallb PrimFloat.is_finite) (rows M).

(** Floating tolerance as [numpy.allclose] measures it, with its default
    relative and absolute tolerances [1e-05] and [1e-08]. *)
Definition rtol : float := (1 / 100000)%float.
Definition atol : float := (1 / 100000000)%float.

Definition isclose (a b : float) : bool :=
  (abs (a - b) <=? atol + rtol * abs b)%float.

Definition allclose (X Y : array float) : bool :=
  bool_decide (nrows X = nrows Y ∧ ncols X = ncols Y)
  && forallb (λ rr, forallb (λ ab, isclose ab.1 ab.2) (zip rr.1 rr.2))
       (zip (rows X) (rows Y)).

End DeepmpcNorm.

(** * Instances used by the examples *)

Module Examples.

Import Problem.

(** Tensors are integers here; [str] of one is not needed to show. *)
Definition zstr (z : Z) : string := "t".

(** A term named ["a"] with the constant loss [3] and weight [2]. *)
Definition term_a : @Loss Z :=
  Loss_init Z.mul [] (λ _, Some 3%Z) 2%Z "a".

(** A term named ["b"] with weight [1] that reads ["x"] and triples it. *)
Definition term_b : @Loss Z :=
  Loss_init Z.mul ["x"]
    (λ args, match args with [VTensor x] => Some (3 * x)%Z | _ => None end)
    1%Z "b".

(** A term named ["c"] with weight [1] that reads the value of the term
    ["a"] and triples it. *)
Definition term_c : @Loss Z :=
  Loss_init Z.mul ["a"]
    (λ args, match args with [VTensor x] => Some (3 * x)%Z | _ => None end)
    1%Z "c".

(** A component that puts out the dictionary [{"x": 7}]. *)
Definition comp_x : @Component Z :=
  {| comp_name := "cx";
     comp_call := λ _, Some (OutDict {[ "x" := VTensor 7%Z ]}) |}.

(** A component that needs ["Up"] in its input and raises without it. *)
Definition comp_u : @Component Z :=
  {| comp_name := "cu";
     comp_call := λ d, u ← d !! "Up"; Some (OutDict {[ "u" := u ]}) |}.

Definition pb_chain : @Problem Z :=
  {| objectives := [term_b]; constraints := [term_a];
     components := [comp_x] |}.

(** The term ["c"] reads what the term ["a"] before it put out. *)
Definition pb_order : @Problem Z :=
  {| objectives := [term_a; term_c]; constraints := []; components := [] |}.

(** The same two terms in the other order. *)
Definition pb_reversed : @Problem Z :=
  {| objectives := [term_c; term_a]; constraints := []; components := [] |}.

(** The component [comp_x] twice: the second output collides. *)
Definition pb_twice : @Problem Z :=
  {| objectives := []; constraints := []; components := [comp_x; comp_x] |}.

Definition data_train : gmap string (@value Z) :=
  <["name" := VStr "train"]> {[ "Yp" := VTensor 1%Z ]}.

Definition step_train : gmap string (@value Z) :=
  list_to_map [("name", VStr "train"); ("Yp", VTensor 1%Z);
               ("x", VTensor 7%Z)].

Definition loss_train : gmap string (@value Z) :=
  list_to_map [("name", VStr "train"); ("Yp", VTensor 1%Z);
               ("x", VTensor 7%Z); ("b", VTensor 21%Z);
               ("a", VTensor 6%Z); ("loss", VTensor 27%Z)].

Definition out_train : gmap string (@value Z) :=
  list_to_map [("train_name", VStr "train"); ("train_Yp", VTensor 1%Z);
               ("train_x", VTensor 7%Z); ("train_b", VTensor 21%Z);
               ("train_a", VTensor 6%Z); ("train_loss", VTensor 27%Z)].

(** The series of the end-to-end scenario: one column holding
    [0, 1, ..., n-1]. *)
Definition series (n : nat) : Py.array Z :=
  Py.Array 1 ((λ t, [Z.of_nat t]) <$> seq 0 n).

Definition data_Y (n : nat) : list (string * Py.array Z) := [("Y", series n)].

(** These integers are floats already. *)
Definition to_float_Z (z : Z) : Z := z.

(** Two variables of widths 2 and 1 over four time steps. *)
Definition data_UY : list (string * Py.array Z) :=
  [("U", Py.Array 2 [[1; 2]; [3; 4]; [5; 6]; [7; 8]]%Z);
   ("Y", Py.Array 1 [[10]; [20]; [30]; [40]]%Z)].

(** The dictionaries that [make_nstep] builds from [data_UY] with chunks of
    one step. *)
Definition nstep_UY :=
  default ([], [], ([], [], [])) (Deepmpc.make_nstep data_UY 1 "chunk").

(** Six float samples, and the same with a NaN in the second row. *)
Definition data_F : list (string * Py.array float) :=
  [("Y", Py.Array 1 [[0]; [1]; [2]; [3]; [4]; [5]]%float)].

Definition data_nan : list (string * Py.array float) :=
  [("Y", Py.Array 1 [[0]; [nan]; [2]; [3]; [4]; [5]]%float)].

Definition nstep_F :=
  default ([], [], ([], [], [])) (Deepmpc.make_nstep data_F 1 "chunk").

Definition nstep_nan :=
  default ([], [], ([], [], [])) (Deepmpc.make_nstep data_nan 1 "chunk").

(** One step of seven samples. *)
Definition data_seven : list (string * Py.array3 Z) :=
  [("Yp", Py.Array3 7 1 [[[0]; [1]; [2]; [3]; [4]; [5]; [6]]]%Z)].

(** A column whose middle entry is small against its range, a column
    whose range overflows, and an array with a constant column. *)
Definition data_wide : Py.array float :=
  Py.Array 1 [[-1e20]; [1]; [1e20]]%float.

Definition data_huge : Py.array float :=
  Py.Array 1 [[0x1p+1023]; [-0x1p+1023]]%float.

Definition data_const : Py.array float :=
  Py.Array 2 [[1; 7]; [2; 7]; [4; 7]]%float.

End Examples.

(** * Properties of the problem graph executor *)

Module ProblemSpec.

Import Problem.

Section problem_spec.
Context {T : Type}.
Variable tadd : T → T → T.
Variable tmul : T → T → T.
Variable tzero : T.
Variable tensor_str : T → string.

Implicit Types d o : gmap string (@value T).
Implicit Types outs : list (gmap string (@value T)).

(** The assertion of [_check_name_collision_dicts] passes exactly when the
    two key sets are disjoint. *)
Lemma check_name_collision_disjoint (input_dict output_dict : gmap string (@value T)) :
  _check_name_collision_dicts input_dict output_dict = true
  ↔ dom output_dict ## dom input_dict.
Proof.
  clear tadd tmul tzero tensor_str.
  unfold _check_name_collision_dicts. rewrite bool_decide_eq_true.
  set_solver.
Qed.

Lemma not_collide o d : ¬ collide o d ↔ dom o ## dom d.
Proof.
  clear. unfold collide. split.
  - intros Hn k Ho Hd. apply Hn. eauto.
  - intros Hdisj (k & Ho & Hd). exact (Hdisj k Ho Hd).
Qed.

Lemma check_name_collision_false (input_dict output_dict : gmap string (@value T)) :
  _check_name_collision_dicts input_dict output_dict = false
  ↔ collide output_dict input_dict.
Proof.
  clear tadd tmul tzero tensor_str.
  rewrite <- not_true_iff_false, check_name_collision_disjoint, <- not_collide.
  split; [apply dec_stable | tauto].
Qed.

Lemma yields_Some (out : @output T) nm o :
  yields (Some out) nm o ↔ o = as_dict nm out.
Proof.
  clear. unfold yields. destruct out as [t|d']; simpl; split.
  - intros [[=]|(t' & [= <-] & ->)]. done.
  - intros ->. right. eauto.
  - intros [[= <-]|(t' & [=] & _)]. done.
  - intros ->. by left.
Qed.

Lemma yields_None nm o : ¬ yields (T := T) None nm o.
Proof. clear. by intros [[=]|(t & [=] & _)]. Qed.

Lemma merged_nil d : merged d [] = d.
Proof. clear. unfold merged. simpl. apply (right_id_L ∅ (∪)). Qed.

Lemma merged_cons d o outs :
  dom o ## dom d → merged d (o :: outs) = merged (o ∪ d) outs.
Proof.
  clear. intros Hdisj. unfold merged. simpl.
  rewrite (assoc_L (∪)). f_equal.
  apply map_union_comm. symmetry. by apply map_disjoint_dom.
Qed.

Lemma dom_merged d outs k :
  k ∈ dom (merged d outs) ↔ k ∈ dom d ∨ ∃ o, o ∈ outs ∧ k ∈ dom o.
Proof.
  clear. unfold merged. rewrite dom_union_L, elem_of_union.
  apply or_iff_compat_l.
  induction outs as [|o outs IH]; simpl.
  - rewrite dom_empty_L. split; [set_solver|].
    intros (o & Ho & _). by apply elem_of_nil in Ho.
  - rewrite dom_union_L, elem_of_union, IH. split.
    + intros [Hk|(o' & Ho' & Hk)].
      * exists o. split; [left|done].
      * exists o'. split; [by right|done].
    + intros (o' & [->|Ho']%elem_of_cons & Hk); [by left|right; eauto].
Qed.

Section chain.
Context {X : Type}.
Variable nm : X → string.
Variable call : X → gmap string (@value T) → option (@output T).

Lemma ran_nil d outs : ran nm call [] d outs ↔ outs = [].
Proof.
  clear. unfold ran. split.
  - intros [Hlen _]. by destruct outs.
  - intros ->. split; [done|]. intros i x Hi. by destruct i.
Qed.

Lemma ran_cons x xs d outs :
  ran nm call (x :: xs) d outs
  ↔ ∃ o outs', outs = o :: outs'
      ∧ yields (call x d) (nm x) o
      ∧ dom o ## dom d
      ∧ ran nm call xs (o ∪ d) outs'.
Proof.
  clear. unfold ran. split.
  - intros [Hlen Hall]. destruct outs as [|o outs']; [done|].
    destruct (Hall 0 x eq_refl) as (o0 & [= <-] & Hy & Hnc).
    simpl in Hy, Hnc. rewrite merged_nil in Hy, Hnc.
    apply not_collide in Hnc.
    exists o, outs'. split; [done|]. split; [done|]. split; [done|].
    split; [simpl in Hlen; lia|].
    intros i x' Hi. destruct (Hall (S i) x' Hi) as (o' & Ho' & Hy' & Hnc').
    simpl in Ho', Hy', Hnc'. rewrite merged_cons in Hy', Hnc' by done. eauto.
  - intros (o & outs' & -> & Hy & Hdisj & Hlen & Hall).
    split; [simpl; lia|].
    intros [|i] x' Hi; simpl in Hi.
    + injection Hi as <-. exists o. simpl. rewrite merged_nil.
      split; [done|]. split; [done|]. by apply not_collide.
    + destruct (Hall i x' Hi) as (o' & Ho' & Hy' & Hnc').
      exists o'. simpl. rewrite merged_cons by done. eauto.
Qed.

Lemma ran_subseteq xs d outs :
  ran nm call xs d outs →
  d ⊆ merged d outs ∧ ∀ o, o ∈ outs → o ⊆ merged d outs.
Proof.
  clear. revert d outs. induction xs as [|x xs IH]; intros d outs.
  - intros ->%ran_nil. rewrite merged_nil. split; [done|].
    intros o Ho. by apply elem_of_nil in Ho.
  - intros (o & outs' & -> & Hy & Hdisj & Hran)%ran_cons.
    destruct (IH _ _ Hran) as [Hsub Hall].
    rewrite merged_cons by done.
    assert (o ##ₘ d) as Hd by (by apply map_disjoint_dom).
    split.
    + etrans; [|exact Hsub]. by apply map_union_subseteq_r.
    + intros o' [->|Ho']%elem_of_cons; [|by apply Hall].
      etrans; [|exact Hsub]. apply map_union_subseteq_l.
Qed.

Lemma ran_take xs d outs j :
  ran nm call xs d outs → ran nm call (take j xs) d (take j outs).
Proof.
  clear. intros [Hlen Hall]. split.
  - rewrite !length_take. lia.
  - intros i x Hi. apply lookup_take_Some in Hi as [Hi Hij].
    destruct (Hall i x Hi) as (o & Ho & Hy & Hnc).
    exists o. rewrite lookup_take_lt by done.
    rewrite take_take. replace (i `min` j) with i by lia. eauto.
Qed.

Lemma ran_app xs ys d outs :
  ran nm call (xs ++ ys) d outs
  ↔ ∃ outs1 outs2, outs = outs1 ++ outs2
      ∧ ran nm call xs d outs1
      ∧ ran nm call ys (merged d outs1) outs2.
Proof.
  clear. revert d outs. induction xs as [|x xs IH]; intros d outs; simpl.
  - split.
    + intros Hran. exists [], outs. rewrite merged_nil.
      split; [done|]. split; [by apply ran_nil|done].
    + intros (outs1 & outs2 & -> & ->%ran_nil & Hran).
      by rewrite merged_nil in Hran.
  - rewrite ran_cons. split.
    + intros (o & outs' & -> & Hy & Hdisj & Hran).
      apply IH in Hran as (outs1 & outs2 & -> & H1 & H2).
      exists (o :: outs1), outs2. split; [done|]. split.
      * apply ran_cons. eauto 8.
      * by rewrite merged_cons.
    + intros (outs1 & outs2 & -> & H1 & H2).
      apply ran_cons in H1 as (o & outs' & -> & Hy & Hdisj & Hran).
      rewrite merged_cons in H2 by done.
      exists o, (outs' ++ outs2). split; [done|]. split; [done|].
      split; [done|]. apply IH. eauto.
Qed.

End chain.

Lemma step_loop_Some comps d r :
  step_loop comps d = Some r
  ↔ ∃ outs, ran comp_name comp_call comps d outs ∧ r = merged d outs.
Proof.
  clear. revert d. induction comps as [|c comps IH]; intros d; simpl.
  - split.
    + intros [= <-]. exists []. rewrite merged_nil. split; [by apply ran_nil|done].
    + intros (outs & ->%ran_nil & ->). by rewrite merged_nil.
  - destruct (comp_call c d) as [out|] eqn:Hcall; simpl.
    2:{ split; [done|]. intros (outs & Hran & _).
        apply ran_cons in Hran as (o & _ & _ & Hy & _).
        rewrite Hcall in Hy. by apply yields_None in Hy. }
    destruct (_check_name_collision_dicts _ _) eqn:Hchk.
    + apply check_name_collision_disjoint in Hchk. rewrite IH. split.
      * intros (outs & Hran & ->). exists (as_dict (comp_name c) out :: outs).
        split; [|by rewrite merged_cons].
        apply ran_cons. eexists _, _. split; [done|].
        rewrite Hcall. split; [by apply yields_Some|done].
      * intros (outs & Hran & ->).
        apply ran_cons in Hran as (o & outs' & -> & Hy & Hdisj & Hran).
        rewrite Hcall in Hy. apply yields_Some in Hy as ->.
        exists outs'. split; [done|]. by rewrite merged_cons.
    + split; [done|]. intros (outs & Hran & _).
      apply ran_cons in Hran as (o & outs' & -> & Hy & Hdisj & _).
      rewrite Hcall in Hy. apply yields_Some in Hy as ->.
      apply check_name_collision_false, not_collide in Hchk; [done|].
      done.
Qed.

Lemma step_loop_None comps d :
  step_loop comps d = None
  ↔ ∃ i c outs, comps !! i = Some c
      ∧ ran comp_name comp_call (take i comps) d outs
      ∧ stops comp_name comp_call c (merged d outs).
Proof.
  clear. revert d. induction comps as [|c comps IH]; intros d; simpl.
  - split; [done|]. intros (i & c & outs & Hi & _). by destruct i.
  - destruct (comp_call c d) as [out|] eqn:Hcall; simpl.
    2:{ split; [|done]. intros _. exists 0, c, [].
        split; [done|]. split; [by apply ran_nil|].
        rewrite merged_nil. by left. }
    destruct (_check_name_collision_dicts _ _) eqn:Hchk.
    + apply check_name_collision_disjoint in Hchk. rewrite IH. split.
      * intros (i & c' & outs & Hi & Hran & Hstop).
        exists (S i), c', (as_dict (comp_name c) out :: outs).
        split; [done|]. rewrite merged_cons by done. split; [|done].
        simpl. apply ran_cons. eexists _, _. split; [done|].
        rewrite Hcall. split; [by apply yields_Some|done].
      * intros ([|i] & c' & outs & Hi & Hran & Hstop); simpl in Hi, Hran.
        -- injection Hi as <-. apply ran_nil in Hran as ->.
           rewrite merged_nil in Hstop.
           destruct Hstop as [Hn|(o & Hy & Hc)]; [congruence|].
           rewrite Hcall in Hy. apply yields_Some in Hy as ->.
           by apply not_collide in Hchk.
        -- apply ran_cons in Hran as (o & outs' & -> & Hy & Hdisj & Hran).
           rewrite Hcall in Hy. apply yields_Some in Hy as ->.
           rewrite merged_cons in Hstop by done. eauto 6.
    + split; [|done]. intros _. exists 0, c, [].
      split; [done|]. split; [by apply ran_nil|].
      rewrite merged_nil. right. exists (as_dict (comp_name c) out).
      rewrite Hcall. split; [by apply yields_Some|].
      by apply check_name_collision_false.
Qed.

(** C2.  [step] invokes the components in declared order, each on the
    input dictionary with the outputs of the components before it merged
    in.  It returns a dictionary exactly when every component yields an
    output dictionary none of whose keys is in the dictionary accumulated
    before it, and what it returns is then the input dictionary with all
    these outputs merged in.  It fails, returning nothing (so nothing of
    the offending output is merged), exactly when, after some components
    ran in this way, the next one yields a dictionary with a key that the
    accumulated dictionary already holds, or raises itself. *)
Theorem step_correct (P : @Problem T) d :
  (∀ r, step P d = Some r
        ↔ ∃ outs, ran comp_name comp_call (components P) d outs
                  ∧ r = merged d outs)
  ∧ (step P d = None
     ↔ ∃ i c outs, components P !! i = Some c
         ∧ ran comp_name comp_call (take i (components P)) d outs
         ∧ (comp_call c (merged d outs) = None
            ∨ ∃ o k, yields (comp_call c (merged d outs)) (comp_name c) o
                     ∧ k ∈ dom o ∧ k ∈ dom (merged d outs))).
Proof.
  clear. split; [intros r; apply step_loop_Some|].
  unfold step. rewrite step_loop_None. unfold stops, collide.
  split; intros (i & c & outs & Hi & Hran & Hstop); exists i, c, outs;
    (split; [done|]); (split; [done|]);
    (destruct Hstop as [?|Hstop]; [by left|right]).
  - destruct Hstop as (o & Hy & k & Hk). eauto.
  - destruct Hstop as (o & k & Hy & Hk). eauto.
Qed.

Lemma loss_loop_app ts1 ts2 d acc :
  loss_loop tadd (ts1 ++ ts2) d acc
  = '(d1, l1) ← loss_loop tadd ts1 d acc; loss_loop tadd ts2 d1 l1.
Proof.
  revert d acc. induction ts1 as [|t ts1 IH]; intros d acc; simpl; [done|].
  destruct (loss_call t d) as [out|]; simpl; [|done].
  destruct (_check_name_collision_dicts _ _); [|done].
  destruct (as_dict (name t) out !! name t) as [[s|x]|]; done.
Qed.

Lemma calculate_loss_unfold (P : @Problem T) d :
  calculate_loss tadd tzero P d
  = '(d2, l2) ← loss_loop tadd (objectives P ++ constraints P) d tzero;
    Some (<["loss" := VTensor l2]> d2).
Proof.
  unfold calculate_loss. rewrite loss_loop_app.
  by destruct (loss_loop tadd (objectives P) d tzero) as [[d1 l1]|].
Qed.

Lemma loss_loop_Some terms d acc d' l :
  loss_loop tadd terms d acc = Some (d', l)
  ↔ ∃ outs vals, ran name loss_call terms d outs
      ∧ Forall3 named_scalar terms outs vals
      ∧ d' = merged d outs ∧ l = foldl tadd acc vals.
Proof.
  revert d acc. induction terms as [|t ts IH]; intros d acc; simpl.
  - split.
    + intros [= <- <-]. exists [], []. rewrite merged_nil.
      split; [by apply ran_nil|]. split; [constructor|done].
    + intros (outs & vals & ->%ran_nil & Hsc & -> & ->).
      inversion Hsc; subst. by rewrite merged_nil.
  - destruct (loss_call t d) as [out|] eqn:Hcall; simpl.
    2:{ split; [done|]. intros (outs & vals & Hran & _).
        apply ran_cons in Hran as (o & _ & _ & Hy & _).
        rewrite Hcall in Hy. by apply yields_None in Hy. }
    destruct (_check_name_collision_dicts _ _) eqn:Hchk.
    2:{ split; [done|]. intros (outs & vals & Hran & _).
        apply ran_cons in Hran as (o & outs' & -> & Hy & Hdisj & _).
        rewrite Hcall in Hy. apply yields_Some in Hy as ->.
        apply check_name_collision_false, not_collide in Hchk; done. }
    apply check_name_collision_disjoint in Hchk.
    destruct (as_dict (name t) out !! name t) as [[s|x]|] eqn:Hlk.
    1,3: split; [done|]; intros (outs & vals & Hran & Hsc & _);
      apply ran_cons in Hran as (o & outs' & -> & Hy & _);
      rewrite Hcall in Hy; apply yields_Some in Hy as ->;
      inversion Hsc as [|? ? ? ? ? ? Hv]; subst;
      unfold named_scalar in Hv; congruence.
    rewrite IH. split.
    + intros (outs & vals & Hran & Hsc & -> & ->).
      exists (as_dict (name t) out :: outs), (x :: vals).
      split; [|split; [by constructor|by rewrite merged_cons]].
      apply ran_cons. eexists _, _. split; [done|].
      rewrite Hcall. split; [by apply yields_Some|done].
    + intros (outs & vals & Hran & Hsc & -> & ->).
      apply ran_cons in Hran as (o & outs' & -> & Hy & Hdisj & Hran).
      rewrite Hcall in Hy. apply yields_Some in Hy as ->.
      inversion Hsc as [|? ? v ? ? vals' Hv Hsc']; subst.
      unfold named_scalar in Hv. rewrite Hlk in Hv. injection Hv as <-.
      exists outs', vals'. by rewrite merged_cons.
Qed.

Lemma loss_loop_None terms d acc :
  loss_loop tadd terms d acc = None
  ↔ ∃ i t outs vals, terms !! i = Some t
      ∧ ran name loss_call (take i terms) d outs
      ∧ Forall3 named_scalar (take i terms) outs vals
      ∧ (stops name loss_call t (merged d outs)
         ∨ ∃ o, yields (loss_call t (merged d outs)) (name t) o
                ∧ ∀ v, ¬ named_scalar t o v).
Proof.
  revert d acc. induction terms as [|t ts IH]; intros d acc; simpl.
  - split; [done|]. intros (i & t & outs & vals & Hi & _). by destruct i.
  - assert (∀ R : Prop, R →
      ∃ i t' outs vals, (t :: ts) !! i = Some t'
        ∧ ran name loss_call (take i (t :: ts)) d outs
        ∧ Forall3 named_scalar (take i (t :: ts)) outs vals ∧ R) as Hfirst.
    { intros R HR. exists 0, t, [], []. split; [done|].
      split; [by apply ran_nil|]. split; [constructor|done]. }
    destruct (loss_call t d) as [out|] eqn:Hcall; simpl.
    2:{ split; [|done]. intros _. exists 0, t, [], []. split; [done|].
        split; [by apply ran_nil|]. split; [constructor|].
        rewrite merged_nil. left. by left. }
    destruct (_check_name_collision_dicts _ _) eqn:Hchk.
    2:{ split; [|done]. intros _. exists 0, t, [], []. split; [done|].
        split; [by apply ran_nil|]. split; [constructor|].
        rewrite merged_nil. left. right. exists (as_dict (name t) out).
        rewrite Hcall. split; [by apply yields_Some|].
        by apply check_name_collision_false. }
    apply check_name_collision_disjoint in Hchk.
    assert (∀ i t' outs vals,
      (t :: ts) !! S i = Some t' →
      ran name loss_call (take (S i) (t :: ts)) d outs →
      Forall3 named_scalar (take (S i) (t :: ts)) outs vals →
      ∃ x outs' vals', as_dict (name t) out !! name t = Some (VTensor x)
        ∧ outs = as_dict (name t) out :: outs' ∧ vals = x :: vals'
        ∧ ran name loss_call (take i ts)
            (as_dict (name t) out ∪ d) outs'
        ∧ Forall3 named_scalar (take i ts) outs' vals') as Hlater.
    { intros i t' outs vals Hi Hran Hsc. simpl in Hran, Hsc.
      apply ran_cons in Hran as (o & outs' & -> & Hy & Hdisj & Hran).
      rewrite Hcall in Hy. apply yields_Some in Hy as ->.
      inversion Hsc as [|? ? v ? ? vals' Hv Hsc']; subst.
      exists v, outs', vals'. done. }
    destruct (as_dict (name t) out !! name t) as [[s|x]|] eqn:Hlk.
    1,3: split; [|done]; intros _; exists 0, t, [], []; (split; [done|]);
      (split; [by apply ran_nil|]); (split; [constructor|]);
      rewrite merged_nil; right; exists (as_dict (name t) out);
      rewrite Hcall; (split; [by apply yields_Some|]);
      intros v Hv; unfold named_scalar in Hv; congruence.
    rewrite IH. split.
    + intros (i & t' & outs & vals & Hi & Hran & Hsc & Hstop).
      exists (S i), t', (as_dict (name t) out :: outs), (x :: vals).
      split; [done|]. rewrite merged_cons by done. simpl.
      split; [|split; [by constructor|done]].
      apply ran_cons. eexists _, _. split; [done|].
      rewrite Hcall. split; [by apply yields_Some|done].
    + intros ([|i] & t' & outs & vals & Hi & Hran & Hsc & Hstop).
      * simpl in Hi, Hran. injection Hi as <-. apply ran_nil in Hran as ->.
        rewrite merged_nil in Hstop. exfalso.
        destruct Hstop as [[Hn|(o & Hy & Hc)]|(o & Hy & Hv)].
        -- congruence.
        -- rewrite Hcall in Hy. apply yields_Some in Hy as ->.
           by apply not_collide in Hchk.
        -- rewrite Hcall in Hy. apply yields_Some in Hy as ->.
           by apply (Hv x).
      * destruct (Hlater i t' outs vals Hi Hran Hsc)
          as (x' & outs' & vals' & _ & -> & -> & Hran' & Hsc').
        rewrite merged_cons in Hstop by done.
        exists i, t', outs', vals'. done.
Qed.

Lemma calculate_loss_Some (P : @Problem T) d r :
  calculate_loss tadd tzero P d = Some r
  ↔ ∃ outs vals,
      ran name loss_call (objectives P ++ constraints P) d outs
      ∧ Forall3 named_scalar (objectives P ++ constraints P) outs vals
      ∧ r = <["loss" := VTensor (total tadd tzero vals)]> (merged d outs).
Proof.
  rewrite calculate_loss_unfold. unfold total. split.
  - intros H.
    destruct (loss_loop _ _ _ _) as [[d2 l2]|] eqn:Hl; simplify_eq/=.
    apply loss_loop_Some in Hl as (outs & vals & Hran & Hsc & -> & ->).
    eauto.
  - intros (outs & vals & Hran & Hsc & ->).
    assert (loss_loop tadd (objectives P ++ constraints P) d tzero
            = Some (merged d outs, foldl tadd tzero vals)) as ->
      by (apply loss_loop_Some; eauto 6).
    done.
Qed.

Lemma calculate_loss_None (P : @Problem T) d :
  calculate_loss tadd tzero P d = None
  ↔ loss_loop tadd (objectives P ++ constraints P) d tzero = None.
Proof.
  rewrite calculate_loss_unfold.
  by destruct (loss_loop _ _ _ _) as [[d2 l2]|].
Qed.

Lemma Objective_call_Some (o : @Objective T) d x :
  Objective_call tmul o d = Some x
  ↔ ∃ args y, Forall2 (λ k a, d !! k = Some a) (variable_names o) args
              ∧ loss o args = Some y
              ∧ x = tmul (weight o) y.
Proof.
  unfold Objective_call. split.
  - intros H. destruct (mapM _ _) as [args|] eqn:Hm; simplify_eq/=.
    destruct (loss o args) as [y|] eqn:Hy; simplify_eq/=.
    exists args, y. split; [by apply mapM_Some_1 | done].
  - intros (args & y & Hall & Hy & ->). apply mapM_Some_2 in Hall.
    rewrite Hall. simpl. by rewrite Hy.
Qed.

(** A value found under the name of an earlier term is in every later
    accumulated dictionary. *)
Lemma ran_earlier_value {X : Type} (nm : X → string)
    (call : X → gmap string (@value T) → option (@output T))
    xs d outs i j o k w :
  ran nm call xs d outs →
  outs !! i = Some o → i < j → o !! k = Some w →
  merged d (take j outs) !! k = Some w.
Proof.
  clear. intros Hran Ho Hij Hk.
  apply (ran_take _ _ _ _ _ j) in Hran.
  apply ran_subseteq in Hran as [_ Hall].
  eapply lookup_weaken; [exact Hk|]. apply Hall.
  eapply list_elem_of_lookup_2. by rewrite lookup_take_lt.
Qed.

(** C1.  [calculate_loss] evaluates the objectives and then the
    constraints in declared order, the term at position [i] against the
    input dictionary with the output dictionaries of all the terms before
    it merged in.  It returns exactly when every term yields an output
    dictionary whose keys are all new and which holds a scalar under the
    term's name, and what it returns is the input dictionary with all these
    outputs merged in and ["loss"] set to the running total
    [0.0 + v1 + ... + vn] of all the terms' scalars, objectives first.
    A term evaluated later finds the scalar of every earlier term under
    that term's name.  It fails (the failure modes of the executor) exactly
    when, after some terms ran in this way, the next one raises, yields a
    key that the dictionary already holds, or yields no scalar under its
    name.  The scalar of a term constructed from variable names, a loss
    callable, a weight and a name is the weight times the callable applied
    to the values found under the variable names. *)
Theorem calculate_loss_correct (P : @Problem T) d :
  (∀ r, calculate_loss tadd tzero P d = Some r
        ↔ ∃ outs vals,
            ran name loss_call (objectives P ++ constraints P) d outs
            ∧ Forall3 named_scalar (objectives P ++ constraints P) outs vals
            ∧ r = <["loss" := VTensor (total tadd tzero vals)]>
                    (merged d outs))
  ∧ (∀ outs vals i j t v,
       ran name loss_call (objectives P ++ constraints P) d outs →
       Forall3 named_scalar (objectives P ++ constraints P) outs vals →
       (objectives P ++ constraints P) !! i = Some t →
       vals !! i = Some v → i < j →
       merged d (take j outs) !! name t = Some (VTensor v))
  ∧ (calculate_loss tadd tzero P d = None
     ↔ ∃ i t outs vals,
         (objectives P ++ constraints P) !! i = Some t
         ∧ ran name loss_call (take i (objectives P ++ constraints P)) d outs
         ∧ Forall3 named_scalar (take i (objectives P ++ constraints P))
             outs vals
         ∧ (loss_call t (merged d outs) = None
            ∨ ∃ o, yields (loss_call t (merged d outs)) (name t) o
                   ∧ ((∃ k, k ∈ dom o ∧ k ∈ dom (merged d outs))
                      ∨ ∀ v, o !! name t ≠ Some (VTensor v))))
  ∧ (∀ variable_names loss weight nm dict,
       name (Loss_init tmul variable_names loss weight nm) = nm
       ∧ ∀ out,
           loss_call (Loss_init tmul variable_names loss weight nm) dict
           = Some out
           ↔ ∃ args x,
               Forall2 (λ k a, dict !! k = Some a) variable_names args
               ∧ loss args = Some x
               ∧ out = OutTensor (tmul weight x)).
Proof.
  split; [intros r; apply calculate_loss_Some|].
  split.
  { intros outs vals i j t v Hran Hsc Hi Hv Hij.
    destruct (Forall3_lookup_l _ _ _ _ _ _ Hsc Hi) as (o & v' & Ho & Hv' & Hns).
    assert (v' = v) as -> by congruence.
    by eapply ran_earlier_value. }
  split.
  { rewrite calculate_loss_None, loss_loop_None. unfold stops, collide.
    split; intros (i & t & outs & vals & Hi & Hran & Hsc & Hstop);
      exists i, t, outs, vals; (split; [done|]); (split; [done|]);
      (split; [done|]).
    - destruct Hstop as [[?|(o & Hy & Hc)]|(o & Hy & Hn)]; [by left|..];
        right; exists o; (split; [done|]); [by left|by right].
    - destruct Hstop as [?|(o & Hy & [Hc|Hn])]; [left; by left|..].
      + left. right. eauto.
      + right. eauto. }
  intros variable_names loss weight nm dict. split; [done|].
  intros out. simpl. split.
  - intros H. destruct (Objective_call _ _ _) as [x|] eqn:Hc; simplify_eq/=.
    apply Objective_call_Some in Hc as (args & y & Hall & Hy & ->). eauto.
  - intros (args & x & Hall & Hx & ->).
    erewrite (proj2 (Objective_call_Some _ _ _)); [done|].
    simpl. eauto.
Qed.

#[local] Instance prefixed_inj (nm : @value T) :
  Inj (=) (=) (prefixed tensor_str nm).
Proof.
  intros k1 k2 H. unfold prefixed in H.
  by do 2 apply String.app_inj in H.
Qed.

Lemma ran_names ts d outs vals :
  ran name loss_call ts d outs →
  Forall3 (named_scalar (T := T)) ts outs vals →
  Forall2 (λ t o, name t ∈ dom o) ts outs.
Proof.
  clear. intros _ Hsc. induction Hsc as [|t o v ts outs vals Hv _ IH].
  - constructor.
  - constructor; [|done]. apply elem_of_dom. unfold named_scalar in Hv. eauto.
Qed.

Lemma forward_Some (P : @Problem T) data out :
  forward tadd tzero tensor_str P data = Some out
  ↔ ∃ nm couts touts vals,
      data !! "name" = Some nm
      ∧ ran comp_name comp_call (components P) data couts
      ∧ ran name loss_call (objectives P ++ constraints P)
          (merged data couts) touts
      ∧ Forall3 named_scalar (objectives P ++ constraints P) touts vals
      ∧ out = kmap (M1 := gmap string) (M2 := gmap string)
                (prefixed tensor_str nm)
                (<["loss" := VTensor (total tadd tzero vals)]>
                   (merged (merged data couts) touts)).
Proof.
  unfold forward. split.
  - intros H. destruct (step P data) as [d1|] eqn:Hstep; simplify_eq/=.
    destruct (calculate_loss tadd tzero P d1) as [d2|] eqn:Hloss;
      simplify_eq/=.
    destruct (data !! "name") as [nm|] eqn:Hnm; simplify_eq/=.
    apply step_loop_Some in Hstep as (couts & Hran & ->).
    apply calculate_loss_Some in Hloss as (touts & vals & Hran' & Hsc & ->).
    eauto 10.
  - intros (nm & couts & touts & vals & Hnm & Hran & Hran' & Hsc & ->).
    unfold step. erewrite (proj2 (step_loop_Some _ _ _)); [|eauto].
    simpl. erewrite (proj2 (calculate_loss_Some _ _ _)); [|eauto].
    simpl. by rewrite Hnm.
Qed.

(** C7 (amended).  When the input dictionary holds [nm] under ["name"] and
    [forward] returns, the keys of the result are exactly the keys
    [str(nm) + "_" + k] for [k] a key of the input dictionary (["name"]
    itself among them), a key of the output dictionary of a component, a
    key of the output dictionary of an objective or constraint (the term's
    name is one of them), or ["loss"]. *)
Theorem forward_keys (P : @Problem T) data nm out :
  data !! "name" = Some nm →
  forward tadd tzero tensor_str P data = Some out →
  ∃ couts touts,
    ran comp_name comp_call (components P) data couts
    ∧ ran name loss_call (objectives P ++ constraints P)
        (merged data couts) touts
    ∧ Forall2 (λ t o, name t ∈ dom o) (objectives P ++ constraints P) touts
    ∧ ∀ key, key ∈ dom out
        ↔ ∃ k, key = match nm with
                     | VStr s => s
                     | VTensor t => tensor_str t
                     end +:+ "_" +:+ k
               ∧ (k ∈ dom data
                  ∨ (∃ o, o ∈ couts ∧ k ∈ dom o)
                  ∨ (∃ o, o ∈ touts ∧ k ∈ dom o)
                  ∨ k = "loss").
Proof.
  clear tmul. intros Hnm Hfwd.
  apply forward_Some
    in Hfwd as (nm' & couts & touts & vals & Hnm' & Hran & Hran' & Hsc & ->).
  assert (nm' = nm) as -> by congruence.
  exists couts, touts. split; [done|]. split; [done|].
  split; [by eapply ran_names|].
  intros key. rewrite dom_kmap_L by apply _. rewrite elem_of_map.
  assert (∀ k, k ∈ dom (<["loss" := VTensor (total tadd tzero vals)]>
                          (merged (merged data couts) touts))
               ↔ k ∈ dom data ∨ (∃ o, o ∈ couts ∧ k ∈ dom o)
                 ∨ (∃ o, o ∈ touts ∧ k ∈ dom o) ∨ k = "loss") as Hdom.
  { intros k. rewrite dom_insert_L, elem_of_union, elem_of_singleton.
    rewrite !dom_merged. tauto. }
  split.
  - intros (k & -> & Hk). exists k. split; [by destruct nm|by apply Hdom].
  - intros (k & -> & Hk). exists k. split; [by destruct nm|by apply Hdom].
Qed.

(** *** Further properties of the executor *)

Lemma size_list_to_set_le (l : list string) :
  size (list_to_set l : gset string) ≤ length l.
Proof.
  clear. induction l as [|x l IH].
  - by rewrite list_to_set_nil, size_empty.
  - rewrite list_to_set_cons, size_union_alt, size_singleton. simpl.
    pose proof (subseteq_size (list_to_set l ∖ {[x]}) (list_to_set l : gset string)
                  ltac:(set_solver)). lia.
Qed.

Lemma size_list_to_set_NoDup (l : list string) :
  size (list_to_set l : gset string) = length l ↔ NoDup l.
Proof.
  clear. split; [|apply size_list_to_set].
  induction l as [|x l IH]; intros Hsize; [constructor|].
  rewrite list_to_set_cons in Hsize. simpl in Hsize.
  destruct (decide (x ∈ l)) as [Hin|Hnin].
  - exfalso.
    assert ({[x]} ∪ list_to_set l = (list_to_set l : gset string)) as Heq
      by set_solver.
    rewrite Heq in Hsize. pose proof (size_list_to_set_le l). lia.
  - apply NoDup_cons. split; [done|]. apply IH.
    rewrite size_union, size_singleton in Hsize by set_solver. lia.
Qed.

(** Building a problem succeeds exactly when the names of the objectives
    followed by those of the constraints are pairwise different, and then
    it holds the three lists as given; with a repeated name it fails. *)
Theorem Problem_init_unique_names (objs cons : list (@Loss T))
    (comps : list (@Component T)) :
  (∀ P, Problem_init objs cons comps = Some P
        ↔ NoDup ((name <$> objs) ++ (name <$> cons))
          ∧ P = {| objectives := objs; constraints := cons;
                   components := comps |})
  ∧ (Problem_init objs cons comps = None
     ↔ ¬ NoDup ((name <$> objs) ++ (name <$> cons))).
Proof.
  clear. unfold Problem_init, _check_unique_names. simpl.
  assert (length objs + length cons
          = length ((name <$> objs) ++ (name <$> cons))) as ->
    by (by rewrite length_app, !length_fmap).
  destruct (bool_decide _) eqn:Hb.
  - apply bool_decide_eq_true, size_list_to_set_NoDup in Hb.
    split; [|split; [done|tauto]].
    intros P. split; [by intros [= <-]|by intros [_ ->]].
  - apply bool_decide_eq_false in Hb. rewrite size_list_to_set_NoDup in Hb.
    split; [|done]. intros P. split; [done|]. by intros [? _].
Qed.

(** [step] never overwrites: when it returns, every entry of the input
    dictionary and every entry that a component put out is in the result
    with its value. *)
Theorem step_keeps_entries (P : @Problem T) d r :
  step P d = Some r →
  (∀ k v, d !! k = Some v → r !! k = Some v)
  ∧ ∃ outs, ran comp_name comp_call (components P) d outs
      ∧ ∀ i o k v, outs !! i = Some o → o !! k = Some v → r !! k = Some v.
Proof.
  clear. intros (outs & Hran & ->)%step_loop_Some.
  destruct (ran_subseteq _ _ _ _ _ Hran) as [Hsub Hall]. split.
  - intros k v Hk. by eapply lookup_weaken.
  - exists outs. split; [done|]. intros i o k v Hi Hk.
    eapply lookup_weaken; [exact Hk|]. apply Hall.
    by eapply list_elem_of_lookup_2.
Qed.

Lemma ran_fresh ts d outs vals :
  ran name loss_call ts d outs →
  Forall3 (named_scalar (T := T)) ts outs vals →
  NoDup (name <$> ts)
  ∧ (∀ t, t ∈ ts → name t ∉ dom d)
  ∧ Forall2 (λ t v, merged d outs !! name t = Some (VTensor v)) ts vals.
Proof.
  clear. intros Hran Hsc. revert d Hran.
  induction Hsc as [|t o v ts outs vals Hv Hsc IH]; intros d Hran.
  - split; [constructor|]. split; [|constructor].
    intros t Ht. by apply elem_of_nil in Ht.
  - apply ran_cons in Hran as (o' & outs' & [= <- <-] & Hy & Hdisj & Hran).
    destruct (IH _ Hran) as (Hnd & Hfresh & Hvals).
    destruct (ran_subseteq _ _ _ _ _ Hran) as [Hsub _].
    unfold named_scalar in Hv.
    assert (name t ∈ dom o) as Hin by (apply elem_of_dom; eauto).
    assert (∀ t', t' ∈ ts → name t' ∉ dom o ∪ dom d) as Hfresh'.
    { intros t' Ht'. specialize (Hfresh t' Ht').
      by rewrite dom_union_L in Hfresh. }
    rewrite merged_cons by done.
    split; [|split].
    + simpl. apply NoDup_cons. split; [|done].
      intros (t' & Heq & Ht')%list_elem_of_fmap.
      apply (Hfresh' t' Ht'). rewrite <- Heq. set_solver.
    + intros t' [->|Ht']%elem_of_cons.
      * intros Hd'. exact (Hdisj _ Hin Hd').
      * specialize (Hfresh' t' Ht'). set_solver.
    + constructor; [|done].
      eapply lookup_weaken; [|exact Hsub].
      by apply lookup_union_Some_l.
Qed.

(** When [calculate_loss] returns, the names of all terms were pairwise
    different and absent from the input dictionary; the result holds every
    term's value under the term's name and every input entry unchanged,
    except under the key ["loss"], which is overwritten with the total
    without any collision check. *)
Theorem calculate_loss_entries (P : @Problem T) d r :
  calculate_loss tadd tzero P d = Some r →
  NoDup (name <$> (objectives P ++ constraints P))
  ∧ (∀ t, t ∈ objectives P ++ constraints P → name t ∉ dom d)
  ∧ (∃ vs, r !! "loss" = Some (VTensor (total tadd tzero vs))
           ∧ Forall2 (λ t v, name t ≠ "loss" →
                             r !! name t = Some (VTensor v))
                     (objectives P ++ constraints P) vs)
  ∧ (∀ k v, k ≠ "loss" → d !! k = Some v → r !! k = Some v).
Proof.
  intros (outs & vs & Hran & Hsc & ->)%calculate_loss_Some.
  destruct (ran_fresh _ _ _ _ Hran Hsc) as (Hnd & Hfresh & Hvals).
  destruct (ran_subseteq _ _ _ _ _ Hran) as [Hsub _].
  split; [done|]. split; [done|]. split.
  - exists vs. split; [apply lookup_insert_eq|].
    eapply Forall2_impl; [exact Hvals|]. simpl. intros t v Hv Hne.
    by rewrite lookup_insert_ne.
  - intros k v Hne Hk. rewrite lookup_insert_ne by done.
    by eapply lookup_weaken.
Qed.

(** [forward] only renames: when it returns, every entry of the input
    dictionary other than ["loss"] is in the result, unchanged, under its
    prefixed key, and the prefixed ["loss"] key holds a tensor. *)
Theorem forward_keeps_inputs (P : @Problem T) data nm out :
  data !! "name" = Some nm →
  forward tadd tzero tensor_str P data = Some out →
  (∀ k v, k ≠ "loss" → data !! k = Some v →
          out !! prefixed tensor_str nm k = Some v)
  ∧ (∃ l, out !! prefixed tensor_str nm "loss" = Some (VTensor l)).
Proof.
  intros Hnm Hfwd.
  apply forward_Some
    in Hfwd as (nm' & couts & touts & vals & Hnm' & Hran & Hran' & Hsc & ->).
  assert (nm' = nm) as -> by congruence.
  destruct (ran_subseteq _ _ _ _ _ Hran) as [Hsub _].
  destruct (ran_subseteq _ _ _ _ _ Hran') as [Hsub' _].
  split.
  - intros k v Hne Hk. rewrite lookup_kmap by apply _.
    rewrite lookup_insert_ne by done.
    eapply lookup_weaken; [|exact Hsub'].
    by eapply lookup_weaken.
  - eexists. rewrite lookup_kmap by apply _. apply lookup_insert_eq.
Qed.

End problem_spec.
End ProblemSpec.

Module ProblemExamples.

Import Problem Examples.

(** The three stages on the training batch. *)
Example step_chain : step pb_chain data_train = Some step_train.
Proof. vm_compute. reflexivity. Qed.

Example calculate_loss_chain :
  calculate_loss Z.add 0%Z pb_chain step_train = Some loss_train.
Proof. vm_compute. reflexivity. Qed.

Example forward_chain :
  forward Z.add 0%Z zstr pb_chain data_train = Some out_train.
Proof. vm_compute. reflexivity. Qed.

(** A later term reads the weighted value of an earlier one: ["a"] is
    [2 * 3], ["c"] is [1 * (3 * 6)], the total is [24]. *)
Example calculate_loss_order :
  calculate_loss Z.add 0%Z pb_order ∅
  = Some (list_to_map [("a", VTensor 6%Z); ("c", VTensor 18%Z);
                       ("loss", VTensor 24%Z)]).
Proof. vm_compute. reflexivity. Qed.

(** In the other order the term ["c"] misses its key. *)
Example calculate_loss_reversed :
  calculate_loss Z.add 0%Z pb_reversed ∅ = None.
Proof. vm_compute. reflexivity. Qed.

(** A term whose name is in the dictionary already trips the collision
    assertion. *)
Example calculate_loss_collision :
  calculate_loss Z.add 0%Z pb_order {[ "a" := VTensor 5%Z ]} = None.
Proof. vm_compute. reflexivity. Qed.

(** A colliding component and a raising component both stop [step]. *)
Example step_collision : step pb_twice data_train = None.
Proof. vm_compute. reflexivity. Qed.

Example step_component_raises :
  step {| objectives := []; constraints := []; components := [comp_u] |}
       data_train = None.
Proof. vm_compute. reflexivity. Qed.

Lemma step_correct_witness :
  ∃ outs, ran comp_name comp_call (components pb_chain) data_train outs
          ∧ step_train = merged data_train outs.
Proof.
  apply (proj1 (proj1 (ProblemSpec.step_correct pb_chain data_train)
                  step_train)).
  vm_compute. reflexivity.
Defined.

Lemma calculate_loss_correct_witness :
  ∃ outs vals,
    ran name loss_call (objectives pb_chain ++ constraints pb_chain)
      step_train outs
    ∧ Forall3 named_scalar (objectives pb_chain ++ constraints pb_chain)
        outs vals
    ∧ loss_train
      = <["loss" := VTensor (total Z.add 0%Z vals)]> (merged step_train outs).
Proof.
  apply (proj1 (proj1 (ProblemSpec.calculate_loss_correct Z.add Z.mul 0%Z
                         pb_chain step_train) loss_train)).
  vm_compute. reflexivity.
Defined.

(** C7, counterexample: on the training batch [forward] returns the key
    ["train_Yp"], the prefixed key of an input entry; it is the prefixed
    form of no output key of a component, of no name of an objective or
    constraint, and not of ["loss"]. *)
Lemma forward_returns_input_keys :
  ∃ out couts,
    forward Z.add 0%Z zstr pb_chain data_train = Some out
    ∧ ran comp_name comp_call (components pb_chain) data_train couts
    ∧ "train_Yp" ∈ dom out
    ∧ ¬ ∃ k, "train_Yp" = "train" +:+ "_" +:+ k
             ∧ ((∃ o, o ∈ couts ∧ k ∈ dom o)
                ∨ (∃ t, t ∈ objectives pb_chain ++ constraints pb_chain
                        ∧ k = name t)
                ∨ k = "loss").
Proof.
  exists out_train, [{[ "x" := VTensor 7%Z ]}].
  split; [vm_compute; reflexivity|]. split.
  { split; [done|]. intros [|i] c Hi; [|done]. injection Hi as <-.
    eexists. split; [done|]. split; [by left|].
    apply ProblemSpec.not_collide.
    apply (ProblemSpec.check_name_collision_disjoint data_train).
    vm_compute. reflexivity. }
  split.
  { apply elem_of_dom. vm_compute. eauto. }
  intros (k & Heq & Hk). vm_compute in Heq. simplify_eq.
  destruct Hk as [(o & ->%list_elem_of_singleton & Hk)
                 |[(t & Ht & Hk)|Hk]]; [| |done].
  - rewrite dom_singleton_L in Hk. by apply elem_of_singleton in Hk.
  - simpl in Ht.
    apply elem_of_cons in Ht as [->|Ht]; [done|].
    apply list_elem_of_singleton in Ht as ->. done.
Qed.

Lemma forward_keys_witness :
  ∃ couts touts,
    ran comp_name comp_call (components pb_chain) data_train couts
    ∧ ran name loss_call (objectives pb_chain ++ constraints pb_chain)
        (merged data_train couts) touts
    ∧ Forall2 (λ t o, name t ∈ dom o)
        (objectives pb_chain ++ constraints pb_chain) touts
    ∧ ∀ key, key ∈ dom out_train
        ↔ ∃ k, key = "train" +:+ "_" +:+ k
               ∧ (k ∈ dom data_train
                  ∨ (∃ o, o ∈ couts ∧ k ∈ dom o)
                  ∨ (∃ o, o ∈ touts ∧ k ∈ dom o)
                  ∨ k = "loss").
Proof.
  apply (ProblemSpec.forward_keys Z.add 0%Z zstr pb_chain data_train
           (VStr "train") out_train).
  - reflexivity.
  - vm_compute. reflexivity.
Defined.

Lemma step_keeps_entries_witness :
  step_train !! "Yp" = Some (VTensor 1%Z).
Proof.
  refine (proj1 (ProblemSpec.step_keeps_entries pb_chain data_train
                   step_train _)
                "Yp" (VTensor 1%Z) _).
  - vm_compute. reflexivity.
  - vm_compute. reflexivity.
Defined.

Lemma calculate_loss_entries_witness :
  NoDup (name <$> (objectives pb_chain ++ constraints pb_chain)).
Proof.
  refine (proj1 (ProblemSpec.calculate_loss_entries Z.add 0%Z pb_chain
                   step_train loss_train _)).
  vm_compute. reflexivity.
Defined.

Lemma forward_keeps_inputs_witness :
  out_train !! prefixed zstr (VStr "train") "Yp" = Some (VTensor 1%Z).
Proof.
  refine (proj1 (ProblemSpec.forward_keeps_inputs Z.add 0%Z zstr pb_chain
                   data_train (VStr "train") out_train _ _)
                "Yp" (VTensor 1%Z) _ _).
  - reflexivity.
  - vm_compute. reflexivity.
  - discriminate.
  - reflexivity.
Defined.

End ProblemExamples.

(** * Facts about the Python and array helpers *)

Module PyFacts.

Import Py.

Section py_facts.
Context {X : Type}.
Implicit Types l : list X.
Implicit Types m : list (list X).

(** [l[:-n]]: empty for [n = 0] (the stop bound is then [0]), otherwise [l]
    without its last [n] elements. *)
Lemma slice_neg_stop l (n : nat) :
  slice None (Some (- Z.of_nat n)%Z) l
  = if decide (n = 0) then [] else take (length l - n) l.
Proof.
  unfold slice, bound. simpl. rewrite drop_0, Nat.sub_0_r.
  destruct (decide (n = 0)) as [->|Hn].
  - reflexivity.
  - destruct (Z.ltb_spec (- Z.of_nat n) 0); [|lia].
    f_equal. lia.
Qed.

(** [l[n:]]. *)
Lemma slice_from l (n : nat) : slice (Some (Z.of_nat n)) None l = drop n l.
Proof.
  unfold slice, bound. simpl.
  destruct (Z.ltb_spec (Z.of_nat n) 0); [lia|].
  rewrite Nat2Z.id.
  destruct (decide (n ≤ length l)).
  - rewrite Nat.min_l by done. apply take_ge. rewrite length_drop. lia.
  - rewrite Nat.min_r by lia. rewrite !drop_ge by lia. by rewrite take_nil.
Qed.

(** [l[a:b]] for non-negative bounds. *)
Lemma slice_range l (a b : nat) :
  slice (Some (Z.of_nat a)) (Some (Z.of_nat b)) l = take (b - a) (drop a l).
Proof.
  unfold slice, bound. simpl.
  destruct (Z.ltb_spec (Z.of_nat a) 0); [lia|].
  destruct (Z.ltb_spec (Z.of_nat b) 0); [lia|].
  rewrite !Nat2Z.id.
  destruct (decide (a ≤ length l)).
  - rewrite (Nat.min_l a) by done.
    destruct (decide (b ≤ length l)).
    + by rewrite Nat.min_l.
    + rewrite Nat.min_r by lia.
      rewrite !take_ge; [done|rewrite length_drop; lia..].
  - rewrite (Nat.min_r a) by lia. rewrite !drop_ge by lia.
    by rewrite !take_nil.
Qed.

(** [l[:b]] for a non-negative bound. *)
Lemma slice_to l (b : nat) : slice None (Some (Z.of_nat b)) l = take b l.
Proof.
  unfold slice, bound. simpl.
  destruct (Z.ltb_spec (Z.of_nat b) 0); [lia|].
  rewrite Nat2Z.id, drop_0, Nat.sub_0_r.
  destruct (decide (b ≤ length l)).
  - by rewrite Nat.min_l.
  - rewrite Nat.min_r by lia. by rewrite !take_ge by lia.
Qed.

(** Slicing commutes with mapping over the elements. *)
Lemma slice_fmap {Y : Type} (f : X → Y) (start stop : option Z) l :
  slice start stop (f <$> l) = f <$> slice start stop l.
Proof.
  unfold slice. by rewrite length_fmap, fmap_take, fmap_drop.
Qed.

Lemma omap_fmap {W Y Z : Type} (f : Y → option Z) (g : W → Y) (ws : list W) :
  omap f (g <$> ws) = omap (λ x, f (g x)) ws.
Proof.
  induction ws as [|x ws IH]; [done|]. csimpl. by rewrite IH.
Qed.

Lemma omap_lookup_seq l :
  omap (λ j, l !! j) (seq 0 (length l)) = l.
Proof.
  induction l as [|x l IH]; [done|].
  change (x :: omap (λ j, (x :: l) !! j) (seq 1 (length l)) = x :: l).
  f_equal. rewrite <- fmap_S_seq.
  rewrite <- IH at 2. clear IH.
  generalize (seq 0 (length l)). intros js.
  induction js as [|j js IH]; [done|]. csimpl.
  destruct (l !! j); csimpl; by rewrite IH.
Qed.

Lemma column_lookup m (j i : nat) :
  Forall (λ row, j < length row) m →
  column j m !! i = m !! i ≫= (.!! j).
Proof.
  revert i. induction m as [|row m IH]; intros i Hall; [done|].
  apply Forall_cons in Hall as [Hrow Hall].
  unfold column in *. csimpl.
  destruct (lookup_lt_is_Some_2 row j Hrow) as [x Hx]. rewrite Hx. csimpl.
  destruct i as [|i]; csimpl; [done|]. by apply IH.
Qed.

Lemma length_column m (j : nat) :
  Forall (λ row, j < length row) m → length (column j m) = length m.
Proof.
  induction 1 as [|row m Hrow _ IH]; [done|].
  unfold column in *. csimpl.
  destruct (lookup_lt_is_Some_2 row j Hrow) as [x Hx]. rewrite Hx. csimpl.
  by rewrite IH.
Qed.

Lemma length_transpose (c : nat) m : length (transpose c m) = c.
Proof. unfold transpose. by rewrite length_fmap, length_seq. Qed.

Lemma transpose_lookup (c : nat) m (j : nat) :
  j < c → transpose c m !! j = Some (column j m).
Proof.
  intros Hj. unfold transpose.
  by rewrite list_lookup_fmap, lookup_seq_lt.
Qed.

(** Entry [j][i] of the transpose is entry [i][j] of the array. *)
Lemma transpose_entry (c : nat) m (i j : nat) :
  Forall (λ row, length row = c) m → j < c →
  transpose c m !! j ≫= (.!! i) = m !! i ≫= (.!! j).
Proof.
  intros Hall Hj. rewrite transpose_lookup by done. simpl.
  apply column_lookup. eapply Forall_impl; [exact Hall|].
  simpl. intros row ->. done.
Qed.

(** Swapping the axes twice gives the array back. *)
Lemma transpose_transpose (r c : nat) m :
  length m = r → Forall (λ row, length row = c) m →
  transpose r (transpose c m) = m.
Proof.
  intros Hr Hall. apply list_eq. intros i.
  destruct (decide (i < r)) as [Hi|Hi].
  2:{ rewrite !lookup_ge_None_2; [done|lia|rewrite length_transpose; lia]. }
  rewrite transpose_lookup by done.
  destruct (lookup_lt_is_Some_2 m i ltac:(lia)) as [row Hrow].
  rewrite Hrow. f_equal.
  assert (length row = c) as Hlen.
  { rewrite Forall_lookup in Hall. eauto. }
  unfold column at 1. unfold transpose.
  rewrite omap_fmap.
  transitivity (omap (λ j, row !! j) (seq 0 (length row)));
    [|apply omap_lookup_seq].
  rewrite Hlen. apply list_omap_ext. apply Forall2_same_length_lookup_2; [done|].
  intros p j j' Hj Hj'. assert (j' = j) as -> by congruence.
  apply lookup_seq in Hj as [-> Hp]. simpl.
  rewrite column_lookup.
  - by rewrite Hrow.
  - eapply Forall_impl; [exact Hall|]. simpl. intros ? ->. done.
Qed.

(** Three slices cut at [a <= b] put end to end give the list back. *)
Lemma slice_partition l (a b : nat) :
  a ≤ b →
  slice None (Some (Z.of_nat a)) l
  ++ slice (Some (Z.of_nat a)) (Some (Z.of_nat b)) l
  ++ slice (Some (Z.of_nat b)) None l = l.
Proof.
  intros Hab. rewrite slice_to, slice_range, slice_from.
  rewrite app_assoc, take_take_drop.
  replace (a + (b - a)) with b by lia. apply take_drop.
Qed.

Lemma length_slice l (start stop : option Z) :
  length (slice start stop l)
  = (slice_bounds (length l) start stop).2
    - (slice_bounds (length l) start stop).1.
Proof.
  unfold slice, slice_bounds. cbn [fst snd].
  set (a := from_option (bound (length l)) 0 start).
  set (b := from_option (bound (length l)) (length l) stop).
  assert (b ≤ length l) as Hb.
  { unfold b. destruct stop as [z|]; simpl; [|done]. unfold bound.
    destruct (Z.ltb_spec z 0); lia. }
  rewrite length_take, length_drop. lia.
Qed.

(** Slicing every column of a stack slices the stack. *)
Lemma slice_column m (j : nat) (start stop : option Z) :
  Forall (λ row, j < length row) m →
  slice start stop (column j m) = column j (slice start stop m).
Proof.
  intros Hall. unfold slice. rewrite length_column by done.
  generalize (from_option (bound (length m)) 0 start).
  generalize (from_option (bound (length m)) (length m) stop).
  intros b a. clear start stop.
  assert (∀ (k : nat) m', Forall (λ row, j < length row) m' →
            drop k (column j m') = column j (drop k m')) as Hdrop.
  { intros k. induction k as [|k IH]; intros m' Hm'; [by rewrite !drop_0|].
    destruct Hm' as [|row m' Hrow Hm']; [done|].
    unfold column in *. csimpl.
    destruct (lookup_lt_is_Some_2 row j Hrow) as [x Hx]. rewrite Hx. csimpl.
    by apply IH. }
  assert (∀ (k : nat) m', Forall (λ row, j < length row) m' →
            take k (column j m') = column j (take k m')) as Htake.
  { intros k. induction k as [|k IH]; intros m' Hm'; [done|].
    destruct Hm' as [|row m' Hrow Hm']; [done|].
    unfold column in *. csimpl.
    destruct (lookup_lt_is_Some_2 row j Hrow) as [x Hx]. rewrite Hx. csimpl.
    f_equal. by apply IH. }
  rewrite Hdrop by done. apply Htake. by apply Forall_drop.
Qed.

Lemma slice_transpose (c : nat) m (start stop : option Z) :
  Forall (λ row, length row = c) m →
  slice start stop <$> transpose c m = transpose c (slice start stop m).
Proof.
  intros Hall. unfold transpose. rewrite <- list_fmap_compose.
  apply list_fmap_ext. intros i j Hj. apply lookup_seq in Hj as [-> Hi].
  simpl. apply slice_column.
  eapply Forall_impl; [exact Hall|]. simpl. intros row ->. done.
Qed.

Lemma Forall_slice (P : X → Prop) l (start stop : option Z) :
  Forall P l → Forall P (slice start stop l).
Proof. intros H. unfold slice. by apply Forall_take, Forall_drop. Qed.

(** Flattening rows that were each given an axis of length one. *)
Lemma concat_singletons l : concat ((λ r, [r]) <$> l) = l.
Proof. induction l as [|x l IH]; [done|]. csimpl. by rewrite IH. Qed.

(** Consecutive chunks of length [n] put end to end. *)
Lemma concat_chunks l (n q : nat) :
  concat ((λ j, take n (drop (j * n) l)) <$> seq 0 q) = take (q * n) l.
Proof.
  induction q as [|q IH]; [done|].
  rewrite seq_S, fmap_app, concat_app, IH. simpl.
  rewrite app_nil_r, take_take_drop. f_equal. lia.
Qed.

(** The first rows of the sliding windows are the leading rows of the
    list. *)
Lemma column_0_windows l (n w : nat) :
  1 ≤ n → w + n ≤ length l + 1 → w ≤ length l →
  column 0 ((λ k, take n (drop k l)) <$> seq 0 w) = take w l.
Proof.
  intros Hn Hw Hwl. apply list_eq. intros i.
  rewrite column_lookup.
  2:{ apply Forall_fmap, Forall_forall. intros k Hk.
      apply elem_of_seq in Hk as [_ Hk]. simpl.
      rewrite length_take, length_drop. lia. }
  rewrite list_lookup_fmap.
  destruct (decide (i < w)) as [Hi|Hi].
  - rewrite lookup_seq_lt by done. simpl.
    rewrite lookup_take_lt by lia. rewrite lookup_drop.
    rewrite lookup_take_lt by done. f_equal. lia.
  - rewrite lookup_seq_ge by lia. simpl.
    symmetry. apply lookup_ge_None_2. rewrite length_take. lia.
Qed.

(** A dictionary read off its items holds, for every key, the value of the
    last item that has this key. *)
Lemma dict_of_reverse (its : list (string * X)) :
  dict_of its = list_to_map (reverse its).
Proof.
  unfold dict_of.
  enough (∀ d0 : gmap string X,
            foldl (λ d kv, <[kv.1 := kv.2]> d) d0 its
            = list_to_map (reverse its) ∪ d0) as H.
  { rewrite H. apply (right_id_L ∅ (∪)). }
  induction its as [|[k v] its IH]; intros d0; simpl.
  - by rewrite (left_id_L ∅ (∪)).
  - rewrite IH, reverse_cons, list_to_map_app. simpl.
    rewrite <- (assoc_L (∪)). f_equal.
    rewrite insert_empty. by rewrite <- insert_union_singleton_l.
Qed.

Lemma dict_of_lookup (its : list (string * X)) k v :
  NoDup its.*1 → (k, v) ∈ its → dict_of its !! k = Some v.
Proof.
  intros Hnd Hin. rewrite dict_of_reverse.
  apply elem_of_list_to_map.
  - by rewrite fmap_reverse, reverse_Permutation.
  - by apply elem_of_reverse.
Qed.

Lemma dict_of_lookup_None (its : list (string * X)) k :
  k ∉ its.*1 → dict_of its !! k = None.
Proof.
  intros Hk. rewrite dict_of_reverse. apply not_elem_of_list_to_map_1.
  by rewrite fmap_reverse, elem_of_reverse.
Qed.

Lemma dict_of_dom (its : list (string * X)) :
  dom (dict_of its) = list_to_set its.*1.
Proof.
  rewrite dict_of_reverse, dom_list_to_map_L, fmap_reverse.
  apply set_eq. intros k. by rewrite !elem_of_list_to_set, elem_of_reverse.
Qed.

End py_facts.

Lemma sum_list_app (l k : list nat) :
  sum_list (l ++ k) = sum_list l + sum_list k.
Proof.
  induction l as [|x l IH]; simpl; [done|]. rewrite IH. lia.
Qed.

(** Appending a one-character suffix is injective in both parts. *)
Lemma suffix_inj (k1 k2 : string) (c1 c2 : Ascii.ascii) :
  k1 +:+ String c1 "" = k2 +:+ String c2 "" → k1 = k2 ∧ c1 = c2.
Proof.
  revert k2. induction k1 as [|a k1 IH]; intros [|b k2]; simpl; intros H.
  - by injection H as ->.
  - injection H as -> H. by destruct k2.
  - injection H as -> H. by destruct k1.
  - injection H as -> H. apply IH in H as [-> ->]. done.
Qed.

End PyFacts.

(** * Properties of the windowed sequence dataset *)

Module NmDatasetSpec.

Import Py PyFacts NmDataset.

Section dataset_spec.
Context {A F : Type}.
Variable to_float : A → F.

Implicit Types data : list (string * array A).
Implicit Types x : array F.
Implicit Types ds : @SequenceDataset F.

Lemma join_rows_length (n : nat) (ts : list (array F)) :
  Forall (λ t, nrows t = n) ts → length (join_rows n ts) = n.
Proof.
  induction 1 as [|t ts Ht _ IH]; simpl.
  - by rewrite length_replicate.
  - rewrite length_zip_with, IH. unfold nrows in Ht. lia.
Qed.

Lemma join_rows_row_length (n : nat) (ts : list (array F)) :
  Forall (λ t, nrows t = n ∧ well_shaped t) ts →
  Forall (λ r, length r = sum_list (ncols <$> ts)) (join_rows n ts).
Proof.
  induction 1 as [|t ts [Ht Hw] _ IH]; simpl.
  - apply Forall_replicate. done.
  - apply Forall_lookup. intros i r Hi.
    apply lookup_zip_with_Some in Hi as (r1 & r2 & -> & H1 & H2).
    rewrite length_app. f_equal.
    + unfold well_shaped in Hw. rewrite Forall_lookup in Hw. eauto.
    + rewrite Forall_lookup in IH. eauto.
Qed.

Lemma cols_zip_with_app_l (w : nat) (m1 m2 : list (list F)) :
  length m1 = length m2 → Forall (λ r, length r = w) m1 →
  cols (0, w) (zip_with app m1 m2) = m1.
Proof.
  intros Hlen Hw. apply list_eq. intros i. unfold cols.
  rewrite list_lookup_fmap, lookup_zip_with. simpl.
  destruct (m1 !! i) as [r1|] eqn:H1; simpl; [|done].
  destruct (lookup_lt_is_Some_2 m2 i) as [r2 H2].
  { rewrite <- Hlen. by eapply lookup_lt_Some. }
  rewrite H2. simpl. f_equal.
  rewrite Forall_lookup in Hw. specialize (Hw _ _ H1).
  rewrite Nat.sub_0_r, <- Hw. apply take_app_length.
Qed.

Lemma cols_zip_with_app_r (w a b : nat) (m1 m2 : list (list F)) :
  length m1 = length m2 → Forall (λ r, length r = w) m1 →
  cols (w + a, w + b) (zip_with app m1 m2) = cols (a, b) m2.
Proof.
  intros Hlen Hw. apply list_eq. intros i. unfold cols.
  rewrite !list_lookup_fmap, lookup_zip_with. simpl.
  destruct (m2 !! i) as [r2|] eqn:H2; simpl.
  2:{ by destruct (m1 !! i). }
  destruct (lookup_lt_is_Some_2 m1 i) as [r1 H1].
  { rewrite Hlen. by eapply lookup_lt_Some. }
  rewrite H1. simpl. f_equal.
  rewrite Forall_lookup in Hw. specialize (Hw _ _ H1).
  rewrite drop_app_add' by done.
  f_equal. lia.
Qed.

Lemma offset_0 data : offset 0 data = 0.
Proof. unfold offset. by rewrite take_0. Qed.

Lemma offset_S (kv : string * array A) data (p : nat) :
  offset (S p) (kv :: data) = ncols kv.2 + offset p data.
Proof. reflexivity. Qed.

Lemma join_rows_cols (n : nat) data (p : nat) k v :
  Forall (λ kv, nrows kv.2 = n ∧ well_shaped kv.2) data →
  data !! p = Some (k, v) →
  cols (offset p data, offset p data + ncols v)
       (join_rows n ((tensor_of to_float ∘ snd) <$> data))
  = rows (tensor_of to_float v).
Proof.
  intros Hall. revert p. induction Hall as [|[k0 v0] data [Hn Hw] Hall IH];
    intros p Hp; [done|].
  assert (length (rows (tensor_of to_float v0))
          = length (join_rows n ((tensor_of to_float ∘ snd) <$> data))) as Hlen.
  { rewrite join_rows_length.
    - simpl. by rewrite length_fmap.
    - apply Forall_fmap. eapply Forall_impl; [exact Hall|].
      intros [k' v'] [Hn' _]. unfold nrows in *. simpl in *.
      by rewrite length_fmap. }
  assert (Forall (λ r, length r = ncols v0) (rows (tensor_of to_float v0)))
    as Hw0.
  { simpl. apply Forall_fmap. unfold well_shaped in Hw.
    eapply Forall_impl; [exact Hw|]. simpl. intros r Hr.
    by rewrite length_fmap. }
  destruct p as [|p]; simpl in Hp.
  - injection Hp as -> ->. rewrite offset_0.
    by apply (cols_zip_with_app_l (ncols v)).
  - rewrite offset_S.
    change (cols (ncols v0 + offset p data,
                  ncols v0 + offset p data + ncols v)
                 (zip_with app (rows (tensor_of to_float v0))
                    (join_rows n ((tensor_of to_float ∘ snd) <$> data)))
            = rows (tensor_of to_float v)).
    rewrite <- Nat.add_assoc.
    rewrite (cols_zip_with_app_r (ncols v0)) by done.
    by apply IH.
Qed.

Lemma vslices_loop_other data (i : nat) acc k :
  k ∉ data.*1 →
  vslices_loop (shape_of <$> data) i acc !! k = acc !! k.
Proof.
  revert i acc. induction data as [|[k0 v0] data IH]; intros i acc Hk; [done|].
  simpl. rewrite IH.
  - apply lookup_insert_ne. intros ->. apply Hk. simpl. left.
  - intros Hin. apply Hk. simpl. by right.
Qed.

Lemma vslices_loop_lookup data (i : nat) acc (p : nat) k v :
  NoDup data.*1 → data !! p = Some (k, v) →
  vslices_loop (shape_of <$> data) i acc !! k
  = Some (i + offset p data, i + offset p data + ncols v).
Proof.
  revert i acc p. induction data as [|[k0 v0] data IH]; intros i acc p Hnd Hp;
    [done|].
  simpl in Hnd. apply NoDup_cons in Hnd as [Hk0 Hnd].
  destruct p as [|p]; simpl in Hp.
  - injection Hp as -> ->. simpl.
    rewrite vslices_loop_other by done.
    rewrite lookup_insert_eq, offset_0. f_equal. f_equal; lia.
  - simpl. rewrite (IH _ _ p) by done. rewrite offset_S. simpl.
    f_equal. f_equal; lia.
Qed.

Lemma cat1_Some (ts : list (array F)) full :
  cat1 ts = Some full →
  ts ≠ [] ∧ Forall (λ t, nrows t = nrows full) ts
  ∧ ncols full = sum_list (ncols <$> ts)
  ∧ rows full = join_rows (nrows full) ts.
Proof.
  unfold cat1. destruct ts as [|t0 ts]; [done|].
  destruct (forallb _ _) eqn:Hall; [|done]. intros [= <-].
  assert (Forall (λ t, nrows t = nrows t0) (t0 :: ts)) as Hrows.
  { apply Forall_forall. intros t Ht.
    rewrite forallb_forall in Hall. apply Nat.eqb_eq, Hall.
    by apply list_elem_of_In. }
  pose proof (join_rows_length (nrows t0) (t0 :: ts) Hrows) as Hn.
  split; [done|].
  match goal with |- context [nrows ?r] =>
    match r with Array _ _ => set (full := r) end end.
  assert (nrows full = nrows t0) as -> by exact Hn.
  done.
Qed.

Lemma forallb_false {E : Type} (f : E → bool) (xs : list E) :
  forallb f xs = false → ∃ e, e ∈ xs ∧ f e = false.
Proof.
  induction xs as [|e xs IH]; simpl; [done|].
  destruct (f e) eqn:He; simpl.
  - intros (e' & He' & Hf)%IH. exists e'. split; [by right | done].
  - intros _. exists e. split; [left | done].
Qed.

Lemma cat1_None (ts : list (array F)) :
  cat1 ts = None ↔ ts = [] ∨ ∃ t t', t ∈ ts ∧ t' ∈ ts ∧ nrows t ≠ nrows t'.
Proof.
  unfold cat1. destruct ts as [|t0 ts].
  { split; [by left | done]. }
  destruct (forallb _ _) eqn:Hall.
  - split; [done|]. intros [|(t & t' & Ht & Ht' & Hne)]; [done|].
    rewrite forallb_forall in Hall. exfalso. apply Hne.
    transitivity (nrows t0).
    + apply Nat.eqb_eq, Hall. by apply list_elem_of_In.
    + symmetry. apply Nat.eqb_eq, Hall. by apply list_elem_of_In.
  - split; [|done]. intros _. right.
    apply forallb_false in Hall as (t & Ht & Hne).
    exists t, t0. split; [done|]. split; [left|].
    by apply Nat.eqb_neq.
Qed.

(** [batch_tensor] followed by [permute(0, 2, 1)]: window [j] is made of the
    rows [j*stride .. j*stride + steps - 1] of the tensor. *)
Lemma batch_tensor_windows x (steps : nat) (mh : bool) ws :
  well_shaped x →
  batch_tensor x steps mh = Some ws →
  steps ≤ nrows x ∧ 0 < stride steps mh
  ∧ length ws = (nrows x - steps) / stride steps mh + 1
  ∧ ∀ j, j < (nrows x - steps) / stride steps mh + 1 →
         permute021 steps ws !! j
         = Some (take steps (drop (j * stride steps mh) (rows x))).
Proof.
  intros Hw. unfold batch_tensor, unfold0.
  change (if mh then 1 else steps) with (stride steps mh).
  set (s := stride steps mh).
  destruct (decide _) as [[Hle Hs]|]; [|done]. intros [= <-].
  split; [done|]. split; [done|].
  split; [by rewrite length_fmap, length_seq|].
  intros j Hj. unfold permute021.
  rewrite !list_lookup_fmap, lookup_seq_lt by done. simpl. f_equal.
  assert (j * s + steps ≤ nrows x) as Hbound.
  { pose proof (Nat.Div0.mul_div_le (nrows x - steps) s). nia. }
  apply transpose_transpose.
  - rewrite length_take, length_drop. unfold nrows in Hbound. lia.
  - apply Forall_take, Forall_drop. exact Hw.
Qed.

Lemma batch_tensor_None x (steps : nat) (mh : bool) :
  batch_tensor x steps mh = None ↔ nrows x < steps ∨ stride steps mh = 0.
Proof.
  unfold batch_tensor, unfold0.
  change (if mh then 1 else steps) with (stride steps mh).
  destruct (decide _) as [[Hle Hs]|Hn]; split; try done; try lia.
Qed.

Lemma tensors_well_shaped data (n : nat) :
  Forall (λ kv, well_shaped kv.2) data →
  Forall (λ t : array F, nrows t = n) ((tensor_of to_float ∘ snd) <$> data) →
  Forall (λ kv, nrows kv.2 = n ∧ well_shaped kv.2) data
  ∧ Forall (λ t : array F, nrows t = n ∧ well_shaped t)
           ((tensor_of to_float ∘ snd) <$> data).
Proof.
  intros Hw Hn. rewrite Forall_fmap in Hn.
  split.
  - apply Forall_forall. intros kv Hkv.
    rewrite Forall_forall in Hw, Hn. split; [|by apply Hw].
    specialize (Hn kv Hkv). simpl in Hn. unfold nrows in *. simpl in Hn.
    by rewrite length_fmap in Hn.
  - apply Forall_fmap, Forall_forall. intros kv Hkv.
    rewrite Forall_forall in Hw, Hn. split; [by apply Hn|].
    specialize (Hw kv Hkv). unfold well_shaped in *. simpl.
    apply Forall_fmap. eapply Forall_impl; [exact Hw|]. simpl. intros r Hr.
    by rewrite length_fmap.
Qed.

(** What a successfully constructed dataset holds. *)
Lemma init_Some data (n : nat) (mh : bool) nm ds :
  Forall (λ kv, well_shaped kv.2) data →
  SequenceDataset_init to_float data n mh nm = Some ds →
  data ≠ []
  ∧ Forall (λ kv, nrows kv.2 = nsim ds ∧ well_shaped kv.2) data
  ∧ n ≤ nsim ds ∧ 0 < stride n mh
  ∧ nsteps ds = n ∧ name ds = nm ∧ variables ds = data.*1
  ∧ nsim ds = nrows (full_data ds)
  ∧ rows (full_data ds)
    = join_rows (nsim ds) ((tensor_of to_float ∘ snd) <$> data)
  ∧ _vslices ds = vslices_loop (shape_of <$> data) 0 ∅
  ∧ length (batched_data ds) = (nsim ds - n) / stride n mh + 1
  ∧ ∀ j, j < (nsim ds - n) / stride n mh + 1 →
         batched_data ds !! j
         = Some (take n (drop (j * stride n mh) (rows (full_data ds)))).
Proof.
  intros Hw. unfold SequenceDataset_init.
  destruct (cat1 _) as [full|] eqn:Hcat; [|done]. simpl.
  destruct (batch_tensor full n mh) as [ws|] eqn:Hb; [|done]. simpl.
  intros [= <-]. simpl.
  apply cat1_Some in Hcat as (Hne & Hrows & Hcols & Hfull).
  destruct (tensors_well_shaped data (nrows full) Hw Hrows) as [Hd Ht].
  assert (well_shaped full) as Hwf.
  { unfold well_shaped. rewrite Hfull, Hcols. by apply join_rows_row_length. }
  apply batch_tensor_windows in Hb as (Hle & Hs & Hlen & Hwin); [|done].
  split. { intros ->. done. }
  split; [done|]. split; [done|]. split; [done|].
  do 4 (split; [done|]). split; [done|]. split; [done|].
  split.
  - unfold permute021. by rewrite length_fmap.
  - done.
Qed.

Lemma init_None data (n : nat) (mh : bool) nm full :
  cat1 ((tensor_of to_float ∘ snd) <$> data) = Some full →
  SequenceDataset_init to_float data n mh nm = None
  ↔ nrows full < n ∨ stride n mh = 0.
Proof.
  intros Hcat. unfold SequenceDataset_init. rewrite Hcat. simpl.
  rewrite <- batch_tensor_None.
  destruct (batch_tensor full n mh); simpl; split; done.
Qed.

(** The columns of window [j] that belong to the variable at position [p]
    are the window of that variable. *)
Lemma cols_window data (n j s : nat) (p : nat) k v ds :
  nsim ds = nrows (full_data ds) →
  Forall (λ kv, nrows kv.2 = nsim ds ∧ well_shaped kv.2) data →
  rows (full_data ds)
  = join_rows (nsim ds) ((tensor_of to_float ∘ snd) <$> data) →
  data !! p = Some (k, v) →
  cols (offset p data, offset p data + ncols v)
       (take n (drop s (rows (full_data ds))))
  = window_at to_float v n s.
Proof.
  intros Hn Hall Hfull Hp. unfold cols, window_at.
  rewrite fmap_take, fmap_drop.
  change ((λ r, take ((offset p data, offset p data + ncols v).2
                      - (offset p data, offset p data + ncols v).1)
                     (drop (offset p data, offset p data + ncols v).1 r))
          <$> rows (full_data ds))
    with (cols (offset p data, offset p data + ncols v) (rows (full_data ds))).
  rewrite Hfull, (join_rows_cols (nsim ds) data p k v) by done.
  simpl. by rewrite !fmap_take, !fmap_drop.
Qed.

Lemma window_items_Some data (n : nat) (mh : bool) nm ds suffix (j : nat) :
  NoDup data.*1 →
  Forall (λ kv, well_shaped kv.2) data →
  SequenceDataset_init to_float data n mh nm = Some ds →
  j < (nsim ds - n) / stride n mh + 1 →
  window_items ds suffix j
  = Some ((λ kv, (kv.1 +:+ suffix,
                  window_at to_float kv.2 n (j * stride n mh))) <$> data).
Proof.
  intros Hnd Hw Hinit Hj.
  destruct (init_Some _ _ _ _ _ Hw Hinit)
    as (Hne & Hall & Hle & Hs & Hn & Hnm & Hvars & Hnsim & Hfull & Hvs & Hlen
        & Hwin).
  unfold window_items. rewrite Hvars. apply mapM_Some_2.
  apply Forall2_fmap, Forall2_same_length_lookup_2; [done|].
  intros p [k v] [k' v'] Hp Hp'. assert (k' = k ∧ v' = v) as [-> ->].
  { split; congruence. }
  simpl. rewrite Hwin by done. simpl.
  rewrite Hvs, (vslices_loop_lookup data 0 ∅ p k v) by done. simpl.
  do 2 f_equal. by apply (cols_window data n j _ p k v).
Qed.

Lemma window_items_None ds suffix (j : nat) :
  variables ds ≠ [] → length (batched_data ds) ≤ j →
  window_items ds suffix j = None.
Proof.
  intros Hne Hj. unfold window_items.
  destruct (variables ds) as [|k ks]; [done|]. simpl.
  by rewrite lookup_ge_None_2.
Qed.

Lemma suffixed_not_elem {G : Type} (k sfx sfx' : string)
    (its : list (string * array A)) (g : string * array A → G) :
  (∀ k', k +:+ sfx ≠ k' +:+ sfx') →
  k +:+ sfx ∉ ((λ kv, (kv.1 +:+ sfx', g kv)) <$> its).*1.
Proof.
  intros Hc Hin. rewrite <- list_fmap_compose in Hin.
  apply list_elem_of_fmap in Hin as (kv & Heq & _). simpl in Heq.
  by apply Hc in Heq.
Qed.

Lemma suffixed_keys {G : Type} (sfx : string)
    (its : list (string * array A)) (g : string * array A → G) :
  ((λ kv, (kv.1 +:+ sfx, g kv)) <$> its).*1 = (λ k, k +:+ sfx) <$> its.*1.
Proof. by rewrite <- !list_fmap_compose. Qed.

Lemma suffixed_NoDup {G : Type} (sfx : string)
    (its : list (string * array A)) (g : string * array A → G) :
  (∀ k1 k2, k1 +:+ sfx = k2 +:+ sfx → k1 = k2) →
  NoDup its.*1 →
  NoDup ((λ kv, (kv.1 +:+ sfx, g kv)) <$> its).*1.
Proof.
  intros Hinj Hnd. rewrite suffixed_keys.
  apply NoDup_fmap_2; [|done]. intros k1 k2 H. by apply Hinj.
Qed.

Lemma suffix_p_inj (k1 k2 : string) : k1 +:+ "p" = k2 +:+ "p" → k1 = k2.
Proof. intros H. by apply suffix_inj in H as [-> _]. Qed.

Lemma suffix_f_inj (k1 k2 : string) : k1 +:+ "f" = k2 +:+ "f" → k1 = k2.
Proof. intros H. by apply suffix_inj in H as [-> _]. Qed.

Lemma suffix_p_f (k1 k2 : string) : k1 +:+ "p" ≠ k2 +:+ "f".
Proof. intros H. by apply suffix_inj in H as [_ ?]. Qed.

Lemma getitem_Some data (n : nat) (mh : bool) nm ds (i : nat) :
  NoDup data.*1 →
  Forall (λ kv, well_shaped kv.2) data →
  SequenceDataset_init to_float data n mh nm = Some ds →
  i + 1 < (nsim ds - n) / stride n mh + 1 →
  ∃ item, SequenceDataset_getitem ds i = Some item
    ∧ dom item = list_to_set ((λ k, k +:+ "p") <$> data.*1)
                 ∪ list_to_set ((λ k, k +:+ "f") <$> data.*1)
    ∧ ∀ k v, (k, v) ∈ data →
        item !! (k +:+ "p")
        = Some (window_at to_float v n (i * stride n mh))
        ∧ item !! (k +:+ "f")
          = Some (window_at to_float v n ((i + 1) * stride n mh)).
Proof.
  intros Hnd Hw Hinit Hi. unfold SequenceDataset_getitem.
  rewrite (window_items_Some data n mh nm ds "p" i) by (done || lia).
  rewrite (window_items_Some data n mh nm ds "f" (i + 1)) by done.
  simpl. eexists. split; [done|]. split.
  - rewrite dom_union_L, !dict_of_dom, !suffixed_keys.
    apply set_eq. intros k. rewrite !elem_of_union. tauto.
  - intros k v Hkv. split.
    + rewrite lookup_union_r.
      * apply dict_of_lookup.
        -- apply suffixed_NoDup; [apply suffix_p_inj | done].
        -- apply list_elem_of_fmap. by exists (k, v).
      * apply dict_of_lookup_None.
        apply suffixed_not_elem. intros k'. apply suffix_p_f.
    + apply lookup_union_Some_l. apply dict_of_lookup.
      * apply suffixed_NoDup; [apply suffix_f_inj | done].
      * apply list_elem_of_fmap. by exists (k, v).
Qed.

Lemma getitem_None data (n : nat) (mh : bool) nm ds (i : nat) :
  Forall (λ kv, well_shaped kv.2) data →
  SequenceDataset_init to_float data n mh nm = Some ds →
  (nsim ds - n) / stride n mh + 1 ≤ i + 1 →
  SequenceDataset_getitem ds i = None.
Proof.
  intros Hw Hinit Hi.
  destruct (init_Some _ _ _ _ _ Hw Hinit)
    as (Hne & Hall & Hle & Hs & Hn & Hnm & Hvars & Hnsim & Hfull & Hvs & Hlen
        & Hwin).
  unfold SequenceDataset_getitem.
  rewrite (window_items_None ds "f" (i + 1)).
  - by destruct (window_items ds "p" i).
  - rewrite Hvars. by destruct data.
  - lia.
Qed.

(** The generic half of the indexing contract. *)
Lemma getitem_contract data (n : nat) (mh : bool) nm ds :
  NoDup data.*1 →
  Forall (λ kv, well_shaped kv.2) data →
  SequenceDataset_init to_float data n mh nm = Some ds →
  Forall (λ kv, nrows kv.2 = nsim ds) data
  ∧ length (batched_data ds) = (nsim ds - n) / stride n mh + 1
  ∧ SequenceDataset_len ds = (Z.of_nat (length (batched_data ds)) - 1)%Z
  ∧ (∀ i : nat, (Z.of_nat i < SequenceDataset_len ds)%Z →
       ∃ item, SequenceDataset_getitem ds i = Some item
         ∧ dom item = list_to_set ((λ k, k +:+ "p") <$> data.*1)
                      ∪ list_to_set ((λ k, k +:+ "f") <$> data.*1)
         ∧ ∀ k v, (k, v) ∈ data →
             item !! (k +:+ "p")
             = Some (window_at to_float v n (i * stride n mh))
             ∧ item !! (k +:+ "f")
               = Some (window_at to_float v n ((i + 1) * stride n mh)))
  ∧ (∀ i : nat, (SequenceDataset_len ds ≤ Z.of_nat i)%Z →
       SequenceDataset_getitem ds i = None).
Proof.
  intros Hnd Hw Hinit.
  destruct (init_Some _ _ _ _ _ Hw Hinit)
    as (Hne & Hall & Hle & Hs & Hn & Hnm & Hvars & Hnsim & Hfull & Hvs & Hlen
        & Hwin).
  split. { eapply Forall_impl; [exact Hall|]. by intros kv [? _]. }
  split; [done|]. split; [done|]. unfold SequenceDataset_len. split.
  - intros i Hi. apply (getitem_Some data n mh nm ds i); try done. lia.
  - intros i Hi. apply (getitem_None data n mh nm ds i); try done. lia.
Qed.

(** *** [get_full_sequence] *)

Lemma init_is_Some data (n : nat) (mh : bool) nm (len : nat) :
  data ≠ [] → Forall (λ kv, nrows kv.2 = len) data →
  n ≤ len → 0 < stride n mh →
  ∃ ds, SequenceDataset_init to_float data n mh nm = Some ds.
Proof.
  intros Hne Hall Hle Hs.
  destruct (cat1 ((tensor_of to_float ∘ snd) <$> data)) as [full|] eqn:Hcat.
  - destruct (SequenceDataset_init to_float data n mh nm) as [ds|] eqn:Hinit;
      [eauto|].
    apply (init_None data n mh nm full Hcat) in Hinit.
    apply cat1_Some in Hcat as (_ & Hrows & _).
    destruct data as [|[k v] data]; [done|].
    apply Forall_cons in Hall as [Hv _]. simpl in Hrows, Hv.
    apply Forall_cons in Hrows as [Hfull _].
    unfold nrows in Hfull at 1. simpl in Hfull.
    rewrite length_fmap in Hfull. unfold nrows in Hv. lia.
  - apply cat1_None in Hcat as [Hnil|(t & t' & Ht & Ht' & Hneq)].
    + by destruct data.
    + exfalso. apply Hneq.
      apply list_elem_of_fmap in Ht as (kv & -> & Hkv).
      apply list_elem_of_fmap in Ht' as (kv' & -> & Hkv').
      rewrite Forall_forall in Hall.
      pose proof (Hall kv Hkv) as H1. pose proof (Hall kv' Hkv') as H2.
      unfold nrows in *. simpl. rewrite !length_fmap. congruence.
Qed.

(** The open-loop dictionary of a dataset built from [data]: every
    variable's own rows, as floats, cut as [[:-nsteps]] for the past and
    [[nsteps:]] for the future, each row being given a singleton sample
    axis, and the name tag. *)
Lemma get_full_sequence_Some data (n : nat) (mh : bool) nm ds :
  NoDup data.*1 →
  Forall (λ kv, well_shaped kv.2) data →
  SequenceDataset_init to_float data n mh nm = Some ds →
  ∃ loop, get_full_sequence ds = Some loop
    ∧ loop !! "name" = Some (EStr ("loop_" +:+ nm))
    ∧ ∀ k v, (k, v) ∈ data →
        loop !! (k +:+ "p")
        = Some (ETensor (unsqueeze1
                  ((λ r : list A, to_float <$> r)
                     <$> slice None (Some (- Z.of_nat n)%Z) (rows v))))
        ∧ loop !! (k +:+ "f")
          = Some (ETensor (unsqueeze1
                    ((λ r : list A, to_float <$> r)
                       <$> slice (Some (Z.of_nat n)) None (rows v)))).
Proof.
  intros Hnd Hw Hinit.
  destruct (init_Some _ _ _ _ _ Hw Hinit)
    as (Hne & Hall & Hle & Hs & Hn & Hnm & Hvars & Hnsim & Hfull & Hvs & Hlen
        & Hwin).
  assert (∀ (sfx : string) (a b : option Z),
    mapM (λ k, sl ← _vslices ds !! k;
               Some (k +:+ sfx,
                     ETensor (unsqueeze1 (cols sl
                       (slice a b (rows (full_data ds)))))))
         (variables ds)
    = Some ((λ kv, (kv.1 +:+ sfx,
                    ETensor (unsqueeze1
                      ((λ r : list A, to_float <$> r)
                         <$> slice a b (rows kv.2))))) <$> data)) as Hmap.
  { intros sfx a b. rewrite Hvars. apply mapM_Some_2.
    apply Forall2_fmap, Forall2_same_length_lookup_2; [done|].
    intros p [k v] [k' v'] Hp Hp'. assert (k' = k ∧ v' = v) as [-> ->].
    { split; congruence. }
    simpl. rewrite Hvs, (vslices_loop_lookup data 0 ∅ p k v) by done. simpl.
    do 3 f_equal. unfold cols. rewrite <- slice_fmap.
    change ((λ r, take ((offset p data, offset p data + ncols v).2
                        - (offset p data, offset p data + ncols v).1)
                       (drop (offset p data, offset p data + ncols v).1 r))
            <$> rows (full_data ds))
      with (cols (offset p data, offset p data + ncols v)
                 (rows (full_data ds))).
    rewrite Hfull, (join_rows_cols (nsim ds) data p k v) by done.
    simpl. by rewrite slice_fmap. }
  unfold get_full_sequence. rewrite Hn, !Hmap. simpl.
  eexists. split; [reflexivity|]. rewrite Hnm.
  split; [apply lookup_insert_eq|].
  intros k v Hkv.
  assert (∀ sfx : string, sfx = "p" ∨ sfx = "f" → "name" ≠ k +:+ sfx) as Hname.
  { intros sfx Hsfx Heq. change "name" with ("nam" +:+ "e") in Heq.
    destruct Hsfx as [-> | ->]; by apply suffix_inj in Heq as [_ ?]. }
  rewrite !lookup_insert_ne by (apply Hname; auto). split.
  - rewrite lookup_union_r.
    + apply dict_of_lookup.
      * apply suffixed_NoDup; [apply suffix_p_inj | done].
      * apply list_elem_of_fmap. by exists (k, v).
    + apply dict_of_lookup_None.
      apply suffixed_not_elem. intros k'. apply suffix_p_f.
  - apply lookup_union_Some_l. apply dict_of_lookup.
    + apply suffixed_NoDup; [apply suffix_f_inj | done].
    + apply list_elem_of_fmap. by exists (k, v).
Qed.

(** *** Open-loop dictionaries of a segment of the data *)

(** A dataset built (chunked) from the rows [start .. start + len - 1] of
    every variable has as its open-loop past array the rows
    [start .. start + len - nsteps - 1] and as its future array the rows
    [start + nsteps .. start + len - 1]. *)
Lemma segment_loop data (n : nat) nm (start len total : nat) :
  NoDup data.*1 →
  Forall (λ kv, well_shaped kv.2 ∧ nrows kv.2 = total) data →
  data ≠ [] → 1 ≤ n ≤ len → start + len ≤ total →
  ∃ ds loop,
    SequenceDataset_init to_float
      ((λ kv, (kv.1, Array (ncols kv.2)
                           (take len (drop start (rows kv.2))))) <$> data)
      n false nm = Some ds
    ∧ get_full_sequence ds = Some loop
    ∧ ∀ k v, (k, v) ∈ data →
        loop !! (k +:+ "p")
        = Some (ETensor (unsqueeze1 (window_at to_float v (len - n) start)))
        ∧ loop !! (k +:+ "f")
          = Some (ETensor (unsqueeze1
                    (window_at to_float v (len - n) (start + n)))).
Proof.
  intros Hnd Hall Hne Hn Hlen.
  set (seg := (λ kv : string * array A,
                 (kv.1, Array (ncols kv.2)
                              (take len (drop start (rows kv.2))))) <$> data).
  assert (seg.*1 = data.*1) as Hkeys.
  { unfold seg. by rewrite <- list_fmap_compose. }
  assert (Forall (λ kv, well_shaped kv.2) seg) as Hw.
  { apply Forall_fmap. eapply Forall_impl; [exact Hall|].
    intros [k v] [Hwf _]. unfold well_shaped in *. simpl.
    by apply Forall_take, Forall_drop. }
  assert (Forall (λ kv, nrows kv.2 = len) seg) as Hrows.
  { apply Forall_fmap. eapply Forall_impl; [exact Hall|].
    intros [k v] [_ Hr]. unfold nrows in *. simpl in *.
    rewrite length_take, length_drop. lia. }
  destruct (init_is_Some seg n false nm len) as [ds Hinit];
    [by destruct data | done | lia | simpl; lia |].
  destruct (get_full_sequence_Some seg n false nm ds) as (loop & Hloop & _ & Hlk);
    [by rewrite Hkeys | done | done |].
  exists ds, loop. split; [done|]. split; [done|].
  intros k v Hkv.
  assert (length (rows v) = total) as Hv.
  { rewrite Forall_forall in Hall. by destruct (Hall _ Hkv). }
  destruct (Hlk k (Array (ncols v) (take len (drop start (rows v)))))
    as [Hp Hf].
  { unfold seg. apply list_elem_of_fmap. by exists (k, v). }
  cbn [rows] in Hp, Hf. rewrite Hp, Hf. unfold window_at.
  rewrite slice_neg_stop, slice_from.
  destruct (decide (n = 0)) as [|_]; [lia|].
  rewrite length_take, length_drop, take_take.
  rewrite skipn_firstn_comm, drop_drop.
  replace ((len `min` (length (rows v) - start) - n) `min` len)
    with (len - n) by lia.
  done.
Qed.

(** *** [split_data] *)

(** Every custom ratio makes [split_data] raise: [train_offs] is a slice
    object and [train_offs[1]] is a [TypeError]. *)
Lemma split_data_ratio data (ratio : pyobj) :
  split_data data (Some ratio) = None.
Proof.
  unfold split_data.
  destruct (min_of _) as [nsim|]; [|done]. simpl.
  by destruct (getitem ratio 0).
Qed.

Lemma min_of_Some (ns : list nat) :
  ns ≠ [] → ∃ n, min_of ns = Some n ∧ n ∈ ns ∧ Forall (λ y, n ≤ y) ns.
Proof.
  destruct ns as [|a ns]; [done|]. intros _. simpl.
  eexists. split; [done|].
  revert a. induction ns as [|b ns IH]; intros a; simpl.
  - split; [left|]. by repeat constructor.
  - destruct (IH (a `min` b)) as [Hin Hall].
    apply Forall_cons in Hall as [Hle Hall]. split.
    + apply elem_of_cons in Hin as [Heq|Hin].
      * rewrite Heq. destruct (Nat.min_spec a b) as [[_ ->]|[_ ->]].
        -- left.
        -- right. left.
      * right. by right.
    + repeat constructor; [lia..|done].
Qed.

(** The three thirds that the default path cuts out of a variable. *)
Lemma split_data_default data :
  data ≠ [] →
  ∃ nsim, min_of ((nrows ∘ snd) <$> data) = Some nsim
    ∧ Forall (λ kv, nsim ≤ nrows kv.2) data
    ∧ (∃ kv, kv ∈ data ∧ nrows kv.2 = nsim)
    ∧ split_data data None
      = Some ((λ kv, (kv.1, Array (ncols kv.2)
                             (take (nsim / 3) (rows kv.2)))) <$> data,
              (λ kv, (kv.1, Array (ncols kv.2)
                             (take (nsim / 3) (drop (nsim / 3) (rows kv.2)))))
                <$> data,
              (λ kv, (kv.1, Array (ncols kv.2)
                             (take (nsim - nsim / 3 * 2)
                                   (drop (nsim / 3 * 2) (rows kv.2)))))
                <$> data).
Proof.
  intros Hne.
  destruct (min_of_Some ((nrows ∘ snd) <$> data)) as (nsim & Hmin & Hin & Hall).
  { by destruct data. }
  exists nsim. split; [done|]. split.
  { by rewrite Forall_fmap in Hall. }
  split.
  { apply list_elem_of_fmap in Hin as (kv & -> & Hkv). eauto. }
  unfold split_data. rewrite Hmin.
  cbn -[Nat.div Z.div Z.mul Nat.mul slice Z.of_nat].
  assert (Z.of_nat nsim `div` 3 = Z.of_nat (nsim / 3))%Z as ->
    by (by rewrite Nat2Z.inj_div).
  assert (Z.of_nat (nsim / 3) * 2 = Z.of_nat (nsim / 3 * 2))%Z as -> by lia.
  f_equal. f_equal; [f_equal|]; apply list_fmap_ext; intros p [k v] _;
    cbn -[Nat.div Z.div Z.mul Nat.mul slice Z.of_nat]; do 2 f_equal.
  - change 0%Z with (Z.of_nat 0). rewrite slice_range.
    by rewrite drop_0, Nat.sub_0_r.
  - rewrite slice_range. f_equal. lia.
  - by rewrite slice_range.
Qed.

End dataset_spec.

End NmDatasetSpec.

(** * Further properties of the windowed sequence dataset *)

Module NmDatasetMore.

Import Py PyFacts NmDataset NmDatasetSpec Examples.

(** With chunked batching the future window of an item begins exactly where
    its past window ends: put end to end, the two are the [2 * nsteps]
    consecutive rows of the variable that start at raw time [i * nsteps]. *)
Theorem getitem_chunked_adjacent (A F : Type) (to_float : A → F)
    (data : list (string * array A)) (n : nat) (nm : string)
    (ds : SequenceDataset) (i : nat) (k : string) (v : array A) :
  NoDup data.*1 →
  Forall (λ kv, well_shaped kv.2) data →
  SequenceDataset_init to_float data n false nm = Some ds →
  (Z.of_nat i < SequenceDataset_len ds)%Z →
  (k, v) ∈ data →
  ∃ item past future,
    SequenceDataset_getitem ds i = Some item
    ∧ item !! (k +:+ "p") = Some past
    ∧ item !! (k +:+ "f") = Some future
    ∧ length past = n ∧ length future = n
    ∧ past ++ future = window_at to_float v (2 * n) (i * n).
Proof.
  intros Hnd Hw Hinit Hi Hkv.
  destruct (getitem_contract to_float data n false nm ds Hnd Hw Hinit)
    as (Hrows & Hlen & Hl & Hitem & _).
  destruct (Hitem i Hi) as (item & Hget & _ & Hwin).
  destruct (Hwin k v Hkv) as [Hp Hf]. simpl in Hp, Hf.
  eexists item, _, _. do 3 (split; [done|]).
  assert (length (rows v) = nsim ds) as Hv.
  { rewrite Forall_forall in Hrows. exact (Hrows _ Hkv). }
  assert ((i + 1) * n + n ≤ nsim ds) as Hbound.
  { unfold SequenceDataset_len in Hi. rewrite Hlen in Hi. simpl in Hi.
    pose proof (Nat.Div0.mul_div_le (nsim ds - n) n).
    destruct (init_Some to_float data n false nm ds Hw Hinit)
      as (_ & _ & Hle & _). nia. }
  unfold window_at. rewrite !length_fmap, !length_take, !length_drop.
  split; [lia|]. split; [lia|].
  rewrite <- fmap_app. f_equal.
  replace ((i + 1) * n) with (i * n + n) by lia.
  rewrite <- drop_drop, take_take_drop. f_equal. lia.
Qed.

Lemma getitem_chunked_adjacent_witness :
  ∃ (item : gmap string (list (list Z))) past future,
    item !! "Up" = Some past ∧ item !! "Uf" = Some future
    ∧ past ++ future
      = window_at to_float_Z (Array 2 [[1; 2]; [3; 4]; [5; 6]; [7; 8]]%Z)
                  (2 * 2) (0 * 2).
Proof.
  destruct (getitem_chunked_adjacent Z Z to_float_Z data_UY 2 "train"
              (default (Build_SequenceDataset "" (Array 0 []) ∅ [] ∅ 0 0 [])
                 (SequenceDataset_init to_float_Z data_UY 2 false "train"))
              0 "U" (Array 2 [[1; 2]; [3; 4]; [5; 6]; [7; 8]]%Z))
    as (item & past & future & _ & Hp & Hf & _ & _ & Happ).
  - vm_compute. repeat constructor; set_solver.
  - repeat constructor.
  - vm_compute. reflexivity.
  - vm_compute. reflexivity.
  - left.
  - by exists item, past, future.
Defined.

(** The open-loop dictionary of a dataset: under name+"p" the series without
    its last [nsteps] rows and under name+"f" the series without its first
    [nsteps] rows, both as floats with a singleton sample axis, so that row
    [t] of the future array is row [t + nsteps] of the series; and the tag
    ["loop_" + name] under ["name"].  For [nsteps = 0] the past array is
    empty (the slice [[:-0]] selects nothing) while the future array is the
    whole series. *)
Theorem get_full_sequence_aligned (A F : Type) (to_float : A → F)
    (data : list (string * array A)) (n : nat) (mh : bool) (nm : string)
    (ds : SequenceDataset) :
  NoDup data.*1 →
  Forall (λ kv, well_shaped kv.2) data →
  SequenceDataset_init to_float data n mh nm = Some ds →
  ∃ loop, get_full_sequence ds = Some loop
    ∧ loop !! "name" = Some (EStr ("loop_" +:+ nm))
    ∧ ∀ k v, (k, v) ∈ data →
        loop !! (k +:+ "p")
        = Some (ETensor (unsqueeze1
                  (if decide (n = 0) then []
                   else window_at to_float v (nsim ds - n) 0)))
        ∧ loop !! (k +:+ "f")
          = Some (ETensor (unsqueeze1
                    (window_at to_float v (nsim ds - n) n))).
Proof.
  intros Hnd Hw Hinit.
  destruct (get_full_sequence_Some to_float data n mh nm ds Hnd Hw Hinit)
    as (loop & Hloop & Hname & Hlk).
  destruct (init_Some to_float data n mh nm ds Hw Hinit)
    as (_ & Hall & _).
  exists loop. split; [done|]. split; [done|].
  intros k v Hkv. destruct (Hlk k v Hkv) as [Hp Hf].
  assert (length (rows v) = nsim ds) as Hv.
  { rewrite Forall_forall in Hall. by destruct (Hall _ Hkv). }
  rewrite Hp, Hf, slice_neg_stop, slice_from. unfold window_at.
  rewrite drop_0, Hv. split.
  - by destruct (decide (n = 0)).
  - rewrite take_ge; [done|]. rewrite length_drop. lia.
Qed.

Lemma get_full_sequence_aligned_witness :
  ∃ loop : gmap string (@entry Z),
    loop !! "name" = Some (EStr ("loop_" +:+ "train")).
Proof.
  destruct (get_full_sequence_aligned Z Z to_float_Z data_UY 2 false "train"
              (default (Build_SequenceDataset "" (Array 0 []) ∅ [] ∅ 0 0 [])
                 (SequenceDataset_init to_float_Z data_UY 2 false "train")))
    as (loop & _ & Hname & _).
  - vm_compute. repeat constructor; set_solver.
  - repeat constructor.
  - vm_compute. reflexivity.
  - by exists loop.
Defined.

(** Constructing a dataset raises in exactly four cases: the data
    dictionary is empty, two variables have different numbers of rows, the
    horizon exceeds the number of rows, or the horizon is [0] with chunked
    batching (a stride of [0]). *)
Theorem init_fails_iff (A F : Type) (to_float : A → F)
    (data : list (string * array A)) (n : nat) (mh : bool) (nm : string) :
  SequenceDataset_init to_float data n mh nm = None
  ↔ data = []
    ∨ (∃ kv kv', kv ∈ data ∧ kv' ∈ data ∧ nrows kv.2 ≠ nrows kv'.2)
    ∨ (∃ kv, kv ∈ data ∧ nrows kv.2 < n)
    ∨ (mh = false ∧ n = 0).
Proof.
  assert (∀ kv : string * array A,
            nrows (tensor_of to_float kv.2) = nrows kv.2) as Hnr.
  { intros kv. unfold nrows. simpl. by rewrite length_fmap. }
  destruct (cat1 ((tensor_of to_float ∘ snd) <$> data)) as [full|] eqn:Hcat.
  - rewrite (init_None to_float data n mh nm full Hcat).
    apply cat1_Some in Hcat as (Hne & Hrows & _).
    rewrite Forall_fmap, Forall_forall in Hrows.
    assert (∀ kv, kv ∈ data → nrows kv.2 = nrows full) as Hfull.
    { intros kv Hkv. rewrite <- Hnr. by apply Hrows. }
    split.
    + intros [Hlt|Hs].
      * right. right. left. destruct data as [|kv data]; [done|].
        exists kv. split; [left|]. rewrite Hfull; [done|left].
      * right. right. right. destruct mh; simpl in Hs; [lia|done].
    + intros [->|[(kv & kv' & Hkv & Hkv' & Hneq)|[(kv & Hkv & Hlt)|[-> ->]]]].
      * done.
      * exfalso. apply Hneq. by rewrite !Hfull.
      * left. by rewrite <- (Hfull kv).
      * by right.
  - assert (SequenceDataset_init to_float data n mh nm = None) as ->.
    { unfold SequenceDataset_init. by rewrite Hcat. }
    split; [|done]. intros _.
    apply cat1_None in Hcat as [Hnil|(t & t' & Ht & Ht' & Hneq)].
    + left. by destruct data.
    + right. left.
      apply list_elem_of_fmap in Ht as (kv & -> & Hkv).
      apply list_elem_of_fmap in Ht' as (kv' & -> & Hkv').
      exists kv, kv'. split; [done|]. split; [done|].
      simpl in Hneq. by rewrite !Hnr in Hneq.
Qed.

(** The column slices recorded at construction tile the concatenated
    tensor in the order of the variables, and cutting the concatenated
    tensor by a variable's slice gives that variable back (as floats). *)
Theorem vslices_recover_variables (A F : Type) (to_float : A → F)
    (data : list (string * array A)) (n : nat) (mh : bool) (nm : string)
    (ds : SequenceDataset) (p : nat) (k : string) (v : array A) :
  NoDup data.*1 →
  Forall (λ kv, well_shaped kv.2) data →
  SequenceDataset_init to_float data n mh nm = Some ds →
  data !! p = Some (k, v) →
  _vslices ds !! k = Some (offset p data, offset p data + ncols v)
  ∧ cols (offset p data, offset p data + ncols v) (rows (full_data ds))
    = rows (tensor_of to_float v)
  ∧ offset (S p) data = offset p data + ncols v
  ∧ Forall (λ r, length r = offset (length data) data) (rows (full_data ds)).
Proof.
  intros Hnd Hw Hinit Hp.
  destruct (init_Some to_float data n mh nm ds Hw Hinit)
    as (_ & Hall & _ & _ & _ & _ & _ & _ & Hfull & Hvs & _).
  split; [|split; [|split]].
  - rewrite Hvs, (vslices_loop_lookup data 0 ∅ p k v) by done. done.
  - rewrite Hfull. by apply (join_rows_cols to_float (nsim ds) data p k v).
  - unfold offset. rewrite (take_S_r _ _ _ Hp), fmap_app, sum_list_app.
    simpl. lia.
  - rewrite Hfull.
    assert (offset (length data) data
            = sum_list (ncols <$> ((tensor_of to_float ∘ snd) <$> data))) as ->.
    { unfold offset. rewrite firstn_all. f_equal.
      rewrite <- list_fmap_compose. done. }
    apply join_rows_row_length.
    by apply (tensors_well_shaped to_float data (nsim ds));
      [|apply Forall_fmap; eapply Forall_impl; [exact Hall|];
        intros kv [Hr _]; unfold nrows in *; simpl;
        rewrite length_fmap].
Qed.

Lemma vslices_recover_variables_witness :
  cols (offset 1 data_UY, offset 1 data_UY + 1)
       [[1; 2; 10]; [3; 4; 20]; [5; 6; 30]; [7; 8; 40]]%Z
  = [[10]; [20]; [30]; [40]]%Z.
Proof.
  refine (proj1 (proj2 (vslices_recover_variables Z Z to_float_Z data_UY 2
            false "train"
            (default (Build_SequenceDataset "" (Array 0 []) ∅ [] ∅ 0 0 [])
               (SequenceDataset_init to_float_Z data_UY 2 false "train"))
            1 "Y" (Array 1 [[10]; [20]; [30]; [40]]%Z) _ _ _ _))).
  - vm_compute. repeat constructor; set_solver.
  - repeat constructor.
  - vm_compute. reflexivity.
  - reflexivity.
Defined.

End NmDatasetMore.

(** * The claims about the windowed sequence dataset *)

Module NmDatasetClaims.

Import Py PyFacts NmDataset NmDatasetSpec Examples.

(** C3.  For a dataset built from data of length [nsim] with horizon
    [nsteps]: item [i] maps, for every variable, name+"p" to window [i] and
    name+"f" to window [i+1] of that variable (window [j] being the [nsteps]
    rows that start at raw time [j * stride]), it has no other key, and the
    length of the dataset is the number of windows minus one; past that
    length indexing fails.  In the scenario [nsim = 12], [nsteps = 3], one
    variable [Y] holding [0..11], moving horizon: 10 windows, item 0 is
    [Yp = [0,1,2]], [Yf = [1,2,3]], the length is 9 and 8 is the last valid
    index. *)
Theorem sequence_dataset_contract :
  (∀ (A F : Type) (to_float : A → F) (data : list (string * array A))
     (n : nat) (mh : bool) (nm : string) (ds : SequenceDataset),
     NoDup data.*1 →
     Forall (λ kv, well_shaped kv.2) data →
     SequenceDataset_init to_float data n mh nm = Some ds →
     Forall (λ kv, nrows kv.2 = nsim ds) data
     ∧ length (batched_data ds) = (nsim ds - n) / stride n mh + 1
     ∧ SequenceDataset_len ds = (Z.of_nat (length (batched_data ds)) - 1)%Z
     ∧ (∀ i : nat, (Z.of_nat i < SequenceDataset_len ds)%Z →
          ∃ item, SequenceDataset_getitem ds i = Some item
            ∧ dom item = list_to_set ((λ k, k +:+ "p") <$> data.*1)
                         ∪ list_to_set ((λ k, k +:+ "f") <$> data.*1)
            ∧ ∀ k v, (k, v) ∈ data →
                item !! (k +:+ "p")
                = Some (window_at to_float v n (i * stride n mh))
                ∧ item !! (k +:+ "f")
                  = Some (window_at to_float v n ((i + 1) * stride n mh)))
     ∧ (∀ i : nat, (SequenceDataset_len ds ≤ Z.of_nat i)%Z →
          SequenceDataset_getitem ds i = None))
  ∧ (∃ ds, SequenceDataset_init to_float_Z (data_Y 12) 3 true "data" = Some ds
       ∧ length (batched_data ds) = 10
       ∧ SequenceDataset_getitem ds 0
         = Some (<["Yf" := [[1]; [2]; [3]]%Z]> {["Yp" := [[0]; [1]; [2]]%Z]})
       ∧ SequenceDataset_len ds = 9%Z
       ∧ is_Some (SequenceDataset_getitem ds 8)
       ∧ SequenceDataset_getitem ds 9 = None).
Proof.
  split.
  - intros A F to_float data n mh nm ds. apply getitem_contract.
  - eexists. split; [vm_compute; reflexivity|].
    repeat split; try (vm_compute; reflexivity).
    vm_compute. eauto.
Qed.

Lemma sequence_dataset_contract_witness :
  ∃ ds, SequenceDataset_init to_float_Z data_UY 2 false "train" = Some ds
    ∧ length (batched_data ds) = (nsim ds - 2) / stride 2 false + 1.
Proof.
  eexists. split; [vm_compute; reflexivity|].
  refine (proj1 (proj2 (proj1 sequence_dataset_contract
    Z Z to_float_Z data_UY 2 false "train" _ _ _ _))).
  - vm_compute. repeat constructor; set_solver.
  - repeat constructor.
  - vm_compute. reflexivity.
Defined.

(** C10.  With any split ratio given, [split_data] raises before it
    returns: the bounds of the dev split are computed by subscripting the
    train slice object.  Only the default path returns: for a non-empty
    dictionary it yields train, dev and test with the keys of the data in
    their order, cut at [nsim/3] and [2*(nsim/3)], so that for every
    variable the three parts put end to end are its first [nsim] rows
    ([nsim] being the shortest length among the variables). *)
Theorem split_data_ratio_raises :
  (∀ (A : Type) (data : list (string * array A)) (ratio : pyobj),
     split_data data (Some ratio) = None)
  ∧ (∀ (A : Type) (data : list (string * array A)),
       data ≠ [] →
       ∃ nsim tr dv te,
         min_of ((nrows ∘ snd) <$> data) = Some nsim
         ∧ split_data data None = Some (tr, dv, te)
         ∧ tr.*1 = data.*1 ∧ dv.*1 = data.*1 ∧ te.*1 = data.*1
         ∧ ∀ (p : nat) k v, data !! p = Some (k, v) →
             ∃ vt vd ve,
               tr !! p = Some (k, vt) ∧ dv !! p = Some (k, vd)
               ∧ te !! p = Some (k, ve)
               ∧ nrows vt = nsim / 3 ∧ nrows vd = nsim / 3
               ∧ rows vt ++ rows vd ++ rows ve = take nsim (rows v)).
Proof.
  split.
  - intros A data ratio. apply split_data_ratio.
  - intros A data Hne.
    destruct (split_data_default data Hne)
      as (nsim & Hmin & Hall & _ & Hsplit).
    eexists nsim, _, _, _. split; [done|]. split; [exact Hsplit|].
    rewrite <- !list_fmap_compose. do 3 (split; [done|]).
    intros p k v Hp. rewrite !list_lookup_fmap, Hp.
    cbn -[Nat.div Nat.mul].
    eexists _, _, _. do 3 (split; [done|]).
    assert (nsim ≤ length (rows v)) as Hlen.
    { rewrite Forall_lookup in Hall. exact (Hall _ _ Hp). }
    pose proof (Nat.Div0.mul_div_le nsim 3) as Hdiv.
    unfold nrows. cbn -[Nat.div Nat.mul].
    rewrite !length_take, length_drop.
    split; [lia|]. split; [lia|].
    replace (nsim / 3 * 2) with (nsim / 3 + nsim / 3) by lia.
    rewrite app_assoc, take_take_drop, take_take_drop. f_equal. lia.
Qed.

Lemma split_data_ratio_raises_witness :
  ∃ nsim tr dv te,
    min_of ((nrows ∘ snd) <$> data_Y 12) = Some nsim
    ∧ split_data (data_Y 12) None = Some (tr, dv, te)
    ∧ tr.*1 = (data_Y 12).*1.
Proof.
  destruct (proj2 split_data_ratio_raises Z (data_Y 12))
    as (nsim & tr & dv & te & H1 & H2 & H3 & _).
  - discriminate.
  - by exists nsim, tr, dv, te.
Defined.

(** C9, counterexample: with three time steps and horizon 3 (so that
    [nsteps = nsim]) the dataset is constructed; nothing is raised. *)
Lemma init_at_full_length :
  is_Some (SequenceDataset_init to_float_Z (data_Y 3) 3 false "data").
Proof. vm_compute. eauto. Qed.

(** C9 (amended).  Once the series are concatenated into a tensor of
    [nsim] rows, constructing the dataset fails when [nsteps > nsim] (the
    error comes out of the [unfold] call of the windowing itself); with
    [nsteps = nsim >= 1] it succeeds, with a single window and a dataset of
    length 0. *)
Theorem init_horizon_bound (A F : Type) (to_float : A → F)
    (data : list (string * array A)) (n : nat) (mh : bool) (nm : string)
    (full : array F) :
  cat1 ((tensor_of to_float ∘ snd) <$> data) = Some full →
  (nrows full < n → SequenceDataset_init to_float data n mh nm = None)
  ∧ (n = nrows full → 0 < n →
     ∃ ds, SequenceDataset_init to_float data n mh nm = Some ds
       ∧ length (batched_data ds) = 1
       ∧ SequenceDataset_len ds = 0%Z).
Proof.
  intros Hcat. split.
  - intros Hlt. apply (init_None to_float data n mh nm full Hcat). by left.
  - intros -> Hpos. unfold SequenceDataset_init. rewrite Hcat.
    destruct (batch_tensor full (nrows full) mh) as [ws|] eqn:Hb.
    2:{ apply batch_tensor_None in Hb as [?|Hs]; [lia|].
        destruct mh; simpl in Hs; lia. }
    cbn -[Nat.div batch_tensor]. rewrite Hb. cbn -[Nat.div].
    eexists. split; [reflexivity|].
    unfold batch_tensor, unfold0 in Hb.
    destruct (decide _) as [_|]; [|done]. injection Hb as <-.
    unfold SequenceDataset_len, permute021. cbn -[Nat.div].
    rewrite !length_fmap, length_seq, Nat.sub_diag, Nat.Div0.div_0_l.
    done.
Qed.

Lemma init_horizon_bound_witness :
  SequenceDataset_init to_float_Z (data_Y 12) 13 true "data" = None.
Proof.
  refine (proj1 (init_horizon_bound Z Z to_float_Z (data_Y 12) 13 true "data"
                   _ _) _).
  - vm_compute. reflexivity.
  - vm_compute. lia.
Defined.

(** C6, the code at the failing input.  Under moving-horizon batching the
    item at index [i] pairs the past window that starts at raw time [i]
    with the future window that starts at raw time [i + 1], whatever the
    horizon: for the series [0..11] and horizon 3, item 0 holds
    [Yp = [0,1,2]] and [Yf = [1,2,3]], while the window that starts where
    [Yp] ends is [[3,4,5]]. *)
Theorem getitem_moving_horizon_offset :
  (∀ (A F : Type) (to_float : A → F) (data : list (string * array A))
     (n : nat) (nm : string) (ds : SequenceDataset) (i : nat) k v,
     NoDup data.*1 →
     Forall (λ kv, well_shaped kv.2) data →
     SequenceDataset_init to_float data n true nm = Some ds →
     (Z.of_nat i < SequenceDataset_len ds)%Z →
     (k, v) ∈ data →
     ∃ item, SequenceDataset_getitem ds i = Some item
       ∧ item !! (k +:+ "p") = Some (window_at to_float v n i)
       ∧ item !! (k +:+ "f") = Some (window_at to_float v n (i + 1)))
  ∧ (∃ ds item,
       SequenceDataset_init to_float_Z (data_Y 12) 3 true "data" = Some ds
       ∧ SequenceDataset_getitem ds 0 = Some item
       ∧ item !! "Yp" = Some [[0]; [1]; [2]]%Z
       ∧ item !! "Yf" = Some [[1]; [2]; [3]]%Z
       ∧ window_at to_float_Z (series 12) 3 (0 + 3) = [[3]; [4]; [5]]%Z).
Proof.
  split.
  - intros A F to_float data n nm ds i k v Hnd Hw Hinit Hi Hkv.
    destruct (getitem_contract to_float data n true nm ds Hnd Hw Hinit)
      as (_ & _ & _ & Hitem & _).
    destruct (Hitem i Hi) as (item & Hget & _ & Hwin).
    exists item. split; [done|].
    destruct (Hwin k v Hkv) as [Hp Hf]. simpl in Hp, Hf.
    rewrite Nat.mul_1_r in Hp, Hf. done.
  - eexists _, _. split; [vm_compute; reflexivity|].
    split; [vm_compute; reflexivity|]. by vm_compute.
Qed.

Lemma getitem_moving_horizon_offset_witness :
  ∃ item : gmap string (list (list Z)),
    item !! "Yf" = Some (window_at to_float_Z (series 12) 3 (4 + 1)).
Proof.
  destruct (proj1 getitem_moving_horizon_offset Z Z to_float_Z (data_Y 12) 3
              "data"
              (default (Build_SequenceDataset "" (Array 0 []) ∅ [] ∅ 0 0 [])
                 (SequenceDataset_init to_float_Z (data_Y 12) 3 true "data"))
              4 "Y" (series 12))
    as (item & _ & _ & Hf).
  - vm_compute. repeat constructor; set_solver.
  - repeat constructor.
  - vm_compute. reflexivity.
  - vm_compute. reflexivity.
  - left.
  - by exists item.
Defined.

(** C5, counterexample: the series [0..11] in one variable, horizon 1.  The
    three past arrays are [[0,1,2]], [[4,5,6]] and [[8,9,10]]; put end to end
    they are not the first nine values of the series. *)
Lemma open_loops_not_prefix :
  ∃ trl dvl tel rec,
    open_loops to_float_Z (data_Y 12) 1 None = Some (trl, dvl, tel)
    ∧ concat_entries "Yp" trl dvl tel = Some rec
    ∧ rec ≠ unsqueeze1 (window_at to_float_Z (series 12) (length rec) 0).
Proof.
  eexists _, _, _, _. split; [vm_compute; reflexivity|].
  split; [vm_compute; reflexivity|]. vm_compute. discriminate.
Qed.

(** C5 (amended).  For data whose variables all have [nsim] rows, split by
    default into thirds of length [s = nsim / 3] and windowed per split
    with a horizon [1 <= nsteps <= s]: the past array that
    [get_full_sequence] returns for a split is exactly (element for element,
    after the conversion to float) that split's own segment of the series
    without its last [nsteps] rows, that is rows [0 .. s-nsteps-1] for train,
    [s .. 2s-nsteps-1] for dev and [2s .. nsim-nsteps-1] for test.  The
    concatenation train, dev, test is therefore the series with the last
    [nsteps] rows of every split left out. *)
Theorem open_loops_segments (A F : Type) (to_float : A → F)
    (data : list (string * array A)) (n nsim : nat) :
  NoDup data.*1 →
  Forall (λ kv, well_shaped kv.2 ∧ nrows kv.2 = nsim) data →
  data ≠ [] →
  1 ≤ n ≤ nsim / 3 →
  ∃ trl dvl tel,
    open_loops to_float data n None = Some (trl, dvl, tel)
    ∧ ∀ k v, (k, v) ∈ data →
        trl !! (k +:+ "p")
        = Some (ETensor (unsqueeze1
                  (window_at to_float v (nsim / 3 - n) 0)))
        ∧ dvl !! (k +:+ "p")
          = Some (ETensor (unsqueeze1
                    (window_at to_float v (nsim / 3 - n) (nsim / 3))))
        ∧ tel !! (k +:+ "p")
          = Some (ETensor (unsqueeze1
                    (window_at to_float v (nsim - nsim / 3 * 2 - n)
                               (nsim / 3 * 2))))
        ∧ concat_entries (k +:+ "p") trl dvl tel
          = Some (unsqueeze1
                    (window_at to_float v (nsim / 3 - n) 0
                     ++ window_at to_float v (nsim / 3 - n) (nsim / 3)
                     ++ window_at to_float v (nsim - nsim / 3 * 2 - n)
                                  (nsim / 3 * 2))).
Proof.
  intros Hnd Hall Hne Hn.
  destruct (split_data_default data Hne)
    as (nsim' & Hmin & Hge & (kv0 & Hkv0 & Hrows0) & Hsplit).
  assert (nsim' = nsim) as ->.
  { rewrite Forall_forall in Hall. destruct (Hall _ Hkv0). congruence. }
  pose proof (Nat.Div0.mul_div_le nsim 3) as Hdiv.
  destruct (segment_loop to_float data n "train" 0 (nsim / 3) nsim)
    as (ds1 & trl & Hi1 & Hl1 & Hk1); [done..|lia|].
  destruct (segment_loop to_float data n "dev" (nsim / 3) (nsim / 3) nsim)
    as (ds2 & dvl & Hi2 & Hl2 & Hk2); [done..|lia|].
  destruct (segment_loop to_float data n "test" (nsim / 3 * 2)
              (nsim - nsim / 3 * 2) nsim)
    as (ds3 & tel & Hi3 & Hl3 & Hk3); [done..|lia|lia|].
  exists trl, dvl, tel. split.
  - assert (SequenceDataset_init to_float
              ((λ kv, (kv.1, Array (ncols kv.2)
                                   (take (nsim / 3) (rows kv.2)))) <$> data)
              n false "train" = Some ds1) as Hi1' by exact Hi1.
    unfold open_loops. rewrite Hsplit. cbn [mbind option_bind].
    rewrite Hi1'. cbn [mbind option_bind].
    rewrite Hi2. cbn [mbind option_bind].
    rewrite Hi3. cbn [mbind option_bind].
    by rewrite Hl1, Hl2, Hl3.
  - intros k v Hkv.
    destruct (Hk1 k v Hkv) as [H1 _]. destruct (Hk2 k v Hkv) as [H2 _].
    destruct (Hk3 k v Hkv) as [H3 _].
    do 3 (split; [done|]).
    unfold concat_entries. rewrite H1, H2, H3.
    unfold unsqueeze1. by rewrite !fmap_app.
Qed.

Lemma open_loops_segments_witness :
  ∃ trl dvl tel,
    open_loops to_float_Z data_UY 1 None = Some (trl, dvl, tel)
    ∧ trl !! "Up" = Some (ETensor (unsqueeze1
                       (window_at to_float_Z (Array 2 [[1; 2]; [3; 4]; [5; 6]; [7; 8]]%Z)
                                  (4 / 3 - 1) 0))).
Proof.
  destruct (open_loops_segments Z Z to_float_Z data_UY 1 4)
    as (trl & dvl & tel & Hopen & Hk).
  - vm_compute. repeat constructor; set_solver.
  - repeat constructor.
  - discriminate.
  - vm_compute. lia.
  - exists trl, dvl, tel. split; [done|].
    destruct (Hk "U" (Array 2 [[1; 2]; [3; 4]; [5; 6]; [7; 8]]%Z)) as [H _];
      [left | exact H].
Defined.

End NmDatasetClaims.

(** * Properties of the numpy batching *)

Module DeepmpcSpec.

Import Py PyFacts Deepmpc.

Section deepmpc_spec.
Context {A : Type}.

Implicit Types data : array A.

(** The windows that [batch_mh_data] stacks. *)
Lemma mh_windows data (nsteps : nat) :
  (λ k, slice (Some (Z.of_nat k)) (Some (Z.of_nat (k + nsteps))) (rows data))
    <$> seq 0 (nrows data - nsteps)
  = (λ k, take nsteps (drop k (rows data))) <$> seq 0 (nrows data - nsteps).
Proof.
  apply list_fmap_ext. intros i k _. rewrite slice_range. f_equal. lia.
Qed.

Lemma batch_mh_data_Some data (nsteps : nat) :
  nsteps < nrows data →
  batch_mh_data data nsteps
  = Some (Array3 (nrows data - nsteps) (ncols data)
            (transpose nsteps
               ((λ k, take nsteps (drop k (rows data)))
                  <$> seq 0 (nrows data - nsteps)))).
Proof.
  intros Hlt. unfold batch_mh_data. rewrite mh_windows.
  destruct (_ <$> seq 0 (nrows data - nsteps)) as [|w ws] eqn:Hws.
  - apply (f_equal length) in Hws.
    rewrite length_fmap, length_seq in Hws. simpl in Hws. lia.
  - rewrite <- Hws. by rewrite length_fmap, length_seq.
Qed.

Lemma batch_mh_data_None data (nsteps : nat) :
  batch_mh_data data nsteps = None ↔ nrows data ≤ nsteps.
Proof.
  split.
  - intros Hnone. destruct (decide (nsteps < nrows data)) as [Hlt|]; [|lia].
    by rewrite batch_mh_data_Some in Hnone.
  - intros Hle. unfold batch_mh_data.
    by replace (nrows data - nsteps) with 0 by lia.
Qed.

Lemma np_split_Some {X : Type} (ary : list X) (sections each : nat) :
  0 < sections → length ary = sections * each →
  np_split ary sections
  = Some ((λ i, take each (drop (i * each) ary)) <$> seq 0 sections).
Proof.
  intros Hpos Hlen. unfold np_split.
  destruct (decide (sections = 0)); [lia|].
  rewrite Hlen, Nat.mul_comm, Nat.Div0.mod_mul, Nat.div_mul by lia.
  by destruct (decide (0 = 0)).
Qed.

Lemma batch_data_Some data (nsteps : nat) :
  1 ≤ nsteps ≤ nrows data →
  batch_data data nsteps
  = Some (Array3 (nrows data / nsteps) (ncols data)
            (transpose nsteps
               ((λ j, take nsteps (drop (j * nsteps) (rows data)))
                  <$> seq 0 (nrows data / nsteps)))).
Proof.
  intros [Hpos Hle]. unfold batch_data.
  destruct (decide (nsteps = 0)); [lia|].
  pose proof (Nat.div_mod_eq (nrows data) nsteps) as Hdm.
  assert (0 < nrows data / nsteps) as Hq.
  { apply Nat.div_str_pos. lia. }
  assert (Z.of_nat (nrows data) - Z.of_nat (nrows data `mod` nsteps)
          = Z.of_nat (nrows data / nsteps * nsteps))%Z as -> by lia.
  rewrite slice_to.
  rewrite (np_split_Some _ (nrows data / nsteps) nsteps);
    [|done|rewrite length_take; unfold nrows in *; lia].
  simpl. do 3 f_equal.
  apply list_fmap_ext. intros i j Hj. apply lookup_seq in Hj as [-> Hi].
  simpl. rewrite skipn_firstn_comm, take_take. f_equal. nia.
Qed.

Lemma batch_data_None data (nsteps : nat) :
  batch_data data nsteps = None ↔ nsteps = 0 ∨ nrows data < nsteps.
Proof.
  split.
  - intros Hnone. destruct (decide (1 ≤ nsteps ≤ nrows data)) as [H|]; [|lia].
    by rewrite batch_data_Some in Hnone.
  - intros H. unfold batch_data.
    destruct (decide (nsteps = 0)); [done|].
    destruct H as [|Hlt]; [done|].
    rewrite Nat.div_small by done. done.
Qed.

(** Every step of a stack of [n] windows of [nsteps] rows holds [n]
    samples. *)
Lemma transpose_windows_shape {X : Type} (nsteps n : nat) (ws : list (list X)) :
  length ws = n → Forall (λ w, length w = nsteps) ws →
  length (transpose nsteps ws) = nsteps
  ∧ Forall (λ st, length st = n) (transpose nsteps ws).
Proof.
  intros Hn Hall. split; [apply length_transpose|].
  apply Forall_lookup. intros t st Ht.
  assert (t < nsteps) as Hlt.
  { apply lookup_lt_Some in Ht. by rewrite length_transpose in Ht. }
  rewrite transpose_lookup in Ht by done. injection Ht as <-.
  rewrite length_column; [done|].
  eapply Forall_impl; [exact Hall|]. simpl. intros w ->. done.
Qed.

Lemma chunks_shape data (nsteps q : nat) :
  q * nsteps ≤ nrows data →
  Forall (λ w, length w = nsteps)
         ((λ j, take nsteps (drop (j * nsteps) (rows data))) <$> seq 0 q).
Proof.
  intros Hq. apply Forall_fmap, Forall_forall. intros j Hj.
  apply elem_of_seq in Hj as [_ Hj]. simpl.
  rewrite length_take, length_drop. unfold nrows in *. nia.
Qed.

Lemma windows_shape data (nsteps w : nat) :
  w + nsteps ≤ nrows data + 1 → w ≤ nrows data - nsteps →
  Forall (λ win, length win = nsteps)
         ((λ k, take nsteps (drop k (rows data))) <$> seq 0 w).
Proof.
  intros Hw Hw'. apply Forall_fmap, Forall_forall. intros j Hj.
  apply elem_of_seq in Hj as [_ Hj]. simpl.
  rewrite length_take, length_drop. unfold nrows in *. lia.
Qed.

(** Unbatching a stack of [d] pieces of [nsteps] rows each. *)
Lemma unbatch_data_stack (nsteps d dim : nat) (ws : list (list (list A))) :
  dim ≠ 0 → length ws = d → Forall (λ w, length w = nsteps) ws →
  unbatch_data (Array3 d dim (transpose nsteps ws))
  = Some (Array3 1 dim ((λ r, [r]) <$> concat ws)).
Proof.
  intros Hdim Hd Hall. unfold unbatch_data. simpl.
  destruct (decide (dim = 0)); [done|].
  by rewrite transpose_transpose.
Qed.

Lemma unbatch_mh_data_stack (nsteps d dim : nat) (ws : list (list (list A))) :
  dim ≠ 0 → d ≠ 0 → 1 ≤ nsteps →
  unbatch_mh_data (Array3 d dim (transpose nsteps ws))
  = Some (Array3 1 dim ((λ r, [r]) <$> column 0 ws)).
Proof.
  intros Hdim Hd Hn. unfold unbatch_mh_data, transpose. simpl.
  destruct nsteps as [|n]; [lia|]. simpl.
  destruct (decide _) as [[?|?]|_]; done.
Qed.

(** Chunked round trip: unbatching the chunked batches of a series gives
    back its leading [(L / nsteps) * nsteps] rows, each with a singleton
    sample axis; the leftover rows are lost. *)
Theorem unbatch_batch_data data (nsteps : nat) :
  1 ≤ nsteps ≤ nrows data → ncols data ≠ 0 →
  ∃ b, batch_data data nsteps = Some b
    ∧ unbatch_data b
      = Some (Array3 1 (ncols data)
                ((λ r, [r]) <$> take (nrows data / nsteps * nsteps)
                                     (rows data))).
Proof.
  intros Hn Hdim. rewrite batch_data_Some by done.
  eexists. split; [done|].
  pose proof (Nat.Div0.mul_div_le (nrows data) nsteps) as Hdiv.
  rewrite (unbatch_data_stack nsteps); [|done| |].
  - by rewrite concat_chunks.
  - by rewrite length_fmap, length_seq.
  - apply chunks_shape. lia.
Qed.

(** Moving-horizon round trip: unbatching the moving-horizon batches of a
    series gives back its leading [L - nsteps] rows; the last [nsteps] rows
    are lost. *)
Theorem unbatch_batch_mh_data data (nsteps : nat) :
  1 ≤ nsteps → nsteps < nrows data → ncols data ≠ 0 →
  ∃ b, batch_mh_data data nsteps = Some b
    ∧ unbatch_mh_data b
      = Some (Array3 1 (ncols data)
                ((λ r, [r]) <$> take (nrows data - nsteps) (rows data))).
Proof.
  intros Hn Hlt Hdim. rewrite batch_mh_data_Some by done.
  eexists. split; [done|].
  rewrite unbatch_mh_data_stack by (done || lia).
  rewrite column_0_windows; [done|done|unfold nrows in *; lia..].
Qed.

(** *** Entries of a batch, and past against future *)

(** Entry [s][i] of a batch is row [sample_start i + s] of the series. *)
Lemma batch_entry (batch_type : string) data (nsteps : nat) b :
  batch batch_type data nsteps = Some b →
  dim1 b = (if decide (batch_type = "mh") then nrows data - nsteps
            else nrows data / nsteps)
  ∧ ∀ i s, i < dim1 b → s < nsteps →
      sample_start batch_type nsteps i + nsteps ≤ nrows data
      ∧ items b !! s ≫= (.!! i)
        = rows data !! (sample_start batch_type nsteps i + s).
Proof.
  unfold batch, sample_start.
  destruct (decide (batch_type = "mh")) as [_|_]; intros Hb.
  - destruct (decide (nsteps < nrows data)) as [Hlt|Hge].
    2:{ rewrite (proj2 (batch_mh_data_None data nsteps)) in Hb by lia. done. }
    rewrite batch_mh_data_Some in Hb by done. injection Hb as <-.
    cbn [dim1 items]. split; [done|]. intros i s Hi Hs. split; [lia|].
    rewrite transpose_entry; [|apply windows_shape; lia|done].
    rewrite list_lookup_fmap, lookup_seq_lt by done. simpl.
    rewrite lookup_take_lt by done. by rewrite lookup_drop.
  - destruct (decide (1 ≤ nsteps ≤ nrows data)) as [Hn|Hn].
    2:{ rewrite (proj2 (batch_data_None data nsteps)) in Hb by lia. done. }
    rewrite batch_data_Some in Hb by done. injection Hb as <-.
    pose proof (Nat.Div0.mul_div_le (nrows data) nsteps) as Hdiv.
    cbn [dim1 items]. split; [done|]. intros i s Hi Hs. split; [nia|].
    rewrite transpose_entry; [|apply chunks_shape; lia|done].
    rewrite list_lookup_fmap, lookup_seq_lt by done. simpl.
    rewrite lookup_take_lt by done. by rewrite lookup_drop.
Qed.

(** In both batching modes the batches that [make_nstep] builds for a
    variable pair every past window with the future window that begins
    [nsteps] rows later, exactly where the past window ends: entry [s] of
    sample [i] is row [start + s] of the series in the past batch and row
    [start + nsteps + s] in the future batch. *)
Theorem nstep_future_follows_past (batch_type : string) (n : nat)
    (k : string) (v : array A) loops batches :
  nstep_entries batch_type n (k, v) = Some (loops, batches) →
  ∃ lp lf bp bf,
    loops = [(k +:+ "p", lp); (k +:+ "f", lf)]
    ∧ batches = [(k +:+ "p", bp); (k +:+ "f", bf)]
    ∧ 1 ≤ n ∧ dim1 bp = dim1 bf
    ∧ ∀ i s, i < dim1 bp → s < n →
        items bp !! s ≫= (.!! i)
        = rows v !! (sample_start batch_type n i + s)
        ∧ items bf !! s ≫= (.!! i)
          = rows v !! (sample_start batch_type n i + n + s)
        ∧ sample_start batch_type n i + n + n ≤ nrows v.
Proof.
  unfold nstep_entries. cbn [fst snd].
  set (lp := Array (ncols v) (slice None (Some (- Z.of_nat n)%Z) (rows v))).
  set (lf := Array (ncols v) (slice (Some (Z.of_nat n)) None (rows v))).
  destruct (batch batch_type lp n) as [bp|] eqn:Hbp; [|done].
  cbn [mbind option_bind].
  destruct (batch batch_type lf n) as [bf|] eqn:Hbf; [|done].
  cbn [mbind option_bind]. intros [= <- <-].
  exists lp, lf, bp, bf. do 2 (split; [done|]).
  destruct (batch_entry batch_type lp n bp Hbp) as [Hdp Hep].
  destruct (batch_entry batch_type lf n bf Hbf) as [Hdf Hef].
  assert (1 ≤ n) as Hn.
  { destruct (decide (n = 0)) as [->|]; [|lia]. exfalso.
    unfold batch in Hbp. destruct (decide (batch_type = "mh")).
    - assert (nrows lp ≤ 0) as Hz.
      { unfold lp, nrows. cbn [rows]. by rewrite slice_neg_stop. }
      by rewrite (proj2 (batch_mh_data_None lp 0) Hz) in Hbp.
    - by rewrite (proj2 (batch_data_None lp 0)) in Hbp by (by left). }
  assert (rows lp = take (nrows v - n) (rows v)) as Hlp.
  { unfold lp. cbn [rows]. rewrite slice_neg_stop.
    by destruct (decide (n = 0)); [lia|]. }
  assert (rows lf = drop n (rows v)) as Hlf.
  { unfold lf. cbn [rows]. by rewrite slice_from. }
  assert (nrows lp = nrows v - n) as Hnp.
  { unfold nrows at 1. rewrite Hlp, length_take. unfold nrows. lia. }
  assert (nrows lf = nrows v - n) as Hnf.
  { unfold nrows at 1. by rewrite Hlf, length_drop. }
  split; [done|]. split.
  { rewrite Hdp, Hdf, Hnp, Hnf. done. }
  intros i s Hi Hs.
  destruct (Hep i s Hi Hs) as [Hbp' Hp].
  destruct (Hef i s) as [Hbf' Hf]; [by rewrite Hdf, Hnf, <- Hnp, <- Hdp|done|].
  rewrite Hp, Hf, Hlp, Hlf, lookup_drop.
  rewrite lookup_take_lt by lia.
  split; [done|]. split; [f_equal; lia|lia].
Qed.

(** [split_train_test_dev] raises on an empty dictionary; otherwise it
    keeps the keys in their order and cuts every entry along the sample
    axis at [t] and [2 * t], where [t] is a third (rounded down) of the
    sample count of the first entry: at every step the train part is the
    first [t] samples, the dev part the next [t] samples and the test part
    all the samples from [2 * t] on. *)
Theorem split_train_test_dev_partition (data : list (string * array3 A)) :
  (data = [] → split_train_test_dev data = None)
  ∧ (∀ key0 v0 rest, data = (key0, v0) :: rest →
     ∃ tr dv te,
       split_train_test_dev data = Some (tr, dv, te)
       ∧ tr.*1 = data.*1 ∧ dv.*1 = data.*1 ∧ te.*1 = data.*1
       ∧ ∀ (j : nat) key v, data !! j = Some (key, v) →
           ∃ a b c,
             tr !! j = Some (key, a) ∧ dv !! j = Some (key, b)
             ∧ te !! j = Some (key, c)
             ∧ dim1 a = (dim1 v0 `div` 3) `min` dim1 v
             ∧ dim1 b = (2 * (dim1 v0 `div` 3)) `min` dim1 v
                        - (dim1 v0 `div` 3) `min` dim1 v
             ∧ dim1 c = dim1 v - 2 * (dim1 v0 `div` 3)
             ∧ dim2 a = dim2 v ∧ dim2 b = dim2 v ∧ dim2 c = dim2 v
             ∧ items a = take (dim1 v0 `div` 3) <$> items v
             ∧ items b
               = (λ st, take (dim1 v0 `div` 3) (drop (dim1 v0 `div` 3) st))
                   <$> items v
             ∧ items c = drop (2 * (dim1 v0 `div` 3)) <$> items v).
Proof.
  split; [by intros ->|]. intros key0 v0 rest Hdata.
  assert (head data.*2 = Some v0) as Hh by (by rewrite Hdata).
  clear Hdata. unfold split_train_test_dev. rewrite Hh.
  cbn [mbind option_bind].
  set (t := dim1 v0 `div` 3).
  replace (Z.of_nat t * 2)%Z with (Z.of_nat (2 * t)) by lia.
  eexists _, _, _. split; [reflexivity|].
  rewrite <- !list_fmap_compose. do 3 (split; [done|]).
  intros j key v Hj. rewrite !list_lookup_fmap, Hj.
  cbn [fmap option_fmap option_map].
  eexists _, _, _. do 3 (split; [reflexivity|]).
  unfold slice1, slice_bounds, bound. cbn [dim1 dim2 items fst snd from_option].
  destruct (Z.ltb_spec (Z.of_nat t) 0); [lia|].
  destruct (Z.ltb_spec (Z.of_nat (2 * t)) 0); [lia|].
  rewrite !Nat2Z.id.
  split; [lia|]. split; [lia|]. split; [lia|]. do 3 (split; [done|]).
  split; [|split].
  - apply list_fmap_ext. intros _ st _. apply slice_to.
  - apply list_fmap_ext. intros _ st _. rewrite slice_range.
    f_equal. lia.
  - apply list_fmap_ext. intros _ st _. apply slice_from.
Qed.

(** *** The reconstruction that [make_loop] asserts *)

Lemma slice1_stack (nsteps dim : nat) (ws : list (list (list A)))
    (start stop : option Z) :
  Forall (λ w, length w = nsteps) ws →
  slice1 start stop (Array3 (length ws) dim (transpose nsteps ws))
  = Array3 (length (slice start stop ws)) dim
           (transpose nsteps (slice start stop ws)).
Proof.
  intros Hall. unfold slice1. cbn [dim1 dim2 items].
  by rewrite length_slice, slice_transpose.
Qed.

Lemma unbatch_data_stack_inv (nsteps dim : nat) (ws : list (list (list A))) u :
  Forall (λ w, length w = nsteps) ws →
  unbatch_data (Array3 (length ws) dim (transpose nsteps ws)) = Some u →
  u = Array3 1 dim ((λ r, [r]) <$> concat ws).
Proof.
  intros Hall. unfold unbatch_data. cbn [dim1 dim2 items].
  destruct (decide (dim = 0)); [done|]. intros [= <-].
  by rewrite transpose_transpose.
Qed.

Lemma unbatch_mh_data_stack_inv (nsteps d dim : nat)
    (ws : list (list (list A))) u :
  unbatch_mh_data (Array3 d dim (transpose nsteps ws)) = Some u →
  1 ≤ nsteps ∧ u = Array3 1 dim ((λ r, [r]) <$> column 0 ws).
Proof.
  unfold unbatch_mh_data, transpose. cbn [dim1 dim2 items].
  destruct nsteps as [|n]; [done|]. simpl.
  destruct (decide _); [done|]. intros [= <-]. split; [lia|done].
Qed.

(** What [batch] stacks: pieces of [nsteps] rows whose flattening (for
    chunks) or whose first rows (for sliding windows) are a prefix of the
    series. *)
Lemma batch_stack (batch_type : string) data (nsteps : nat) b :
  batch batch_type data nsteps = Some b →
  ∃ ws (m : nat),
    b = Array3 (length ws) (ncols data) (transpose nsteps ws)
    ∧ Forall (λ w, length w = nsteps) ws
    ∧ m ≤ nrows data
    ∧ (1 ≤ nsteps →
       (if decide (batch_type = "mh") then column 0 ws else concat ws)
       = take m (rows data)).
Proof.
  unfold batch. destruct (decide (batch_type = "mh")) as [_|_]; intros Hb.
  - destruct (decide (nsteps < nrows data)) as [Hlt|Hge].
    2:{ rewrite (proj2 (batch_mh_data_None data nsteps)) in Hb by lia. done. }
    rewrite batch_mh_data_Some in Hb by done. injection Hb as <-.
    exists ((λ k, take nsteps (drop k (rows data)))
              <$> seq 0 (nrows data - nsteps)), (nrows data - nsteps).
    split. { by rewrite length_fmap, length_seq. }
    split; [apply windows_shape; lia|]. split; [lia|].
    intros Hn. apply column_0_windows; unfold nrows in *; lia.
  - destruct (decide (1 ≤ nsteps ≤ nrows data)) as [Hn|Hn].
    2:{ rewrite (proj2 (batch_data_None data nsteps)) in Hb by lia. done. }
    rewrite batch_data_Some in Hb by done. injection Hb as <-.
    pose proof (Nat.Div0.mul_div_le (nrows data) nsteps) as Hdiv.
    exists ((λ j, take nsteps (drop (j * nsteps) (rows data)))
              <$> seq 0 (nrows data / nsteps)), (nrows data / nsteps * nsteps).
    split. { by rewrite length_fmap, length_seq. }
    split; [apply chunks_shape; lia|]. split; [lia|].
    intros _. apply concat_chunks.
Qed.

Lemma unbatch_slice_mh (batch_type : string) (nsteps dim : nat)
    (ws : list (list (list A))) (start stop : option Z) u :
  batch_type = "mh" →
  Forall (λ w, length w = nsteps) ws →
  unbatch batch_type
    (slice1 start stop (Array3 (length ws) dim (transpose nsteps ws)))
  = Some u →
  1 ≤ nsteps
  ∧ u = Array3 1 dim ((λ r, [r]) <$> slice start stop (column 0 ws)).
Proof.
  intros Hbt Hall Hu. rewrite slice1_stack in Hu by done.
  unfold unbatch in Hu. destruct (decide (batch_type = "mh")); [|done].
  apply unbatch_mh_data_stack_inv in Hu as [Hn ->]. split; [done|].
  rewrite slice_column; [done|].
  eapply Forall_impl; [exact Hall|]. simpl. intros w ->. lia.
Qed.

Lemma unbatch_slice_chunk (batch_type : string) (nsteps dim : nat)
    (ws : list (list (list A))) (start stop : option Z) u :
  batch_type ≠ "mh" →
  Forall (λ w, length w = nsteps) ws →
  unbatch batch_type
    (slice1 start stop (Array3 (length ws) dim (transpose nsteps ws)))
  = Some u →
  u = Array3 1 dim ((λ r, [r]) <$> concat (slice start stop ws)).
Proof.
  intros Hbt Hall Hu. rewrite slice1_stack in Hu by done.
  unfold unbatch in Hu. destruct (decide (batch_type = "mh")); [done|].
  apply unbatch_data_stack_inv in Hu; [done|]. by apply Forall_slice.
Qed.

Lemma loop_keys_elem (names : list string) (key : string) :
  key ∈ loop_keys names
  ↔ ∃ k, k ∈ names ∧ (key = k +:+ "p" ∨ key = k +:+ "f").
Proof.
  unfold loop_keys. induction names as [|k0 names IH]; simpl.
  - split; [by intros ?%elem_of_nil|]. by intros (k & ?%elem_of_nil & _).
  - rewrite !elem_of_cons, IH. split.
    + intros [->|[->|(k & Hk & Hkey)]].
      * exists k0. split; [left|by left].
      * exists k0. split; [left|by right].
      * exists k. split; [by right|done].
    + intros (k & [->|Hk]%elem_of_cons & Hkey).
      * destruct Hkey; auto.
      * right. right. eauto.
Qed.

Lemma loop_keys_NoDup (names : list string) :
  NoDup names → NoDup (loop_keys names).
Proof.
  induction 1 as [|k0 names Hk0 Hnd IH]; [constructor|].
  change (NoDup ((k0 +:+ "p") :: (k0 +:+ "f") :: loop_keys names)).
  assert (∀ sfx : string, sfx = "p" ∨ sfx = "f" →
            k0 +:+ sfx ∉ loop_keys names) as Hfresh.
  { intros sfx Hsfx (k & Hk & Hkey)%loop_keys_elem.
    assert (k0 = k) as ->; [|done].
    destruct Hsfx as [-> | ->], Hkey as [Hkey|Hkey];
      by apply suffix_inj in Hkey as [? ?]. }
  apply NoDup_cons. split.
  - intros [Heq|Hin]%elem_of_cons.
    + by apply suffix_inj in Heq as [_ ?].
    + apply (Hfresh "p"); [by left | done].
  - apply NoDup_cons. split; [|done]. apply (Hfresh "f"). by right.
Qed.

Lemma make_nstep_aligned (data : list (string * array A)) (n : nat)
    (batch_type : string) loop_data nstep_data splits :
  make_nstep data n batch_type = Some (loop_data, nstep_data, splits) →
  loop_data.*1 = loop_keys data.*1
  ∧ nstep_data.*1 = loop_keys data.*1
  ∧ Forall2 (λ lk bk, lk.1 = bk.1 ∧ batch batch_type lk.2 n = Some bk.2)
            loop_data nstep_data
  ∧ split_train_test_dev nstep_data = Some splits.
Proof.
  unfold make_nstep.
  destruct (mapM _ data) as [entries|] eqn:Hent; [|done]. cbn [mbind option_bind].
  destruct (split_train_test_dev _) as [sp|] eqn:Hsp; [|done].
  cbn [mbind option_bind]. intros [= <- <- <-].
  do 3 (try split); [..|done]; clear Hsp sp;
    apply mapM_Some_1 in Hent;
    induction Hent as [|kv e data entries He _ IH]; try done; try constructor;
    unfold nstep_entries in He;
    destruct (batch batch_type _ n) as [bp|] eqn:Hbp; try done;
    cbn [mbind option_bind] in He;
    destruct (batch batch_type _ n) as [bf|] eqn:Hbf in He; try done;
    cbn [mbind option_bind] in He; injection He as <-.
  - cbn. unfold loop_keys in IH. cbn in IH. by rewrite IH.
  - cbn. unfold loop_keys in IH. cbn in IH. by rewrite IH.
  - cbn. constructor; [done|]. constructor; [done|]. exact IH.
Qed.

Lemma unbatch_dict_aligned (batch_type : string)
    (d u : list (string * array3 A)) :
  unbatch_dict batch_type d = Some u →
  u.*1 = d.*1
  ∧ Forall2 (λ kv ku, unbatch batch_type kv.2 = Some ku.2) d u.
Proof.
  unfold unbatch_dict. intros H%mapM_Some_1.
  induction H as [|kv ku d u Hk _ [IH1 IH2]]; [done|].
  destruct (unbatch batch_type kv.2) as [x|] eqn:Hx; [|done].
  cbn [mbind option_bind] in Hk. injection Hk as <-.
  split; [by rewrite !fmap_cons, IH1 | by constructor].
Qed.

End deepmpc_spec.

Section deepmpc_loop.
Context {A : Type}.
Variable eqb : A → A → bool.

Lemma forallb_zip_diag (r : list A) :
  forallb (λ ab, eqb ab.1 ab.2) (zip r r) = forallb (λ x, eqb x x) r.
Proof. induction r as [|x r IH]; [done|]. simpl. by rewrite IH. Qed.

Lemma forallb_concat {X : Type} (f : X → bool) (ls : list (list X)) :
  forallb f (concat ls) = forallb (forallb f) ls.
Proof.
  clear. induction ls as [|l ls IH]; [done|].
  simpl. by rewrite forallb_app, IH.
Qed.

(** On arrays with the same rows [np.array_equal] is the test that no
    element differs from itself. *)
Lemma array_equal_rows (x y : array A) :
  ncols x = ncols y → rows x = rows y →
  array_equal eqb x y = forallb (forallb (λ a, eqb a a)) (rows x).
Proof.
  intros Hc Hr. unfold array_equal, nrows.
  rewrite <- Hr, bool_decide_true by done.
  simpl. clear Hr. generalize (rows x). intros rs.
  induction rs as [|r rs IH]; [done|].
  simpl. by rewrite forallb_zip_diag, IH.
Qed.

(** For every series, batched either way, cut into thirds at any sample
    index [t] and unbatched third by third: the three reconstructions can
    be concatenated, the result is a prefix of the series, and the
    comparison with the truncated series that [make_loop] asserts passes
    exactly when no element of the reconstructions differs from itself. *)
Lemma loop_reconstruction (batch_type : string) (v : array A) (n t : nat)
    (b utr udv ute : array3 A) :
  batch batch_type v n = Some b →
  unbatch batch_type (slice1 None (Some (Z.of_nat t)) b) = Some utr →
  unbatch batch_type
    (slice1 (Some (Z.of_nat t)) (Some (Z.of_nat t * 2)%Z) b) = Some udv →
  unbatch batch_type (slice1 (Some (Z.of_nat t * 2)%Z) None b) = Some ute →
  ∃ all_loop,
    concatenate_squeeze utr udv ute = Some all_loop
    ∧ rows all_loop = take (nrows all_loop) (rows v)
    ∧ array_equal eqb all_loop
        (Array (ncols v)
               (slice None (Some (Z.of_nat (nrows all_loop))) (rows v)))
      = self_equal eqb [("", utr); ("", udv); ("", ute)].
Proof.
  intros Hb Htr Hdv Hte.
  destruct (batch_stack batch_type v n b Hb)
    as (ws & m & -> & Hall & Hm & Hflat).
  replace (Z.of_nat t * 2)%Z with (Z.of_nat (t * 2)) in * by lia.
  assert (∃ c1 c2 c3,
            utr = Array3 1 (ncols v) ((λ r, [r]) <$> c1)
            ∧ udv = Array3 1 (ncols v) ((λ r, [r]) <$> c2)
            ∧ ute = Array3 1 (ncols v) ((λ r, [r]) <$> c3)
            ∧ c1 ++ c2 ++ c3 = take m (rows v))
    as (c1 & c2 & c3 & -> & -> & -> & Hcat).
  { destruct (decide (batch_type = "mh")) as [Hbt|Hbt].
    - apply unbatch_slice_mh in Htr as [Hn ->]; [|done..].
      apply unbatch_slice_mh in Hdv as [_ ->]; [|done..].
      apply unbatch_slice_mh in Hte as [_ ->]; [|done..].
      eexists _, _, _. do 3 (split; [done|]).
      rewrite slice_partition by lia. by apply Hflat.
    - assert (1 ≤ n) as Hn.
      { unfold batch in Hb. destruct (decide (batch_type = "mh")); [done|].
        destruct (decide (1 ≤ n ≤ nrows v)) as [?|?]; [lia|].
        rewrite (proj2 (batch_data_None v n)) in Hb by lia. done. }
      apply unbatch_slice_chunk in Htr as ->; [|done..].
      apply unbatch_slice_chunk in Hdv as ->; [|done..].
      apply unbatch_slice_chunk in Hte as ->; [|done..].
      eexists _, _, _. do 3 (split; [done|]).
      rewrite <- !concat_app, slice_partition by lia. by apply Hflat. }
  unfold concatenate_squeeze. cbn [dim1 dim2 items].
  clear Hflat.
  destruct (decide (1 = 1 ∧ _)) as [_|Hd]; [|exfalso; apply Hd; repeat split].
  eexists. split; [reflexivity|].
  assert (concat (((λ r : list A, [r]) <$> c1) ++ ((λ r, [r]) <$> c2)
                  ++ ((λ r, [r]) <$> c3)) = take m (rows v)) as Hrows.
  { by rewrite <- !fmap_app, concat_singletons. }
  assert (length (take m (rows v)) = m) as Hlen.
  { rewrite length_take. unfold nrows in Hm. lia. }
  unfold nrows. cbn [rows ncols]. split; [by rewrite Hrows, Hlen|].
  rewrite array_equal_rows; cbn [rows ncols];
    [|done|by rewrite Hrows, Hlen, slice_to].
  rewrite !forallb_concat, !forallb_app.
  unfold self_equal. cbn [forallb items snd]. by rewrite andb_true_r, !andb_assoc.
Qed.

Lemma aligned_lookup {V W : Type} (d : list (string * V))
    (u : list (string * W)) (R : V → W → Prop) (j : nat) key x :
  u.*1 = d.*1 → NoDup d.*1 →
  Forall2 (λ kv ku, R kv.2 ku.2) d u →
  d !! j = Some (key, x) →
  ∃ y, u !! j = Some (key, y) ∧ dict_of u !! key = Some y ∧ R x y.
Proof.
  clear. intros Hkeys Hnd Hall Hj.
  destruct (Forall2_lookup_l _ _ _ _ _ Hall Hj) as ([key' y] & Hu & HR).
  assert (key' = key) as ->.
  { apply (f_equal (λ l, l !! j)) in Hkeys.
    rewrite !list_lookup_fmap, Hu, Hj in Hkeys. simpl in Hkeys. congruence. }
  exists y. split; [done|]. split; [|done]. apply dict_of_lookup.
  - by rewrite Hkeys.
  - by eapply list_elem_of_lookup_2.
Qed.

Lemma self_equal_lookup (l : list (string * array3 A)) :
  self_equal eqb l = true
  ↔ ∀ (j : nat) kv, l !! j = Some kv → self_equal eqb [kv] = true.
Proof.
  unfold self_equal. rewrite forallb_forall. split.
  - intros Hall j kv Hj. cbn [forallb]. rewrite andb_true_r.
    apply Hall, list_elem_of_In. by eapply list_elem_of_lookup_2.
  - intros Hall kv [j Hj]%list_elem_of_In%list_elem_of_lookup.
    specialize (Hall j kv Hj). cbn [forallb] in Hall.
    by rewrite andb_true_r in Hall.
Qed.

(** The assertion of [make_loop] is a test for NaN: on the dictionaries
    that [make_nstep] produced, once the three splits are unbatched, the
    reconstruction of every key equals the truncated original series
    element by element, so the comparison passes, and [make_loop] returns
    the three reconstructions, exactly when no element of the
    reconstructions differs from itself under [==]; when one does (a NaN),
    the assertion fails. *)
Theorem make_loop_assertion (data : list (string * array A)) (n : nat)
    (batch_type : string) loop_data nstep_data train_data dev_data test_data
    train_loop dev_loop test_loop :
  NoDup data.*1 →
  make_nstep data n batch_type
  = Some (loop_data, nstep_data, (train_data, dev_data, test_data)) →
  unbatch_dict batch_type train_data = Some train_loop →
  unbatch_dict batch_type dev_data = Some dev_loop →
  unbatch_dict batch_type test_data = Some test_loop →
  make_loop eqb batch_type loop_data train_data dev_data test_data
  = if self_equal eqb train_loop && self_equal eqb dev_loop
       && self_equal eqb test_loop
    then Some (train_loop, dev_loop, test_loop) else None.
Proof.
  intros Hnd Hmk Htr Hdv Hte.
  apply make_nstep_aligned in Hmk as (Hlk & Hnk & Hal & Hsplit).
  apply loop_keys_NoDup in Hnd.
  unfold split_train_test_dev in Hsplit.
  destruct (head nstep_data.*2) as [v0|]; [|done].
  cbn [mbind option_bind] in Hsplit.
  set (t := dim1 v0 / 3) in Hsplit. injection Hsplit as <- <- <-.
  unfold make_loop. rewrite Htr, Hdv, Hte. cbn [mbind option_bind].
  apply unbatch_dict_aligned in Htr as [Ktr Atr].
  apply unbatch_dict_aligned in Hdv as [Kdv Adv].
  apply unbatch_dict_aligned in Hte as [Kte Ate].
  rewrite <- !list_fmap_compose in Ktr, Kdv, Kte.
  change (nstep_data.*1 = _) with (nstep_data.*1 = loop_keys data.*1) in Hnk.
  rewrite Forall2_fmap_l in Atr, Adv, Ate.
  rewrite <- list_fmap_compose.
  assert (∀ (j : nat) key bj, nstep_data !! j = Some (key, bj) →
    ∃ utr udv ute all_loop,
      train_loop !! j = Some (key, utr) ∧ dev_loop !! j = Some (key, udv)
      ∧ test_loop !! j = Some (key, ute)
      ∧ loop_check eqb (dict_of loop_data) (dict_of train_loop)
          (dict_of dev_loop) (dict_of test_loop) key
        = if self_equal eqb [("", utr); ("", udv); ("", ute)]
          then Some (key, all_loop) else None) as Hper.
  { intros j key bj Hbj.
    destruct (Forall2_lookup_r _ _ _ _ _ Hal Hbj)
      as ([k' lj] & Hlj & Hk' & Hbatch).
    simpl in Hk', Hbatch. subst k'.
    assert (dict_of loop_data !! key = Some lj) as Hloop.
    { apply dict_of_lookup; [by rewrite Hlk|by eapply list_elem_of_lookup_2]. }
    destruct (aligned_lookup nstep_data train_loop
                (λ b u, unbatch batch_type (slice1 None (Some (Z.of_nat t)) b)
                        = Some u) j key bj)
      as (utr & Jtr & Hutr & Rtr); [by rewrite Ktr|by rewrite Hnk|done|done|].
    destruct (aligned_lookup nstep_data dev_loop
                (λ b u, unbatch batch_type
                          (slice1 (Some (Z.of_nat t)) (Some (Z.of_nat t * 2)%Z) b)
                        = Some u) j key bj)
      as (udv & Jdv & Hudv & Rdv); [by rewrite Kdv|by rewrite Hnk|done|done|].
    destruct (aligned_lookup nstep_data test_loop
                (λ b u, unbatch batch_type
                          (slice1 (Some (Z.of_nat t * 2)%Z) None b) = Some u)
                j key bj)
      as (ute & Jte & Hute & Rte); [by rewrite Kte|by rewrite Hnk|done|done|].
    destruct (loop_reconstruction batch_type lj n t bj utr udv ute)
      as (all_loop & Hcat & _ & Heq); [done..|].
    exists utr, udv, ute, all_loop. do 3 (split; [done|]).
    unfold loop_check.
    rewrite Hutr, Hudv, Hute. cbn [mbind option_bind].
    rewrite Hcat. cbn [mbind option_bind]. rewrite Hloop.
    cbn [mbind option_bind]. by rewrite Heq. }
  assert (∀ (k : string) (u1 u2 u3 : array3 A),
    self_equal eqb [("", u1); ("", u2); ("", u3)]
    = self_equal eqb [(k, u1)] && self_equal eqb [(k, u2)]
      && self_equal eqb [(k, u3)])
    as Hthree.
  { intros k u1 u2 u3. unfold self_equal. cbn [forallb items snd].
    by rewrite !andb_true_r, !andb_assoc. }
  destruct (self_equal eqb train_loop && self_equal eqb dev_loop
            && self_equal eqb test_loop) eqn:Hse.
  - apply andb_true_iff in Hse as [[Str Sdv]%andb_true_iff Ste].
    rewrite self_equal_lookup in Str, Sdv, Ste.
    enough (is_Some (mapM (loop_check eqb (dict_of loop_data)
                             (dict_of train_loop) (dict_of dev_loop)
                             (dict_of test_loop))
                          (fst <$> nstep_data))) as [x Hx].
    { erewrite list_fmap_ext; [rewrite Hx|]; done. }
    apply mapM_is_Some_2, Forall_lookup. intros j key Hj.
    rewrite list_lookup_fmap in Hj.
    destruct (nstep_data !! j) as [[key' bj]|] eqn:Hbj; [|done].
    simpl in Hj. injection Hj as ->.
    destruct (Hper j key bj Hbj)
      as (utr & udv & ute & all_loop & Jtr & Jdv & Jte & Hchk).
    unfold compose. rewrite Hchk.
    rewrite (Hthree key).
    rewrite (Str _ _ Jtr), (Sdv _ _ Jdv), (Ste _ _ Jte). by eexists.
  - enough (mapM (loop_check eqb (dict_of loop_data)
                    (dict_of train_loop) (dict_of dev_loop)
                    (dict_of test_loop))
                 (fst <$> nstep_data) = None) as Hx.
    { erewrite list_fmap_ext; [rewrite Hx|]; done. }
    destruct (mapM _ _) as [x|] eqn:Hm; [|done]. exfalso.
    assert (is_Some (mapM (loop_check eqb (dict_of loop_data)
                             (dict_of train_loop) (dict_of dev_loop)
                             (dict_of test_loop))
                          (fst <$> nstep_data))) as Hs by (by rewrite Hm).
    apply mapM_is_Some_1 in Hs. rewrite Forall_lookup in Hs.
    assert (∀ (j : nat) key bj, nstep_data !! j = Some (key, bj) →
      ∃ utr udv ute,
        train_loop !! j = Some (key, utr) ∧ dev_loop !! j = Some (key, udv)
        ∧ test_loop !! j = Some (key, ute)
        ∧ self_equal eqb [(key, utr)] = true
        ∧ self_equal eqb [(key, udv)] = true
        ∧ self_equal eqb [(key, ute)] = true) as Hgood.
    { intros j key bj Hbj.
      destruct (Hper j key bj Hbj)
        as (utr & udv & ute & all_loop & Jtr & Jdv & Jte & Hchk).
      specialize (Hs j key). rewrite list_lookup_fmap, Hbj in Hs.
      specialize (Hs eq_refl). unfold compose in Hs. rewrite Hchk in Hs.
      rewrite (Hthree key) in Hs.
      destruct (self_equal eqb [(key, utr)]) eqn:E1; [|by destruct Hs].
      destruct (self_equal eqb [(key, udv)]) eqn:E2; [|by destruct Hs].
      destruct (self_equal eqb [(key, ute)]) eqn:E3; [|by destruct Hs].
      exists utr, udv, ute. done. }
    assert (∀ u : list (string * array3 A), u.*1 = nstep_data.*1 →
      ∀ (j : nat) kv, u !! j = Some kv →
        ∃ bj, nstep_data !! j = Some (kv.1, bj)) as Hback.
    { intros u Hu j kv Hj.
      apply (f_equal (λ l, l !! j)) in Hu.
      rewrite !list_lookup_fmap, Hj in Hu. simpl in Hu.
      destruct (nstep_data !! j) as [[k bj]|]; [|done].
      simpl in Hu. injection Hu as ->. eauto. }
    apply not_true_iff_false in Hse. apply Hse.
    rewrite !andb_true_iff, !self_equal_lookup.
    split; [split|]; intros j kv Hj.
    + destruct (Hback _ Ktr j kv Hj) as [bj Hbj].
      destruct (Hgood j _ bj Hbj) as (utr & udv & ute & Jtr & _ & _ & G & _).
      rewrite Hj in Jtr. injection Jtr as ->. done.
    + destruct (Hback _ Kdv j kv Hj) as [bj Hbj].
      destruct (Hgood j _ bj Hbj) as (utr & udv & ute & _ & Jdv & _ & _ & G & _).
      rewrite Hj in Jdv. injection Jdv as ->. done.
    + destruct (Hback _ Kte j kv Hj) as [bj Hbj].
      destruct (Hgood j _ bj Hbj) as (utr & udv & ute & _ & _ & Jte & _ & _ & G).
      rewrite Hj in Jte. injection Jte as ->. done.
Qed.

End deepmpc_loop.


End DeepmpcSpec.

Module DeepmpcExamples.

Import Py Deepmpc Examples.

Lemma unbatch_batch_data_witness :
  ∃ b, batch_data (series 13) 3 = Some b
    ∧ unbatch_data b
      = Some (Array3 1 1 ((λ r, [r]) <$> take (13 / 3 * 3) (rows (series 13)))).
Proof.
  apply (DeepmpcSpec.unbatch_batch_data (series 13) 3).
  - vm_compute. lia.
  - discriminate.
Defined.

Lemma unbatch_batch_mh_data_witness :
  ∃ b, batch_mh_data (series 12) 3 = Some b
    ∧ unbatch_mh_data b
      = Some (Array3 1 1 ((λ r, [r]) <$> take (12 - 3) (rows (series 12)))).
Proof.
  apply (DeepmpcSpec.unbatch_batch_mh_data (series 12) 3).
  - lia.
  - vm_compute. lia.
  - discriminate.
Defined.

(** Without a NaN the assertion passes; with one it fails. *)
Example make_loop_floats :
  is_Some (make_loop PrimFloat.eqb "chunk" nstep_F.1.1 nstep_F.2.1.1
             nstep_F.2.1.2 nstep_F.2.2).
Proof. vm_compute. eauto. Qed.

Example make_loop_nan :
  is_Some (make_nstep data_nan 1 "chunk")
  ∧ make_loop PrimFloat.eqb "chunk" nstep_nan.1.1 nstep_nan.2.1.1
      nstep_nan.2.1.2 nstep_nan.2.2 = None.
Proof. split; [vm_compute; eauto|vm_compute; reflexivity]. Qed.

Lemma make_loop_assertion_witness :
  make_loop Z.eqb "chunk" nstep_UY.1.1 nstep_UY.2.1.1 nstep_UY.2.1.2
    nstep_UY.2.2
  = if self_equal Z.eqb (default [] (unbatch_dict "chunk" nstep_UY.2.1.1))
       && self_equal Z.eqb (default [] (unbatch_dict "chunk" nstep_UY.2.1.2))
       && self_equal Z.eqb (default [] (unbatch_dict "chunk" nstep_UY.2.2))
    then Some (default [] (unbatch_dict "chunk" nstep_UY.2.1.1),
               default [] (unbatch_dict "chunk" nstep_UY.2.1.2),
               default [] (unbatch_dict "chunk" nstep_UY.2.2))
    else None.
Proof.
  apply (DeepmpcSpec.make_loop_assertion Z.eqb data_UY 1 "chunk" _
           nstep_UY.1.2).
  - vm_compute. repeat constructor; set_solver.
  - vm_compute. reflexivity.
  - vm_compute. reflexivity.
  - vm_compute. reflexivity.
  - vm_compute. reflexivity.
Defined.

Lemma nstep_future_follows_past_witness :
  ∃ bp bf : array3 Z,
    items bp !! 1 ≫= (.!! 2) = rows (series 12) !! (sample_start "mh" 2 2 + 1)
    ∧ items bf !! 1 ≫= (.!! 2)
      = rows (series 12) !! (sample_start "mh" 2 2 + 2 + 1).
Proof.
  destruct (DeepmpcSpec.nstep_future_follows_past "mh" 2 "Y" (series 12)
              (default ([], []) (nstep_entries "mh" 2 ("Y", series 12))).1
              (default ([], []) (nstep_entries "mh" 2 ("Y", series 12))).2)
    as (lp & lf & bp & bf & _ & Hb & _ & _ & Hent).
  - vm_compute. reflexivity.
  - exists bp, bf.
    assert (2 < dim1 bp) as Hd.
    { vm_compute in Hb. injection Hb as <- _. vm_compute. lia. }
    destruct (Hent 2 1 Hd ltac:(lia)) as (H1 & H2 & _). by split.
Defined.

Lemma split_train_test_dev_partition_witness :
  ∃ tr dv te,
    split_train_test_dev data_seven = Some (tr, dv, te)
    ∧ tr.*1 = ["Yp"] ∧ dv.*1 = ["Yp"] ∧ te.*1 = ["Yp"]
    ∧ ∀ (j : nat) key v, data_seven !! j = Some (key, v) →
        ∃ a b c,
          tr !! j = Some (key, a) ∧ dv !! j = Some (key, b)
          ∧ te !! j = Some (key, c)
          ∧ dim1 a = 2 `min` dim1 v
          ∧ dim1 b = 4 `min` dim1 v - 2 `min` dim1 v
          ∧ dim1 c = dim1 v - 4
          ∧ dim2 a = dim2 v ∧ dim2 b = dim2 v ∧ dim2 c = dim2 v
          ∧ items a = take 2 <$> items v
          ∧ items b = (λ st, take 2 (drop 2 st)) <$> items v
          ∧ items c = drop 4 <$> items v.
Proof.
  apply (proj2 (DeepmpcSpec.split_train_test_dev_partition data_seven)
           "Yp" (Array3 7 1 [[[0]; [1]; [2]; [3]; [4]; [5]; [6]]]%Z) []).
  reflexivity.
Defined.

Example split_train_test_dev_seven :
  split_train_test_dev data_seven
  = Some ([("Yp", Array3 2 1 [[[0]; [1]]]%Z)],
          [("Yp", Array3 2 1 [[[2]; [3]]]%Z)],
          [("Yp", Array3 3 1 [[[4]; [5]; [6]]]%Z)]).
Proof. vm_compute. reflexivity. Qed.

End DeepmpcExamples.

(** * Window counts of the four batching functions *)

Module BatchingClaims.

Import Py PyFacts Examples.

(** C4, the code on every sequence of length [L] and horizon [N] with
    [1 <= N <= L].  The neuromancer [batch_tensor] produces [L - N + 1]
    windows with a moving horizon and [L / N] windows chunked, and the
    deepmpc [batch_data] produces [L / N] windows; but the deepmpc
    [batch_mh_data] produces [L - N] windows, one fewer than the moving
    horizon allows, and raises when [N = L]. *)
Theorem batching_window_counts (A : Type) (x : array A) (N : nat) :
  1 ≤ N ≤ nrows x →
  (∃ ws, NmDataset.batch_tensor x N true = Some ws
         ∧ length ws = nrows x - N + 1)
  ∧ (∃ ws, NmDataset.batch_tensor x N false = Some ws
           ∧ length ws = nrows x / N)
  ∧ (∃ b, Deepmpc.batch_data x N = Some b
          ∧ dim1 b = nrows x / N ∧ length (items b) = N
          ∧ Forall (λ st, length st = nrows x / N) (items b))
  ∧ (N < nrows x →
     ∃ b, Deepmpc.batch_mh_data x N = Some b
          ∧ dim1 b = nrows x - N ∧ length (items b) = N
          ∧ Forall (λ st, length st = nrows x - N) (items b))
  ∧ (N = nrows x → Deepmpc.batch_mh_data x N = None).
Proof.
  intros [Hpos Hle].
  assert (∀ mh, ∃ ws, NmDataset.batch_tensor x N mh = Some ws
            ∧ length ws = (nrows x - N) / NmDataset.stride N mh + 1) as Hnm.
  { intros mh. unfold NmDataset.batch_tensor, NmDataset.unfold0.
    change (if mh then 1 else N) with (NmDataset.stride N mh).
    destruct (decide _) as [_|Hn].
    - eexists. split; [done|]. by rewrite length_fmap, length_seq.
    - exfalso. apply Hn. split; [done|]. destruct mh; simpl; lia. }
  split; [|split; [|split; [|split]]].
  - destruct (Hnm true) as (ws & Hws & Hlen). exists ws. split; [done|].
    rewrite Hlen. unfold NmDataset.stride. by rewrite Nat.div_1_r.
  - destruct (Hnm false) as (ws & Hws & Hlen). exists ws. split; [done|].
    rewrite Hlen. unfold NmDataset.stride.
    replace (nrows x) with (nrows x - N + 1 * N) at 2 by lia.
    by rewrite Nat.div_add by lia.
  - rewrite DeepmpcSpec.batch_data_Some by done.
    eexists. split; [done|]. simpl. split; [done|].
    apply DeepmpcSpec.transpose_windows_shape.
    + by rewrite length_fmap, length_seq.
    + apply Forall_fmap, Forall_forall. intros j Hj.
      apply elem_of_seq in Hj as [_ Hj]. simpl.
      rewrite length_take, length_drop.
      pose proof (Nat.Div0.mul_div_le (nrows x) N). unfold nrows in *. nia.
  - intros Hlt. rewrite DeepmpcSpec.batch_mh_data_Some by done.
    eexists. split; [done|]. simpl. split; [done|].
    apply DeepmpcSpec.transpose_windows_shape.
    + by rewrite length_fmap, length_seq.
    + apply Forall_fmap, Forall_forall. intros j Hj.
      apply elem_of_seq in Hj as [_ Hj]. simpl.
      rewrite length_take, length_drop. unfold nrows in *. lia.
  - intros ->. by apply DeepmpcSpec.batch_mh_data_None.
Qed.

Lemma batching_window_counts_witness :
  (∃ ws, NmDataset.batch_tensor (series 12) 3 true = Some ws
         ∧ length ws = 12 - 3 + 1)
  ∧ (∃ b, Deepmpc.batch_mh_data (series 12) 3 = Some b ∧ dim1 b = 12 - 3).
Proof.
  destruct (batching_window_counts Z (series 12) 3) as (H1 & _ & _ & H4 & _).
  - vm_compute. lia.
  - split; [exact H1|].
    destruct H4 as (b & Hb & Hd & _); [vm_compute; lia|].
    exists b. split; [exact Hb | exact Hd].
Defined.

End BatchingClaims.

(** * Properties of the min-max normalization *)

Module DeepmpcNormSpec.

Import Py DeepmpcNorm.

Lemma nan_to_num_finite x : PrimFloat.is_finite (nan_to_num x) = true.
Proof.
  unfold nan_to_num.
  destruct (PrimFloat.is_nan x) eqn:Hn; [reflexivity|].
  destruct (PrimFloat.is_infinity x) eqn:Hi.
  - destruct (x <? 0)%float; reflexivity.
  - unfold PrimFloat.is_finite. by rewrite Hn, Hi.
Qed.

Lemma nan_to_num_id c : PrimFloat.is_finite c = true → nan_to_num c = c.
Proof.
  unfold PrimFloat.is_finite, nan_to_num.
  destruct (PrimFloat.is_nan c); [done|]. by destruct (PrimFloat.is_infinity c).
Qed.

(** A finite float is a zero or a signed mantissa with an exponent. *)
Lemma finite_cases (c : float) :
  PrimFloat.is_finite c = true →
  (∃ s, Prim2SF c = S754_zero s) ∨ (∃ s m e, Prim2SF c = S754_finite s m e).
Proof.
  unfold PrimFloat.is_finite, PrimFloat.is_nan, PrimFloat.is_infinity.
  rewrite !FloatAxioms.eqb_spec, abs_spec.
  destruct (Prim2SF c) as [s|s| |s m e] eqn:Hc; eauto.
  - destruct s; vm_compute; done.
  - vm_compute. done.
Qed.

Lemma sub_diag_finite (c : float) :
  PrimFloat.is_finite c = true → (c - c)%float = 0%float.
Proof.
  intros Hf. apply Prim2SF_inj. rewrite sub_spec.
  destruct (finite_cases c Hf) as [[s ->]|(s & m & e & ->)].
  - by destruct s.
  - unfold SF64sub, SFsub. rewrite Z.sub_diag. reflexivity.
Qed.

Lemma add_zero_finite (c : float) :
  PrimFloat.is_finite c = true →
  PrimFloat.is_finite (0 + c) = true ∧ ((0 + c) =? c)%float = true.
Proof.
  intros Hf.
  destruct (finite_cases c Hf) as [[s Hc]|(s & m & e & Hc)].
  - assert ((0 + c)%float = 0%float) as ->.
    { apply Prim2SF_inj. rewrite add_spec, Hc. by destruct s. }
    split; [reflexivity|]. rewrite FloatAxioms.eqb_spec, Hc. reflexivity.
  - assert ((0 + c)%float = c) as ->.
    { apply Prim2SF_inj. rewrite add_spec, Hc. reflexivity. }
    split; [done|]. rewrite FloatAxioms.eqb_spec, Hc.
    unfold SFeqb, SFcompare. rewrite Z.compare_refl.
    destruct s; simpl; by rewrite Pos.compare_cont_refl.
Qed.

(** What the two passes compute in a constant column. *)
Lemma normalize_entry_const (c : float) :
  PrimFloat.is_finite c = true →
  nan_to_num ((c - c) / (c - c)) = 0%float.
Proof. intros Hf. rewrite sub_diag_finite by done. reflexivity. Qed.

Lemma denorm_entry_const (c : float) :
  PrimFloat.is_finite c = true →
  (nan_to_num (0 * (c - c) + c) =? c)%float = true.
Proof.
  intros Hf. rewrite sub_diag_finite by done.
  change (0 * 0)%float with 0%float.
  destruct (add_zero_finite c Hf) as [Hfin Heq].
  by rewrite nan_to_num_id.
Qed.

Lemma np_minimum_diag c : np_minimum c c = c.
Proof. unfold np_minimum. by destruct (_ || _). Qed.

Lemma np_maximum_diag c : np_maximum c c = c.
Proof. unfold np_maximum. by destruct (_ || _). Qed.

Lemma foldl_zip_with_length (f : float → float → float) (r : list float)
    (rest : list (list float)) (n : nat) :
  length r = n → Forall (λ row, length row = n) rest →
  length (foldl (zip_with f) r rest) = n.
Proof.
  revert r. induction rest as [|row rest IH]; intros r Hr Hall; [done|].
  apply Forall_cons in Hall as [Hrow Hall]. simpl. apply IH; [|done].
  rewrite length_zip_with. lia.
Qed.

Lemma foldl_zip_with_const (f : float → float → float) (r : list float)
    (rest : list (list float)) (j : nat) (c : float) :
  f c c = c → r !! j = Some c → Forall (λ row, row !! j = Some c) rest →
  foldl (zip_with f) r rest !! j = Some c.
Proof.
  intros Hf. revert r. induction rest as [|row rest IH]; intros r Hr Hall;
    [done|].
  apply Forall_cons in Hall as [Hrow Hall]. simpl. apply IH; [|done].
  rewrite lookup_zip_with, Hr. simpl. rewrite Hrow. simpl. by rewrite Hf.
Qed.

Lemma reduce_axis0_Some (f : float → float → float) (M : array float) :
  rows M ≠ [] → well_shaped M →
  ∃ s, reduce_axis0 f M = Some s ∧ length s = ncols M
       ∧ ∀ j c, f c c = c → Forall (λ row, row !! j = Some c) (rows M) →
                s !! j = Some c.
Proof.
  unfold reduce_axis0, well_shaped. destruct (rows M) as [|r rest]; [done|].
  intros _ [Hr Hall]%Forall_cons. eexists. split; [done|]. split.
  - by apply foldl_zip_with_length.
  - intros j c Hf [Hj Hc]%Forall_cons. by apply foldl_zip_with_const.
Qed.

Lemma broadcast_same (f : float → float → float) (xs ys : list float) :
  length xs = length ys → broadcast f xs ys = Some (zip_with f xs ys).
Proof. intros H. unfold broadcast. by rewrite decide_True. Qed.

Lemma bdim_same (a : nat) : bdim a a = Some a.
Proof. unfold bdim. by rewrite decide_True. Qed.

Lemma mapM_total {X Y : Type} (f : X → option Y) (g : X → Y) (l : list X) :
  Forall (λ x, f x = Some (g x)) l → mapM f l = Some (g <$> l).
Proof.
  intros H. apply mapM_Some. induction H; constructor; done.
Qed.

End DeepmpcNormSpec.
